(** * go-vite ledger storage: block log, staged key-value store, state writer

    A shallow embedding of
      - [ledger/chain/block/block_db.go]  (package [chain_block]),
      - [ledger/chain/state/write.go]     (package [chain_state]),
      - the staged store of package [chain_db], of which only the test file
        is available, so that its operations are modelled from the
        specification; the batch checker of that test file is embedded
        from it,
    followed by the properties of the storage layer stated over it.

    Conventions.  A Go [[]byte] is a [list byte]; fixed-size identifiers
    ([types.Address], [types.Hash], [types.TokenTypeId], [types.Gid]) are
    byte strings as well.  A Go [map] is a [gmap]; [range m] visits
    [map_to_list m], one of the orders Go may take (Go fixes none, and may
    take another the next time): what is stated of such a loop is stated
    of its operations, not of their order.  A Go
    [(T, error)] result is a [result T]; a bare [error] is an
    [option error] with [None] for [nil]; a function that can panic returns
    an [option], [None] for the panic.  Mutation of a receiver is explicit
    state passing. *)

From Stdlib Require Import ZArith NArith.
From Stdlib.Strings Require Import Byte.
From stdpp Require Import base option list gmap strings.

Abbreviation bytes := (list byte).

#[global] Instance byte_eq_dec : EqDecision byte := Byte.byte_eq_dec.
#[global] Instance byte_countable : Countable byte :=
  inj_countable Byte.to_N Byte.of_N Byte.of_to_N.

(** [byte(n)] for an [n] already known to fit; out of range it is zero. *)
Definition byte_of_N (n : N) : byte := default x00 (Byte.of_N n).

(** Go [error] values: [errors.New(msg)] and [fmt.Errorf(fmt, cause, ...)]. *)
Inductive error : Type :=
| errorNew (msg : string)
| Errorf (format : string) (cause : error).

(** The outcome of a call returning [(T, error)].  A run-time panic (slice
    bounds, nil dereference, explicit [panic(err)]) is modelled apart, by an
    [option] around the outcome of the functions that can panic. *)
Inductive result (A : Type) : Type :=
| Ok (a : A)
| Err (e : error).
Arguments Ok {A} a.
Arguments Err {A} e.

#[global] Instance result_bind : MBind result :=
  fun A B (k : A → result B) (r : result A) =>
    match r with Ok a => k a | Err e => Err e end.

Definition isOk {A} (r : result A) : bool :=
  match r with Ok _ => true | Err _ => false end.

(** Go's [s[lo:hi]] on a slice whose capacity equals its length: it panics
    unless [lo <= hi <= len(s)]. *)
Definition slice {A} (lo hi : nat) (s : list A) : option (list A) :=
  if decide (lo ≤ hi ∧ hi ≤ length s) then Some (take (hi - lo) (drop lo s))
  else None.

(** ** Write batches and the ordered key-value engine

    [leveldb.Batch]: an ordered sequence of put and delete records.  The
    engine is external; its state is the finite map from keys to values and
    [db.Write(batch)] replays the records in order. *)
Inductive BatchOp : Type :=
| OpPut (key value : bytes)
| OpDelete (key : bytes).

Abbreviation Batch := (list BatchOp).
Abbreviation Engine := (gmap bytes bytes).

Definition Put (key value : bytes) (b : Batch) : Batch := b ++ [OpPut key value].
Definition Delete (key : bytes) (b : Batch) : Batch := b ++ [OpDelete key].

Definition applyOp (db : Engine) (op : BatchOp) : Engine :=
  match op with
  | OpPut k v => <[k := v]> db
  | OpDelete k => delete k db
  end.

Definition applyBatch (b : Batch) (db : Engine) : Engine := foldl applyOp db b.

(** The key an operation touches. *)
Definition opKey (op : BatchOp) : bytes :=
  match op with OpPut k _ => k | OpDelete k => k end.

#[global] Instance BatchOp_eq_dec : EqDecision BatchOp.
Proof. solve_decision. Defined.

(** The last operation of a batch on a key, and the value the engine holds
    for the key once that operation is replayed. *)
Definition lastOn (k : bytes) (b : Batch) : option BatchOp :=
  last (filter (fun op => opKey op = k) b).

Definition opResult (op : option BatchOp) (old : option bytes) : option bytes :=
  match op with
  | Some (OpPut _ v) => Some v
  | Some (OpDelete _) => None
  | None => old
  end.

(** No two operations of the batch act differently on one key. *)
Definition conflictFree (b : Batch) : Prop :=
  Forall (fun op1 => Forall (fun op2 => opKey op1 = opKey op2 → op1 = op2) b) b.

(** ** Package [chain_db]: the staged store *)
Module ChainDB.

(** The serialisation of a batch ([Batch.Dump] / [Batch.Load]) belongs to
    the engine library; it is an interface here. *)
Class BatchCodec := {
  Dump : Batch → bytes;
  Load : bytes → option Batch;
}.

(** What the store relies on: loading a dump gives the batch back. *)
Class BatchCodecLaws (C : BatchCodec) : Prop := {
  Load_Dump : ∀ b : Batch, Load (Dump b) = Some b;
}.

(** Modelled from the spec: the [Store] type of package [chain_db] is not
    among the sources (only its test file is, which names the fields [db],
    [snapshotBatch] and [flushingBatch]).  [snapshotBatch] is the pending
    buffer, [flushingBatch] the buffer moved aside by [Prepare]. *)
Record Store : Type := mkStore {
  db : Engine;
  snapshotBatch : Batch;
  flushingBatch : Batch;
}.

(** A store over an engine, with both buffers empty: the idle state. *)
Definition NewStore (engine : Engine) : Store :=
  {| db := engine; snapshotBatch := []; flushingBatch := [] |}.

(** [store.NewBatch()]: an empty batch. *)
Definition NewBatch : Batch := [].

(** Modelled from the spec: [write(batch)] "merges batch into the pending
    buffer"; the store method is missing from the sources. *)
Definition WriteDirectly (batch : Batch) (s : Store) : Store :=
  {| db := db s;
     snapshotBatch := snapshotBatch s ++ batch;
     flushingBatch := flushingBatch s |}.

(** Modelled from the spec: [prepare()] "moves the entire current pending
    buffer into the flushing buffer, resets the pending buffer to empty";
    the store method is missing from the sources. *)
Definition Prepare (s : Store) : Store :=
  {| db := db s;
     snapshotBatch := [];
     flushingBatch := snapshotBatch s |}.

(** Modelled from the spec: [cancelPrepare()] "merges the flushing buffer
    back in front of the pending buffer, clears the flushing buffer"; the
    store method is missing from the sources. *)
Definition CancelPrepare (s : Store) : Store :=
  {| db := db s;
     snapshotBatch := flushingBatch s ++ snapshotBatch s;
     flushingBatch := [] |}.

(** Modelled from the spec: [redoLog()] "serializes the flushing buffer for
    use as a write-ahead record ... does not mutate state"; the store method
    is missing from the sources. *)
Definition RedoLog `{BatchCodec} (s : Store) : bytes * option error :=
  (Dump (flushingBatch s), None).

(** Modelled from the spec: [commit()] "applies the flushing buffer to the
    underlying KV engine atomically (as one engine-level batch)"; the store
    method is missing from the sources.  An engine that rejects the batch is
    outside the model. *)
Definition Commit (s : Store) : option error * Store :=
  (None,
   {| db := applyBatch (flushingBatch s) (db s);
      snapshotBatch := snapshotBatch s;
      flushingBatch := flushingBatch s |}).

(** Modelled from the spec: [afterCommit()] "clears the flushing buffer";
    the store method is missing from the sources. *)
Definition AfterCommit (s : Store) : Store :=
  {| db := db s;
     snapshotBatch := snapshotBatch s;
     flushingBatch := [] |}.

(** Modelled from the spec: [patchRedoLog(bytes)] "deserializes a previously
    produced redo-log payload and applies it directly to the underlying
    engine, bypassing the staging buffers"; the store method is missing from
    the sources. *)
Definition PatchRedoLog `{BatchCodec} (redoLog : bytes) (s : Store)
  : option error * Store :=
  match Load redoLog with
  | None => (Some (errorNew "batch load failed"), s)
  | Some batch =>
      (None,
       {| db := applyBatch batch (db s);
          snapshotBatch := snapshotBatch s;
          flushingBatch := flushingBatch s |})
  end.

(** A sequence of [write] calls, in order. *)
Definition WriteAll (batches : list Batch) (s : Store) : Store :=
  foldl (fun s batch => WriteDirectly batch s) s batches.

(** A codec in the layout of the engine library's batch records: a kind
    byte (1 for a put, 0 for a delete), then the key and, for a put, the
    value, each prefixed by its length as an unsigned varint. *)
Fixpoint putUvarint (fuel : nat) (n : N) : bytes :=
  match fuel with
  | O => [byte_of_N (n mod 128)]
  | S fuel' =>
      if (n <? 128)%N then [byte_of_N n]
      else byte_of_N (n mod 128 + 128) :: putUvarint fuel' (n / 128)
  end.

Fixpoint getUvarint (bs : bytes) : option (N * bytes) :=
  match bs with
  | [] => None
  | b :: rest =>
      let v := Byte.to_N b in
      if (v <? 128)%N then Some (v, rest)
      else match getUvarint rest with
           | Some (hi, rest') => Some ((v - 128) + 128 * hi, rest')%N
           | None => None
           end
  end.

Definition putBytes (bs : bytes) : bytes :=
  putUvarint (length bs) (N.of_nat (length bs)) ++ bs.

Definition getBytes (bs : bytes) : option (bytes * bytes) :=
  match getUvarint bs with
  | None => None
  | Some (n, rest) =>
      if decide (N.to_nat n ≤ length rest)
      then Some (take (N.to_nat n) rest, drop (N.to_nat n) rest)
      else None
  end.

Definition dumpOp (op : BatchOp) : bytes :=
  match op with
  | OpPut k v => x01 :: putBytes k ++ putBytes v
  | OpDelete k => x00 :: putBytes k
  end.

Definition recordDump (b : Batch) : bytes := concat (map dumpOp b).

Fixpoint recordLoad (fuel : nat) (bs : bytes) : option Batch :=
  match fuel with
  | O => match bs with [] => Some [] | _ => None end
  | S fuel' =>
      match bs with
      | [] => Some []
      | kind :: rest =>
          if decide (kind = x01) then
            match getBytes rest with
            | None => None
            | Some (k, rest1) =>
                match getBytes rest1 with
                | None => None
                | Some (v, rest2) =>
                    match recordLoad fuel' rest2 with
                    | None => None
                    | Some ops => Some (OpPut k v :: ops)
                    end
                end
            end
          else if decide (kind = x00) then
            match getBytes rest with
            | None => None
            | Some (k, rest1) =>
                match recordLoad fuel' rest1 with
                | None => None
                | Some ops => Some (OpDelete k :: ops)
                end
            end
          else None
      end
  end.

Definition recordCodec : BatchCodec :=
  {| Dump := recordDump; Load := fun bs => recordLoad (length bs) bs |}.

(** *** The batch checker of the test file (lines 215-271)

    The checker is a replay handler: [Batch.Replay(c)], of the engine
    library, calls [c.Put] or [c.Delete] with each record of the batch, in
    order.  An item is a [[3][]byte]: key, value, flag. *)
Definition putFlag : byte := x01.
Definition deleteFlag : byte := x02.

Module checker.

Abbreviation item := (bytes * bytes * bytes)%type.

Record t : Type := mk {
  batch : Batch;
  data : list item;
  tmpData : list item;
}.

Definition Put (key value : bytes) (c : t) : t :=
  {| batch := batch c; data := data c;
     tmpData := tmpData c ++ [(key, value, [putFlag])] |}.

Definition Delete (key : bytes) (c : t) : t :=
  {| batch := batch c; data := data c;
     tmpData := tmpData c ++ [(key, [], [deleteFlag])] |}.

Definition Replay (b : Batch) (c : t) : t :=
  foldl (fun c op =>
           match op with
           | OpPut key value => Put key value c
           | OpDelete key => Delete key c
           end) c b.

(** The item the handler appends for a record. *)
Definition recorded (op : BatchOp) : item :=
  match op with
  | OpPut key value => (key, value, [putFlag])
  | OpDelete key => (key, [], [deleteFlag])
  end.

Definition fetchData (c : t) : list item * t :=
  (tmpData c, {| batch := batch c; data := data c; tmpData := [] |}).

Definition batchToData (b : Batch) (c : t) : list item * t :=
  fetchData (Replay b c).

Definition newChecker (b : Batch) : t :=
  let c := {| batch := b; data := replicate (length b) ([], [], []);
              tmpData := [] |} in
  let '(d, c) := batchToData b c in
  {| batch := batch c; data := d; tmpData := tmpData c |}.

(** The loop of [CheckBatch] from [index] on; [None] is a panic (of the
    comparison, or of [c.data[index]] out of range). *)
Fixpoint checkItems (index : nat) (items cdata : list item) : option unit :=
  match items with
  | [] => Some tt
  | it :: rest =>
      cItem ← cdata !! index;
      if decide (it.1.1 ≠ cItem.1.1 ∨ it.1.2 ≠ cItem.1.2 ∨ it.2 ≠ cItem.2)
      then None
      else checkItems (S index) rest cdata
  end.

(** [None] is [panic("err")]. *)
Definition CheckBatch (b : Batch) (c : t) : option t :=
  let '(d, c) := batchToData b c in
  if decide (length d ≠ length (data c)) then None
  else _ ← checkItems 0 d (data c); Some c.

End checker.

End ChainDB.

(** ** Packages [types], [ledger] and [interfaces]: the domain objects

    Only the fields the storage layer reads are kept; their encodings are
    external. *)
Module types.
Abbreviation Address := bytes.
Abbreviation Hash := bytes.
Abbreviation TokenTypeId := bytes.
Abbreviation Gid := bytes.
End types.

Module AccountBlock.
Inductive t : Type := mk {
  BlockType : byte;
  Hash : types.Hash;
  Height : N;
  AccountAddress : types.Address;
  FromBlockHash : types.Hash;
  LogHash : option types.Hash;
  SendBlockList : list t;
  Data : bytes;
}.
End AccountBlock.

Module SnapshotBlock.
Record t : Type := mk {
  Hash : types.Hash;
  Height : N;
  Data : bytes;
}.
End SnapshotBlock.

Module ContractMeta.
Record t : Type := mk {
  Gid : types.Gid;
  CreateBlockHash : types.Hash;
  Rest : bytes;
}.
End ContractMeta.

Module SnapshotChunk.
Record t : Type := mk {
  SnapshotBlock : option SnapshotBlock.t;
  AccountBlocks : list AccountBlock.t;
}.
End SnapshotChunk.

(** [ledger.VmLogList]: a list of logs, each with topics and data. *)
Abbreviation VmLogListT := (list (list types.Hash * bytes)).

(** [interfaces.VmDb], the VM-state provider, by what its methods return. *)
Module VmDb.
Record t : Type := mk {
  CanWrite : bool;
  GetUnsavedStorage : list (bytes * bytes);
  GetUnsavedBalanceMap : gmap types.TokenTypeId Z;
  GetUnsavedContractCode : option bytes;
  GetUnsavedContractMeta : gmap types.Address ContractMeta.t;
  GetLogList : VmLogListT;
  GetCallDepth : types.Hash → result N;
}.
End VmDb.

Module VmAccountBlock.
Record t : Type := mk {
  AccountBlock : AccountBlock.t;
  VmDb : VmDb.t;
}.
End VmAccountBlock.

(** [math/big]: [Int.Bytes], the big-endian bytes of the absolute
    value, empty for zero. *)
Fixpoint beBytes (fuel : nat) (n : N) (acc : bytes) : bytes :=
  match fuel with
  | O => acc
  | S fuel' =>
      if (n =? 0)%N then acc
      else beBytes fuel' (n / 256) (byte_of_N (n mod 256) :: acc)
  end.

Definition bigIntBytes (z : Z) : bytes :=
  let n := Z.to_N (Z.abs z) in beBytes (N.size_nat n) n [].

(** [binary.BigEndian.PutUint16] into a two-byte slice. *)
Definition PutUint16 (v : N) : bytes :=
  [byte_of_N ((v / 256) mod 256); byte_of_N (v mod 256)].

(** [uint16] addition wraps around. *)
Definition uint16_add (a b : N) : N := ((a + b) mod 65536)%N.

(** ** Package [chain_state]: the state writer *)
Module ChainState.

(** [LogItem], the redo item of one account block. *)
Record LogItem : Type := mkLogItem {
  Storage : list (bytes * bytes);
  BalanceMap : gmap types.TokenTypeId Z;
  Code : option bytes;
  ContractMeta : gmap types.Address bytes;
  VmLogList : gmap types.Hash bytes;
  CallDepth : gmap types.Hash N;
  Height : N;
}.

(** [SnapshotLog]: the redo items of one snapshot height, per address. *)
Abbreviation SnapshotLog := (gmap types.Address (list LogItem)).

(** The in-process read cache ([go-cache]), keyed by a string. *)
Abbreviation Cache := (gmap bytes bytes).

(** Modelled from the spec: the key types of package [chain_utils] are
    missing from the sources.  A history key is kept by its logical fields
    (address, storage key or token id, height); the refill methods overwrite
    one field of the template, and the byte layout ([Bytes]) is a parameter
    of [ChainUtils] below. *)
Record HistoryStorageValueKey : Type := mkHistoryStorageValueKey {
  hsv_Address : types.Address;
  hsv_Key : bytes;
  hsv_Height : N;
}.

(** Modelled from the spec: the history balance key of [chain_utils], by
    its logical fields, as above. *)
Record HistoryBalanceKey : Type := mkHistoryBalanceKey {
  hb_Address : types.Address;
  hb_TokenId : types.TokenTypeId;
  hb_Height : N;
}.

(** What [write.go] uses of packages [chain_utils], [types] and [ledger] and
    of the other files of [chain_state]: key constructors (composed with
    [Bytes()]), sizes, prefixes and the serialisers of domain objects. *)
Class ChainUtils : Type := {
  CreateStorageValueKey : types.Address → bytes → bytes;
  CreateBalanceKey : types.Address → types.TokenTypeId → bytes;
  CreateCodeKey : types.Address → bytes;
  CreateContractMetaKey : types.Address → bytes;
  CreateGidContractKey : types.Gid → types.Address → bytes;
  CreateVmLogListKey : types.Hash → bytes;
  CreateCallDepthKey : types.Hash → bytes;
  GidContractKeyPrefix : byte;
  StorageRealKeyConstruct : bytes → bytes;
  HistoryStorageValueKeyBytes : HistoryStorageValueKey → bytes;
  HistoryBalanceKeyBytes : HistoryBalanceKey → bytes;
  AddressSize : nat;
  GidSize : nat;
  TokenTypeIdSize : nat;
  BytesToAddress : bytes → result types.Address;
  ContractMetaSerialize : ContractMeta.t → bytes;
  VmLogListSerialize : VmLogListT → result bytes;
  IsReceiveBlock : AccountBlock.t → bool;
  contractAddrPrefix : bytes;
  balancePrefix : bytes;
  snapshotValuePrefix : bytes;
  shouldCacheContractData : types.Address → bool;
  parseStorageKey : bytes → bytes;
}.

(** The collaborators of [StateDB] whose code is not among the sources: the
    staged store, the redo log manager and the round cache, as interfaces
    over their own states. *)
Class Collaborators : Type := {
  StoreT : Type;
  store_WriteAccountBlock : Batch → AccountBlock.t → StoreT → StoreT;
  store_WriteAccountBlockByHash : Batch → types.Hash → StoreT → StoreT;
  store_WriteSnapshot : Batch → list AccountBlock.t → StoreT → StoreT;
  RedoT : Type;
  redo_AddLog : types.Address → LogItem → RedoT → RedoT;
  redo_InsertSnapshotBlock :
    SnapshotBlock.t → list AccountBlock.t → RedoT → RedoT;
  redo_QueryLog : N → RedoT → result (SnapshotLog * bool);
  RoundCacheT : Type;
  roundCache_InsertSnapshotBlock :
    SnapshotBlock.t → SnapshotLog → RoundCacheT → RoundCacheT;
}.

(** [StateDB], by the fields [write.go] uses. *)
Record StateDB `{Collaborators} : Type := mkStateDB {
  store : StoreT;
  redo : RedoT;
  roundCache : RoundCacheT;
  cache : Cache;
  vmLogAll : bool;
  vmLogWhiteListSet : gset types.Address;
}.

(** [sDB.store.NewBatch()]: an empty batch. *)
Definition NewBatch : Batch := [].

(** Modelled from the spec: the constructors and refill methods of the
    history keys of [chain_utils], missing from the sources; a constructor
    fills the three fields (the storage key through
    [StorageRealKey.Construct]), a refill overwrites one of them. *)
Definition CreateHistoryStorageValueKey `{ChainUtils}
  (address : types.Address) (storageKey : bytes) (height : N)
  : HistoryStorageValueKey :=
  {| hsv_Address := address;
     hsv_Key := StorageRealKeyConstruct storageKey;
     hsv_Height := height |}.

Definition hsv_AddressRefill (addr : types.Address)
  (key : HistoryStorageValueKey) : HistoryStorageValueKey :=
  {| hsv_Address := addr; hsv_Key := hsv_Key key; hsv_Height := hsv_Height key |}.

Definition hsv_KeyRefill (realKey : bytes)
  (key : HistoryStorageValueKey) : HistoryStorageValueKey :=
  {| hsv_Address := hsv_Address key; hsv_Key := realKey;
     hsv_Height := hsv_Height key |}.

Definition CreateHistoryBalanceKey (address : types.Address)
  (tokenTypeId : types.TokenTypeId) (height : N) : HistoryBalanceKey :=
  {| hb_Address := address; hb_TokenId := tokenTypeId; hb_Height := height |}.

Definition hb_AddressRefill (addr : types.Address)
  (key : HistoryBalanceKey) : HistoryBalanceKey :=
  {| hb_Address := addr; hb_TokenId := hb_TokenId key;
     hb_Height := hb_Height key |}.

Definition hb_TokenIdRefill (tokenTypeId : types.TokenTypeId)
  (key : HistoryBalanceKey) : HistoryBalanceKey :=
  {| hb_Address := hb_Address key; hb_TokenId := tokenTypeId;
     hb_Height := hb_Height key |}.

(** [canWriteVmLog] (write.go, 282-290). *)
Definition canWriteVmLog `{Collaborators} (sDB : StateDB)
  (addr : types.Address) : bool :=
  if vmLogAll sDB then true
  else bool_decide (addr ∈ vmLogWhiteListSet sDB).

(** [writeContractMeta] (write.go, 255-259): a put and a cache entry. *)
Definition writeContractMeta `{ChainUtils} (key value : bytes)
  (st : Batch * Cache) : Batch * Cache :=
  (Put key value st.1, <[contractAddrPrefix ++ key := value]> st.2).

(** [writeBalance] (write.go, 261-265). *)
Definition writeBalance `{ChainUtils} (key value : bytes)
  (st : Batch * Cache) : Batch * Cache :=
  (Put key value st.1, <[balancePrefix ++ key := value]> st.2).

(** [writeHistoryKey] (write.go, 267-280); [None] is the panic of the slice
    expression or of [panic(err)]. *)
Definition writeHistoryKey `{ChainUtils} (key value : bytes)
  (st : Batch * Cache) : option (Batch * Cache) :=
  let batch := Put key value st.1 in
  addrBytes ← slice 1 (1 + AddressSize) key;
  match BytesToAddress addrBytes with
  | Err _ => None
  | Ok addr =>
      if shouldCacheContractData addr
      then Some (batch,
                 <[snapshotValuePrefix ++ addrBytes ++ parseStorageKey key
                   := value]> st.2)
      else Some (batch, st.2)
  end.

(** *** [StateDB.Write] (write.go, 16-125) *)

(** Body of the loop over [unsavedStorage] (also the loop of
    [WriteByRedo] over [redoLog.Storage], with the same text). *)
Definition writeStorage `{ChainUtils} (addr : types.Address)
  (batch : Batch) (kv : bytes * bytes) : Batch :=
  if decide (length kv.2 ≤ 0)
  then Delete (CreateStorageValueKey addr kv.1) batch
  else Put (CreateStorageValueKey addr kv.1) kv.2 batch.

(** Body of the loop over [unsavedBalanceMap]; the third component is
    [redoLog.BalanceMap]. *)
Definition writeUnsavedBalance `{ChainUtils} (addr : types.Address)
  (st : Batch * Cache * gmap types.TokenTypeId Z)
  (entry : types.TokenTypeId * Z)
  : Batch * Cache * gmap types.TokenTypeId Z :=
  let '(tokenTypeId, balance) := entry in
  (writeBalance (CreateBalanceKey addr tokenTypeId) (bigIntBytes balance) st.1,
   <[tokenTypeId := balance]> st.2).

(** Body of the loop over [unsavedContractMeta]; the third component is
    [redoLog.ContractMeta]. *)
Definition writeUnsavedContractMeta `{ChainUtils} (accountBlock : AccountBlock.t)
  (st : Batch * Cache * gmap types.Address bytes)
  (entry : types.Address * ContractMeta.t)
  : Batch * Cache * gmap types.Address bytes :=
  let '(addr, meta) := entry in
  let meta := {| ContractMeta.Gid := ContractMeta.Gid meta;
                 ContractMeta.CreateBlockHash := AccountBlock.Hash accountBlock;
                 ContractMeta.Rest := ContractMeta.Rest meta |} in
  let contractKey := CreateContractMetaKey addr in
  let gidContractKey := CreateGidContractKey (ContractMeta.Gid meta) addr in
  let metaBytes := ContractMetaSerialize meta in
  let st' := writeContractMeta contractKey metaBytes st.1 in
  (Put gidContractKey [] st'.1, st'.2, <[addr := metaBytes]> st.2).

(** The step "write vm log" (lines 85-95): the batch and [redoLog.VmLogList]. *)
Definition writeVmLog `{ChainUtils, Collaborators} (sDB : StateDB)
  (vmDb : VmDb.t) (accountBlock : AccountBlock.t) (batch : Batch)
  : result (Batch * gmap types.Hash bytes) :=
  match AccountBlock.LogHash accountBlock with
  | Some logHash =>
      if canWriteVmLog sDB (AccountBlock.AccountAddress accountBlock) then
        let vmLogListKey := CreateVmLogListKey logHash in
        bytes ← VmLogListSerialize (VmDb.GetLogList vmDb);
        Ok (Put vmLogListKey bytes batch, {[ logHash := bytes ]})
      else Ok (batch, ∅)
  | None => Ok (batch, ∅)
  end.

(** Body of the loop over [accountBlock.SendBlockList]. *)
Definition writeSendCallDepth `{ChainUtils} (callDepth : N)
  (callDepthBytes : bytes) (st : Batch * gmap types.Hash N)
  (sendBlock : AccountBlock.t) : Batch * gmap types.Hash N :=
  (Put (CreateCallDepthKey (AccountBlock.Hash sendBlock)) callDepthBytes st.1,
   <[AccountBlock.Hash sendBlock := callDepth]> st.2).

(** The step "write call depth" (lines 97-114): the batch and
    [redoLog.CallDepth]. *)
Definition writeCallDepth `{ChainUtils} (vmDb : VmDb.t)
  (accountBlock : AccountBlock.t) (batch : Batch)
  : result (Batch * gmap types.Hash N) :=
  if IsReceiveBlock accountBlock
     && bool_decide (0 < length (AccountBlock.SendBlockList accountBlock))
  then
    callDepth ← VmDb.GetCallDepth vmDb (AccountBlock.FromBlockHash accountBlock);
    let callDepth := uint16_add callDepth 1 in
    let callDepthBytes := PutUint16 callDepth in
    Ok (foldl (writeSendCallDepth callDepth callDepthBytes) (batch, ∅)
          (AccountBlock.SendBlockList accountBlock))
  else Ok (batch, ∅).

(** The puts of the call-depth step, one per send block, in list order,
    and the map it records. *)
Definition callDepthOps `{ChainUtils} (callDepth : N)
  (sends : list AccountBlock.t) : Batch :=
  map (fun sendBlock =>
         OpPut (CreateCallDepthKey (AccountBlock.Hash sendBlock))
           (PutUint16 callDepth)) sends.

Definition callDepthMap (callDepth : N) (sends : list AccountBlock.t)
  (m : gmap types.Hash N) : gmap types.Hash N :=
  foldl (fun m sendBlock => <[AccountBlock.Hash sendBlock := callDepth]> m)
    m sends.

(** Lines 28-83 of [Write], the steps that cannot fail (storage, balance,
    code, contract meta): the batch and the cache they leave, and the
    fields [BalanceMap], [Code] and [ContractMeta] of the redo item. *)
Definition Write_deltas `{ChainUtils, Collaborators}
  (block : VmAccountBlock.t) (sDB : StateDB)
  : Batch * Cache
    * gmap types.TokenTypeId Z * option bytes * gmap types.Address bytes :=
  let batch := NewBatch in
  let vmDb := VmAccountBlock.VmDb block in
  let accountBlock := VmAccountBlock.AccountBlock block in
  let addr := AccountBlock.AccountAddress accountBlock in
  (* write unsaved storage *)
  let unsavedStorage := VmDb.GetUnsavedStorage vmDb in
  let batch := foldl (writeStorage addr) batch unsavedStorage in
  (* write unsaved balance *)
  let unsavedBalanceMap := VmDb.GetUnsavedBalanceMap vmDb in
  let '(st, redoBalanceMap) :=
    foldl (writeUnsavedBalance addr) (batch, cache sDB, ∅)
      (map_to_list unsavedBalanceMap) in
  (* write unsaved code *)
  let unsavedCode := VmDb.GetUnsavedContractCode vmDb in
  let '(st, redoCode) :=
    match unsavedCode with
    | Some code => ((Put (CreateCodeKey addr) code st.1, st.2), Some code)
    | None => (st, None)
    end in
  (* write unsaved contract meta *)
  let unsavedContractMeta := VmDb.GetUnsavedContractMeta vmDb in
  let '(st, redoContractMeta) :=
    if decide (0 < size unsavedContractMeta)
    then foldl (writeUnsavedContractMeta accountBlock) (st, ∅)
           (map_to_list unsavedContractMeta)
    else (st, ∅) in
  (st, redoBalanceMap, redoCode, redoContractMeta).

(** Lines 17-117 of [Write]: the batch and the redo item it assembles, and
    the cache as [writeBalance] and [writeContractMeta] leave it, also when
    an error is returned. *)
Definition Write_body `{ChainUtils, Collaborators}
  (block : VmAccountBlock.t) (sDB : StateDB)
  : result (Batch * LogItem) * Cache :=
  let vmDb := VmAccountBlock.VmDb block in
  if negb (VmDb.CanWrite vmDb)
  then (Err (errorNew "vmDb.CanWrite() is false"), cache sDB)
  else
    let accountBlock := VmAccountBlock.AccountBlock block in
    let '(st, redoBalanceMap, redoCode, redoContractMeta) :=
      Write_deltas block sDB in
    let res :=
      (* write vm log *)
      '(batch, redoVmLogList) ← writeVmLog sDB vmDb accountBlock st.1;
      (* write call depth *)
      '(batch, redoCallDepth) ← writeCallDepth vmDb accountBlock batch;
      (* add storage redo log *)
      Ok (batch,
          {| Storage := VmDb.GetUnsavedStorage vmDb;
             BalanceMap := redoBalanceMap;
             Code := redoCode;
             ContractMeta := redoContractMeta;
             VmLogList := redoVmLogList;
             CallDepth := redoCallDepth;
             Height := AccountBlock.Height accountBlock |}) in
    (res, st.2).

Definition Write `{ChainUtils, Collaborators}
  (block : VmAccountBlock.t) (sDB : StateDB) : option error * StateDB :=
  match Write_body block sDB with
  | (Err err, cache') =>
      (Some err,
       {| store := store sDB; redo := redo sDB; roundCache := roundCache sDB;
          cache := cache'; vmLogAll := vmLogAll sDB;
          vmLogWhiteListSet := vmLogWhiteListSet sDB |})
  | (Ok (batch, redoLog), cache') =>
      let accountBlock := VmAccountBlock.AccountBlock block in
      (None,
       {| store := store_WriteAccountBlock batch accountBlock (store sDB);
          redo := redo_AddLog (AccountBlock.AccountAddress accountBlock)
                    redoLog (redo sDB);
          roundCache := roundCache sDB;
          cache := cache'; vmLogAll := vmLogAll sDB;
          vmLogWhiteListSet := vmLogWhiteListSet sDB |})
  end.

(** *** [StateDB.WriteByRedo] (write.go, 127-187) *)

(** Body of the loop over [redoLog.ContractMeta]; [None] is the panic of
    [metaBytes[:types.GidSize]] on a short [metaBytes]. *)
Definition redoContractMeta `{ChainUtils} (st : option (Batch * Cache))
  (entry : types.Address * bytes) : option (Batch * Cache) :=
  let '(addr, metaBytes) := entry in
  st ← st;
  let contractKey := CreateContractMetaKey addr in
  gid ← slice 0 GidSize metaBytes;
  let gidContractKey := [GidContractKeyPrefix] ++ addr ++ gid in
  let st' := writeContractMeta contractKey metaBytes st in
  Some (Put gidContractKey [] st'.1, st'.2).

(** Lines 128-185 of [WriteByRedo]: the batch it assembles and the cache. *)
Definition WriteByRedo_body `{ChainUtils, Collaborators}
  (addr : types.Address) (redoLog : LogItem) (sDB : StateDB)
  : option (Batch * Cache) :=
  let batch := NewBatch in
  (* write unsaved storage *)
  let batch := foldl (writeStorage addr) batch (Storage redoLog) in
  (* write unsaved balance *)
  let st :=
    foldl (fun st '(tokenTypeId, balance) =>
             writeBalance (CreateBalanceKey addr tokenTypeId)
               (bigIntBytes balance) st)
      (batch, cache sDB) (map_to_list (BalanceMap redoLog)) in
  (* write unsaved code *)
  let unsavedCode := default [] (Code redoLog) in
  let st :=
    if decide (0 < length unsavedCode)
    then (Put (CreateCodeKey addr) unsavedCode st.1, st.2)
    else st in
  (* write unsaved contract meta *)
  st ← foldl redoContractMeta (Some st) (map_to_list (ContractMeta redoLog));
  (* write vm log *)
  let batch :=
    foldl (fun b '(logHash, vmLogListBytes) =>
             Put (CreateVmLogListKey logHash) vmLogListBytes b)
      st.1 (map_to_list (VmLogList redoLog)) in
  (* write call depth *)
  let batch :=
    foldl (fun b '(sendHash, callDepth) =>
             Put (CreateCallDepthKey sendHash) (PutUint16 callDepth) b)
      batch (map_to_list (CallDepth redoLog)) in
  Some (batch, st.2).

Definition WriteByRedo `{ChainUtils, Collaborators}
  (blockHash : types.Hash) (addr : types.Address) (redoLog : LogItem)
  (sDB : StateDB) : option StateDB :=
  '(batch, cache') ← WriteByRedo_body addr redoLog sDB;
  Some {| store := store_WriteAccountBlockByHash batch blockHash (store sDB);
          redo := redo sDB; roundCache := roundCache sDB;
          cache := cache'; vmLogAll := vmLogAll sDB;
          vmLogWhiteListSet := vmLogWhiteListSet sDB |}.

(** *** [StateDB.InsertSnapshotBlock] (write.go, 189-253) *)

(** Modelled from the spec: [parseRedoLog] is missing from the sources.  Its
    results are, per address, a map from storage key to value and a map from
    token id to balance (the types [InsertSnapshotBlock] ranges over).  The
    spec folds "every storage key-value pair and every balance entry" of the
    buffered items into them: the items of an address are visited in order,
    the pairs of an item in order, each stored under its key, so that a
    later pair replaces an earlier one with the same key. *)
Definition parseStorage (items : list LogItem) : gmap bytes bytes :=
  foldl (fun kvMap redoLog =>
           foldl (fun kvMap kv => <[kv.1 := kv.2]> kvMap) kvMap
             (Storage redoLog))
    ∅ items.

(** Modelled from the spec: the balance half of [parseRedoLog], missing
    from the sources; "every balance entry" of the items, a later entry
    replacing an earlier one for the same token id. *)
Definition parseBalance (items : list LogItem) : gmap types.TokenTypeId Z :=
  foldl (fun balanceMap redoLog =>
           foldl (fun balanceMap '(tokenTypeId, balance) =>
                    <[tokenTypeId := balance]> balanceMap)
             balanceMap (map_to_list (BalanceMap redoLog)))
    ∅ items.

(** Modelled from the spec: [parseRedoLog], missing from the sources, per
    address; it reports no error. *)
Definition parseRedoLog (snapshotRedoLog : SnapshotLog)
  : result (gmap types.Address (gmap bytes bytes)
            * gmap types.Address (gmap types.TokenTypeId Z)) :=
  Ok (parseStorage <$> snapshotRedoLog, parseBalance <$> snapshotRedoLog).

(** Inner loop over [kvMap]; the state carries the key template. *)
Definition putHistoryStorage `{ChainUtils}
  (st : option (Batch * Cache * HistoryStorageValueKey))
  (entry : bytes * bytes) : option (Batch * Cache * HistoryStorageValueKey) :=
  let '(keyStr, value) := entry in
  '(bc, putKeyTemplate) ← st;
  let putKeyTemplate :=
    hsv_KeyRefill (StorageRealKeyConstruct keyStr) putKeyTemplate in
  bc ← writeHistoryKey (HistoryStorageValueKeyBytes putKeyTemplate) value bc;
  Some (bc, putKeyTemplate).

(** Outer loop over [redoKvMap]. *)
Definition putHistoryStorageOf `{ChainUtils}
  (st : option (Batch * Cache * HistoryStorageValueKey))
  (entry : types.Address * gmap bytes bytes)
  : option (Batch * Cache * HistoryStorageValueKey) :=
  let '(addr, kvMap) := entry in
  '(bc, putKeyTemplate) ← st;
  let putKeyTemplate := hsv_AddressRefill addr putKeyTemplate in
  foldl putHistoryStorage (Some (bc, putKeyTemplate)) (map_to_list kvMap).

(** Inner loop over [balanceMap]. *)
Definition putHistoryBalance `{ChainUtils} (st : Batch * HistoryBalanceKey)
  (entry : types.TokenTypeId * Z) : Batch * HistoryBalanceKey :=
  let '(tokenTypeId, balance) := entry in
  let putBalanceTemplate := hb_TokenIdRefill tokenTypeId st.2 in
  (Put (HistoryBalanceKeyBytes putBalanceTemplate) (bigIntBytes balance) st.1,
   putBalanceTemplate).

(** Outer loop over [redoBalanceMap]. *)
Definition putHistoryBalanceOf `{ChainUtils} (st : Batch * HistoryBalanceKey)
  (entry : types.Address * gmap types.TokenTypeId Z)
  : Batch * HistoryBalanceKey :=
  let '(addr, balanceMap) := entry in
  let putBalanceTemplate := hb_AddressRefill addr st.2 in
  foldl putHistoryBalance (st.1, putBalanceTemplate) (map_to_list balanceMap).

(** Lines 201-243 of [InsertSnapshotBlock]: the history batch assembled from
    the redo items of the confirmed height, and the cache; [None] is a
    panic inside [writeHistoryKey]. *)
Definition InsertSnapshotBlock_body `{ChainUtils, Collaborators}
  (height : N) (snapshotRedoLog : SnapshotLog) (sDB : StateDB)
  : option (result Batch * Cache) :=
  let batch := NewBatch in
  if decide (0 < size snapshotRedoLog) then
    match parseRedoLog snapshotRedoLog with
    | Err err => Some (Err err, cache sDB)
    | Ok (redoKvMap, redoBalanceMap) =>
        (* put history storage kv *)
        let putKeyTemplate :=
          CreateHistoryStorageValueKey (replicate AddressSize x00) [] height in
        '(bc, _) ← foldl putHistoryStorageOf
                     (Some (batch, cache sDB, putKeyTemplate))
                     (map_to_list redoKvMap);
        let putBalanceTemplate :=
          CreateHistoryBalanceKey (replicate AddressSize x00)
            (replicate TokenTypeIdSize x00) height in
        let '(batch, _) :=
          foldl putHistoryBalanceOf (bc.1, putBalanceTemplate)
            (map_to_list redoBalanceMap) in
        Some (Ok batch, bc.2)
    end
  else Some (Ok batch, cache sDB).

Definition InsertSnapshotBlock `{ChainUtils, Collaborators}
  (snapshotBlock : SnapshotBlock.t) (confirmedBlocks : list AccountBlock.t)
  (sDB : StateDB) : option (option error * StateDB) :=
  let height := SnapshotBlock.Height snapshotBlock in
  (* next snapshot *)
  let redo' :=
    redo_InsertSnapshotBlock snapshotBlock confirmedBlocks (redo sDB) in
  (* write history *)
  match redo_QueryLog height redo' with
  | Err err =>
      Some (Some err,
            {| store := store sDB; redo := redo'; roundCache := roundCache sDB;
               cache := cache sDB; vmLogAll := vmLogAll sDB;
               vmLogWhiteListSet := vmLogWhiteListSet sDB |})
  | Ok (snapshotRedoLog, _) =>
      r ← InsertSnapshotBlock_body height snapshotRedoLog sDB;
      match r with
      | (Err err, cache') =>
          Some (Some err,
                {| store := store sDB; redo := redo';
                   roundCache := roundCache sDB;
                   cache := cache'; vmLogAll := vmLogAll sDB;
                   vmLogWhiteListSet := vmLogWhiteListSet sDB |})
      | (Ok batch, cache') =>
          Some (None,
                {| (* write snapshot *)
                   store := store_WriteSnapshot batch confirmedBlocks (store sDB);
                   redo := redo';
                   (* set round cache *)
                   roundCache :=
                     roundCache_InsertSnapshotBlock snapshotBlock
                       snapshotRedoLog (roundCache sDB);
                   cache := cache'; vmLogAll := vmLogAll sDB;
                   vmLogWhiteListSet := vmLogWhiteListSet sDB |})
      end
  end.

(** *** The operations of each step, entry by entry

    What one iteration of each loop of [Write] and [WriteByRedo] appends to
    the batch and sets in the cache (a cache entry is written as the put
    that sets it). *)
Definition storageOp `{ChainUtils} (addr : types.Address)
  (kv : bytes * bytes) : BatchOp :=
  if decide (length kv.2 ≤ 0)
  then OpDelete (CreateStorageValueKey addr kv.1)
  else OpPut (CreateStorageValueKey addr kv.1) kv.2.

Definition balanceOp `{ChainUtils} (addr : types.Address)
  (entry : types.TokenTypeId * Z) : BatchOp :=
  OpPut (CreateBalanceKey addr entry.1) (bigIntBytes entry.2).

Definition balanceCacheOp `{ChainUtils} (addr : types.Address)
  (entry : types.TokenTypeId * Z) : BatchOp :=
  OpPut (balancePrefix ++ CreateBalanceKey addr entry.1) (bigIntBytes entry.2).

(** The bytes [Write] stores for a contract meta: the meta stamped with the
    hash of the creating block, serialised. *)
Definition stampedMetaBytes `{ChainUtils} (accountBlock : AccountBlock.t)
  (meta : ContractMeta.t) : bytes :=
  ContractMetaSerialize
    {| ContractMeta.Gid := ContractMeta.Gid meta;
       ContractMeta.CreateBlockHash := AccountBlock.Hash accountBlock;
       ContractMeta.Rest := ContractMeta.Rest meta |}.

Definition metaOpsWrite `{ChainUtils} (accountBlock : AccountBlock.t)
  (entry : types.Address * ContractMeta.t) : Batch :=
  [OpPut (CreateContractMetaKey entry.1)
     (stampedMetaBytes accountBlock entry.2);
   OpPut (CreateGidContractKey (ContractMeta.Gid entry.2) entry.1) []].

Definition metaOpsRedo `{ChainUtils} (entry : types.Address * bytes) : Batch :=
  [OpPut (CreateContractMetaKey entry.1) entry.2;
   OpPut ([GidContractKeyPrefix] ++ entry.1 ++ take GidSize entry.2) []].

Definition metaCacheOp `{ChainUtils} (entry : types.Address * bytes) : BatchOp :=
  OpPut (contractAddrPrefix ++ CreateContractMetaKey entry.1) entry.2.

(** The history rows: the put of one storage pair, and of one balance, of
    an address at a height. *)
Definition historyStorageOp `{ChainUtils} (addr : types.Address) (height : N)
  (kv : bytes * bytes) : BatchOp :=
  OpPut (HistoryStorageValueKeyBytes
           (CreateHistoryStorageValueKey addr kv.1 height)) kv.2.

Definition historyBalanceOp `{ChainUtils} (addr : types.Address) (height : N)
  (entry : types.TokenTypeId * Z) : BatchOp :=
  OpPut (HistoryBalanceKeyBytes
           (CreateHistoryBalanceKey addr entry.1 height))
    (bigIntBytes entry.2).

(** What [writeHistoryKey] needs not to panic: every history storage key
    carries, after its first byte, [AddressSize] bytes that make an
    address. *)
Class HistoryKeyLayout (U : ChainUtils) : Prop := {
  history_key_address : ∀ key : HistoryStorageValueKey,
    ∃ addrBytes addr,
      slice 1 (1 + AddressSize) (HistoryStorageValueKeyBytes key)
      = Some addrBytes
      ∧ BytesToAddress addrBytes = Ok addr;
}.

End ChainState.

(** ** Package [chain_block]: the block log *)
Module ChainBlock.

(** [chain_file_manager.Location]. *)
Record Location : Type := mkLocation {
  FileId : N;
  Offset : Z;
}.

(** The file manager ([chain_file_manager.FileManager]) is not among the
    sources; [BlockDB] uses it through [Write], [Read] and
    [LatestLocation]. *)
Class FileManager : Type := {
  FM : Type;
  fm_Write : bytes → FM → result Location * FM;
  fm_Read : Location → FM → result (bytes * Location);
  fm_LatestLocation : FM → Location;
}.

(** The contract of the segment store that sequential reading relies on
    (spec, 4.1): a write returns the location of the record's start, from
    which the record is read back together with the location that follows
    it, the write head; the record is also what a reader finds on arriving
    at the previous write head; records already readable stay so. *)
Class FileManagerLaws (F : FileManager) : Prop := {
  fm_read_written : ∀ buf fm fm' loc,
    fm_Write buf fm = (Ok loc, fm') →
    fm_Read loc fm' = Ok (buf, fm_LatestLocation fm');
  fm_read_head : ∀ buf fm fm' loc,
    fm_Write buf fm = (Ok loc, fm') →
    fm_Read (fm_LatestLocation fm) fm' = Ok (buf, fm_LatestLocation fm');
  fm_read_stable : ∀ buf fm fm' loc l r,
    fm_Write buf fm = (Ok loc, fm') →
    fm_Read l fm = Ok r → fm_Read l fm' = Ok r;
}.

(** Block encodings ([ledger]) and the compression codec ([snappy]) are
    external; the type tags are constants of another file of the package. *)
Class BlockCodec : Type := {
  AccountBlock_Serialize : AccountBlock.t → result bytes;
  AccountBlock_Deserialize : bytes → result AccountBlock.t;
  SnapshotBlock_Serialize : SnapshotBlock.t → result bytes;
  SnapshotBlock_Deserialize : bytes → result SnapshotBlock.t;
  snappy_Encode : bytes → bytes;
  snappy_Decode : bytes → result bytes;
  BlockTypeAccountBlock : byte;
  BlockTypeSnapshotBlock : byte;
}.

(** What a round trip relies on: decoding inverts encoding, and the two
    tags differ. *)
Class BlockCodecLaws (C : BlockCodec) : Prop := {
  snappy_Decode_Encode : ∀ buf, snappy_Decode (snappy_Encode buf) = Ok buf;
  AccountBlock_Deserialize_Serialize : ∀ ab buf,
    AccountBlock_Serialize ab = Ok buf → AccountBlock_Deserialize buf = Ok ab;
  SnapshotBlock_Deserialize_Serialize : ∀ sb buf,
    SnapshotBlock_Serialize sb = Ok buf → SnapshotBlock_Deserialize buf = Ok sb;
  BlockType_distinct : BlockTypeAccountBlock ≠ BlockTypeSnapshotBlock;
}.

Record BlockDB `{FileManager} : Type := mkBlockDB {
  fm : FM;
  fileSize : Z;
}.

Definition set_fm `{FileManager} (fm' : FM) (bDB : BlockDB) : BlockDB :=
  {| fm := fm'; fileSize := fileSize bDB |}.

(** Modelled from the spec: [makeWriteBytes] is missing from the sources.
    "Record format: [type: 1 byte][compressed payload], compressed with a
    fast block-compression codec; the Location & Segment Store is
    responsible for length framing." *)
Definition makeWriteBytes `{BlockCodec} (blockType : byte) (data : bytes)
  : bytes :=
  blockType :: snappy_Encode data.

(** *** [BlockDB.Write] (block_db.go, 80-110) *)

(** The loop over [ss.AccountBlocks]. *)
Fixpoint writeAccountBlocks `{FileManager, BlockCodec}
  (accountBlocks : list AccountBlock.t)
  (accountBlocksLocation : gmap types.Hash Location) (fm0 : FM)
  : result (gmap types.Hash Location) * FM :=
  match accountBlocks with
  | [] => (Ok accountBlocksLocation, fm0)
  | accountBlock :: rest =>
      match AccountBlock_Serialize accountBlock with
      | Err err =>
          (Err (Errorf "ss.AccountBlocks.Serialize failed, error is %s, accountBlock is %+v" err),
           fm0)
      | Ok buf =>
          match fm_Write (makeWriteBytes BlockTypeAccountBlock buf) fm0 with
          | (Err err, fm1) =>
              (Err (Errorf "bDB.fm.Write failed, error is %s, accountBlock is %+v" err),
               fm1)
          | (Ok location, fm1) =>
              writeAccountBlocks rest
                (<[AccountBlock.Hash accountBlock := location]>
                   accountBlocksLocation) fm1
          end
      end
  end.

(** [None] is the nil dereference of [ss.SnapshotBlock]. *)
Definition Write `{FileManager, BlockCodec} (ss : SnapshotChunk.t)
  (bDB : BlockDB)
  : option (result (gmap types.Hash Location * Location) * BlockDB) :=
  match writeAccountBlocks (SnapshotChunk.AccountBlocks ss) ∅ (fm bDB) with
  | (Err err, fm1) => Some (Err err, set_fm fm1 bDB)
  | (Ok accountBlocksLocation, fm1) =>
      snapshotBlock ← SnapshotChunk.SnapshotBlock ss;
      match SnapshotBlock_Serialize snapshotBlock with
      | Err err =>
          Some (Err (Errorf "ss.SnapshotBlock.Serialize failed, error is %s, snapshotBlock is %+v" err),
                set_fm fm1 bDB)
      | Ok buf =>
          match fm_Write (makeWriteBytes BlockTypeSnapshotBlock buf) fm1 with
          | (Err err, fm2) =>
              Some (Err (Errorf "bDB.fm.Write failed, error is %s, snapshotBlock is %+v" err),
                    set_fm fm2 bDB)
          | (Ok snapshotBlockLocation, fm2) =>
              Some (Ok (accountBlocksLocation, snapshotBlockLocation),
                    set_fm fm2 bDB)
          end
      end
  end.

(** *** [BlockDB.ReadUnit] (block_db.go, 147-174)

    The result is the snapshot block or the account block read (at most one
    of the two) and the next location. *)
Definition ReadUnit `{FileManager, BlockCodec} (location : Location)
  (bDB : BlockDB)
  : result (option SnapshotBlock.t * option AccountBlock.t * Location) :=
  '(buf, nextLocation) ← fm_Read location (fm bDB);
  match buf with
  | [] => Ok (None, None, nextLocation)
  | blockType :: payload =>
      sBuf ← snappy_Decode payload;
      if decide (blockType = BlockTypeSnapshotBlock) then
        sb ← SnapshotBlock_Deserialize sBuf;
        Ok (Some sb, None, nextLocation)
      else if decide (blockType = BlockTypeAccountBlock) then
        ab ← AccountBlock_Deserialize sBuf;
        Ok (None, Some ab, nextLocation)
      else Ok (None, None, nextLocation)
  end.

(** Reading [n] records in sequence with [ReadUnit], each read starting at
    the location the previous one returned. *)
Fixpoint ReadUnits `{FileManager, BlockCodec} (n : nat) (location : Location)
  (bDB : BlockDB)
  : result (list (option SnapshotBlock.t * option AccountBlock.t)) :=
  match n with
  | O => Ok []
  | S n' =>
      match ReadUnit location bDB with
      | Err err => Err err
      | Ok (sb, ab, nextLocation) =>
          match ReadUnits n' nextLocation bDB with
          | Err err => Err err
          | Ok units => Ok ((sb, ab) :: units)
          end
      end
  end.

(** Writing chunks one after the other with [Write]. *)
Fixpoint WriteChunks `{FileManager, BlockCodec} (chunks : list SnapshotChunk.t)
  (bDB : BlockDB)
  : option (result (list (gmap types.Hash Location * Location)) * BlockDB) :=
  match chunks with
  | [] => Some (Ok [], bDB)
  | ss :: rest =>
      match Write ss bDB with
      | None => None
      | Some (Err err, bDB1) => Some (Err err, bDB1)
      | Some (Ok locations, bDB1) =>
          match WriteChunks rest bDB1 with
          | None => None
          | Some (Err err, bDB2) => Some (Err err, bDB2)
          | Some (Ok more, bDB2) => Some (Ok (locations :: more), bDB2)
          end
      end
  end.

(** The records a chunk is written as, in order: the blocks as the reader
    returns them. *)
Definition chunkUnits (ss : SnapshotChunk.t)
  : list (option SnapshotBlock.t * option AccountBlock.t) :=
  map (fun ab => (None, Some ab)) (SnapshotChunk.AccountBlocks ss)
  ++ [(SnapshotChunk.SnapshotBlock ss, None)].

(** The sequence of appends [fm.Write] is asked for, with the locations it
    returns. *)
Fixpoint fm_WriteAll `{FileManager} (bufs : list bytes) (fm0 : FM)
  : result (list Location) * FM :=
  match bufs with
  | [] => (Ok [], fm0)
  | buf :: rest =>
      match fm_Write buf fm0 with
      | (Err err, fm1) => (Err err, fm1)
      | (Ok location, fm1) =>
          match fm_WriteAll rest fm1 with
          | (Err err, fm2) => (Err err, fm2)
          | (Ok locations, fm2) => (Ok (location :: locations), fm2)
          end
      end
  end.

(** *** The consumer loops of [BlockDB.ReadRange] (block_db.go, 229-271)
    and [BlockDB.PrepareRollback] (295-339)

    The producer (a goroutine around [fm.ReadRange] and the block file
    parser, both missing from the sources) is seen through what it
    delivers: the buffers the iterator yields, in order, and the terminal
    error [bfp.Error()]. *)
Record parsedBuffer : Type := mkParsedBuffer {
  BlockType : byte;
  Buffer : bytes;
}.

(** The loop [for buf := range iterator], with the same text in both
    functions; the state is [segList] and [seg]. *)
Fixpoint collectChunks `{BlockCodec} (bufs : list parsedBuffer)
  (segList : list SnapshotChunk.t) (seg : option SnapshotChunk.t)
  : result (list SnapshotChunk.t * option SnapshotChunk.t) :=
  match bufs with
  | [] => Ok (segList, seg)
  | buf :: rest =>
      let seg := default (SnapshotChunk.mk None []) seg in
      match snappy_Decode (Buffer buf) with
      | Err err => Err err
      | Ok sBuf =>
          if decide (BlockType buf = BlockTypeSnapshotBlock) then
            match SnapshotBlock_Deserialize sBuf with
            | Err err => Err err
            | Ok sb =>
                let seg := SnapshotChunk.mk (Some sb)
                             (SnapshotChunk.AccountBlocks seg) in
                collectChunks rest (segList ++ [seg]) None
            end
          else if decide (BlockType buf = BlockTypeAccountBlock) then
            match AccountBlock_Deserialize sBuf with
            | Err err => Err err
            | Ok ab =>
                let seg := SnapshotChunk.mk (SnapshotChunk.SnapshotBlock seg)
                             (SnapshotChunk.AccountBlocks seg ++ [ab]) in
                collectChunks rest segList (Some seg)
            end
          else collectChunks rest segList (Some seg)
      end
  end.

Definition ReadRange `{BlockCodec} (bufs : list parsedBuffer)
  (bfpError : option error) : result (list SnapshotChunk.t) :=
  '(segList, seg) ← collectChunks bufs [] None;
  match bfpError with
  | Some err => Err err
  | None =>
      match seg with
      | Some seg => Ok (segList ++ [seg])
      | None => Ok segList
      end
  end.

Definition PrepareRollback `{BlockCodec} (bufs : list parsedBuffer)
  (bfpError : option error) : result (list SnapshotChunk.t) :=
  '(segList, seg) ← collectChunks bufs [] None;
  let segList :=
    match seg with
    | Some seg => segList ++ [seg]
    | None => segList
    end in
  match bfpError with
  | Some err => Err err
  | None => Ok segList
  end.

(** The record a unit is written as: the tag of its kind followed by the
    compressed serialisation of the block. *)
Definition unitRecord `{BlockCodec}
  (unit : option SnapshotBlock.t * option AccountBlock.t) (record : bytes)
  : Prop :=
  match unit with
  | (Some sb, None) =>
      ∃ buf, SnapshotBlock_Serialize sb = Ok buf
             ∧ record = makeWriteBytes BlockTypeSnapshotBlock buf
  | (None, Some ab) =>
      ∃ buf, AccountBlock_Serialize ab = Ok buf
             ∧ record = makeWriteBytes BlockTypeAccountBlock buf
  | _ => False
  end.

(** Reading in sequence from [location] finds the records [bufs], one
    after the other, and ends at the write head. *)
Fixpoint readsFrom `{FileManager} (fm0 : FM) (location : Location)
  (bufs : list bytes) : Prop :=
  match bufs with
  | [] => location = fm_LatestLocation fm0
  | buf :: rest =>
      ∃ next, fm_Read location fm0 = Ok (buf, next) ∧ readsFrom fm0 next rest
  end.

(** The location of the first record of a chunk, from what [Write]
    returns for it. *)
Definition firstLocation (ss : SnapshotChunk.t)
  (locations : gmap types.Hash Location * Location) : option Location :=
  match SnapshotChunk.AccountBlocks ss with
  | [] => Some locations.2
  | accountBlock :: _ => locations.1 !! AccountBlock.Hash accountBlock
  end.

(** A buffer of the iterator that holds an account block. *)
Definition accountBuffer `{BlockCodec} (buf : parsedBuffer)
  (ab : AccountBlock.t) : Prop :=
  BlockType buf = BlockTypeAccountBlock
  ∧ ∃ sBuf, snappy_Decode (Buffer buf) = Ok sBuf
            ∧ AccountBlock_Deserialize sBuf = Ok ab.

(** *** [BlockDB.Read] (block_db.go, 112-126) and [BlockDB.ReadUnitBytes]
    (132-145)

    The decompressed payload of the record at a location; a nil slice is
    the empty list. *)
Definition Read `{FileManager, BlockCodec} (location : Location)
  (bDB : BlockDB) : result bytes :=
  '(buf, _) ← fm_Read location (fm bDB);
  match buf with
  | [] => Ok []
  | _ :: payload =>
      sBuf ← snappy_Decode payload;
      Ok sBuf
  end.

Definition ReadUnitBytes `{FileManager, BlockCodec} (location : Location)
  (bDB : BlockDB) : result (bytes * Location) :=
  '(buf, nextLocation) ← fm_Read location (fm bDB);
  match buf with
  | [] => Ok ([], nextLocation)
  | _ :: payload =>
      sBuf ← snappy_Decode payload;
      Ok (sBuf, nextLocation)
  end.

(** *** [BlockDB.ReadChunk] (block_db.go, 176-199)

    The loop [for { ... }] has no bound of its own: it ends at the first
    record that is not an account block, or at an error of [ReadUnit].
    [fuel] bounds the number of records read; [None] is the loop still
    running when the fuel is spent. *)
Fixpoint ReadChunk_loop `{FileManager, BlockCodec} (fuel : nat)
  (location : Location) (accBlocks : list AccountBlock.t) (bDB : BlockDB)
  : option (result (SnapshotChunk.t * Location)) :=
  match fuel with
  | O => None
  | S fuel' =>
      match ReadUnit location bDB with
      | Err err => Some (Err err)
      | Ok (sb, ab, next) =>
          match ab with
          | Some ab => ReadChunk_loop fuel' next (accBlocks ++ [ab]) bDB
          | None =>
              match sb with
              | Some sb =>
                  Some (Ok ({| SnapshotChunk.SnapshotBlock := Some sb;
                               SnapshotChunk.AccountBlocks := accBlocks |},
                            next))
              | None => Some (Err (errorNew "not a chunk"))
              end
          end
      end
  end.

Definition ReadChunk `{FileManager, BlockCodec} (fuel : nat)
  (location : Location) (bDB : BlockDB)
  : option (result (SnapshotChunk.t * Location)) :=
  ReadChunk_loop fuel location [] bDB.

(** Reading [n] chunks in sequence with [ReadChunk], each read starting at
    the location the previous one returned; the result is the chunks and
    the location after the last of them. *)
Fixpoint ReadChunks `{FileManager, BlockCodec} (fuel n : nat)
  (location : Location) (bDB : BlockDB)
  : option (result (list SnapshotChunk.t * Location)) :=
  match n with
  | O => Some (Ok ([], location))
  | S n' =>
      match ReadChunk fuel location bDB with
      | None => None
      | Some (Err err) => Some (Err err)
      | Some (Ok (chunk, next)) =>
          match ReadChunks fuel n' next bDB with
          | None => None
          | Some (Err err) => Some (Err err)
          | Some (Ok (chunks, last)) => Some (Ok (chunk :: chunks, last))
          end
      end
  end.

(** *** [BlockDB.maxLocation] (block_db.go, 355-362)

    [Location.Compare] belongs to the file manager package, which is not
    among the sources: it is an interface here, negative, zero or positive
    as the receiver is before, at or after its argument. *)
Class LocationOrder : Type := {
  Compare : Location → Location → Z;
}.

(** What the clamping relies on: a location is not after itself, and of
    two locations one of which is after the other, the other is not after
    the one. *)
Class LocationOrderLaws (O : LocationOrder) : Prop := {
  Compare_refl : ∀ l, Compare l l = 0%Z;
  Compare_asym : ∀ a b, (Compare a b > 0)%Z → (Compare b a < 0)%Z;
}.

(** [latestLocation] is what [bDB.fm.LatestLocation()] returns, [None]
    for nil. *)
Definition maxLocation `{LocationOrder} (latestLocation : option Location)
  (location : option Location) : option Location :=
  match location with
  | None => latestLocation
  | Some loc =>
      match latestLocation with
      | Some latest =>
          if decide (Compare loc latest > 0)%Z then latestLocation
          else location
      | None => location
      end
  end.

(** A buffer of the iterator that holds the record of a unit. *)
Definition unitBuffer `{BlockCodec}
  (unit : option SnapshotBlock.t * option AccountBlock.t)
  (buf : parsedBuffer) : Prop :=
  match unit with
  | (Some sb, None) =>
      BlockType buf = BlockTypeSnapshotBlock
      ∧ ∃ sBuf, snappy_Decode (Buffer buf) = Ok sBuf
                ∧ SnapshotBlock_Deserialize sBuf = Ok sb
  | (None, Some ab) => accountBuffer buf ab
  | _ => False
  end.

(** A buffer the consumer loop returns an error at: its payload does not
    decompress, or the block its tag announces does not deserialise. *)
Definition bufferFails `{BlockCodec} (buf : parsedBuffer) (err : error)
  : Prop :=
  snappy_Decode (Buffer buf) = Err err
  ∨ ∃ sBuf,
      snappy_Decode (Buffer buf) = Ok sBuf
      ∧ ((BlockType buf = BlockTypeSnapshotBlock
          ∧ SnapshotBlock_Deserialize sBuf = Err err)
         ∨ (BlockType buf ≠ BlockTypeSnapshotBlock
            ∧ BlockType buf = BlockTypeAccountBlock
            ∧ AccountBlock_Deserialize sBuf = Err err)).

End ChainBlock.

(** ** Reference instances of the interfaces

    Small implementations of the interfaces above, on which the properties
    below are instantiated. *)
Module Reference.

(** [bs] cut or zero-padded to [n] bytes. *)
Definition fixWidth (n : nat) (bs : bytes) : bytes :=
  take n (bs ++ replicate n x00).

(** Keys are a prefix byte followed by their fields; a contract-meta record
    starts with the group id on [GidSize] bytes. *)
Definition utils : ChainState.ChainUtils :=
  {| ChainState.CreateStorageValueKey := fun addr key => x01 :: addr ++ key;
     ChainState.CreateBalanceKey := fun addr tokenTypeId => x02 :: addr ++ tokenTypeId;
     ChainState.CreateCodeKey := fun addr => x03 :: addr;
     ChainState.CreateContractMetaKey := fun addr => x04 :: addr;
     ChainState.CreateGidContractKey := fun gid addr => x05 :: addr ++ fixWidth 10 gid;
     ChainState.CreateVmLogListKey := fun hash => x06 :: hash;
     ChainState.CreateCallDepthKey := fun hash => x07 :: hash;
     ChainState.GidContractKeyPrefix := x05;
     ChainState.StorageRealKeyConstruct := fun key => key;
     ChainState.HistoryStorageValueKeyBytes := fun key =>
       x08 :: fixWidth 21 (ChainState.hsv_Address key)
           ++ ChainState.hsv_Key key
           ++ bigIntBytes (Z.of_N (ChainState.hsv_Height key));
     ChainState.HistoryBalanceKeyBytes := fun key =>
       x09 :: fixWidth 21 (ChainState.hb_Address key)
           ++ ChainState.hb_TokenId key
           ++ bigIntBytes (Z.of_N (ChainState.hb_Height key));
     ChainState.AddressSize := 21;
     ChainState.GidSize := 10;
     ChainState.TokenTypeIdSize := 10;
     ChainState.BytesToAddress := fun bs =>
       if decide (length bs = 21) then Ok bs
       else Err (errorNew "error address size");
     ChainState.ContractMetaSerialize := fun meta =>
       fixWidth 10 (ContractMeta.Gid meta)
       ++ ContractMeta.CreateBlockHash meta ++ ContractMeta.Rest meta;
     ChainState.VmLogListSerialize := fun logs => Ok (concat (map snd logs));
     ChainState.IsReceiveBlock := fun ab =>
       bool_decide (AccountBlock.BlockType ab = x04);
     ChainState.contractAddrPrefix := [x61];
     ChainState.balancePrefix := [x62];
     ChainState.snapshotValuePrefix := [x63];
     ChainState.shouldCacheContractData := fun _ => true;
     ChainState.parseStorageKey := drop 22 |}.

(** Modelled from the spec: the redo log manager is not among the sources.
    [addLog] "appends to the in-memory buffer keyed by the current
    (not-yet-confirmed) height"; [insertSnapshotBlock] "begins tracking the
    next height"; [queryLog(height)] returns the items buffered for the
    height and whether there are any. *)
Record Redo : Type := mkRedo {
  currentSnapshotHeight : N;
  snapshotLogMap : gmap N ChainState.SnapshotLog;
}.

Definition Redo_AddLog (addr : types.Address) (redoLog : ChainState.LogItem)
  (r : Redo) : Redo :=
  let current := default ∅ (snapshotLogMap r !! currentSnapshotHeight r) in
  let items := default [] (current !! addr) in
  {| currentSnapshotHeight := currentSnapshotHeight r;
     snapshotLogMap :=
       <[currentSnapshotHeight r := <[addr := items ++ [redoLog]]> current]>
         (snapshotLogMap r) |}.

Definition Redo_InsertSnapshotBlock (snapshotBlock : SnapshotBlock.t)
  (confirmedBlocks : list AccountBlock.t) (r : Redo) : Redo :=
  {| currentSnapshotHeight := SnapshotBlock.Height snapshotBlock + 1;
     snapshotLogMap := snapshotLogMap r |}.

Definition Redo_QueryLog (height : N) (r : Redo)
  : result (ChainState.SnapshotLog * bool) :=
  Ok (default ∅ (snapshotLogMap r !! height),
      bool_decide (is_Some (snapshotLogMap r !! height))).

(** The staged store of [ChainDB] receives every batch in its pending
    buffer (spec, 4.5: "all writes land in the Staged KV Store's pending
    buffer via write"); the round cache keeps what it is told. *)
Definition collaborators : ChainState.Collaborators :=
  {| ChainState.StoreT := ChainDB.Store;
     ChainState.store_WriteAccountBlock := fun batch _ => ChainDB.WriteDirectly batch;
     ChainState.store_WriteAccountBlockByHash := fun batch _ => ChainDB.WriteDirectly batch;
     ChainState.store_WriteSnapshot := fun batch _ => ChainDB.WriteDirectly batch;
     ChainState.RedoT := Redo;
     ChainState.redo_AddLog := Redo_AddLog;
     ChainState.redo_InsertSnapshotBlock := Redo_InsertSnapshotBlock;
     ChainState.redo_QueryLog := Redo_QueryLog;
     ChainState.RoundCacheT := list (SnapshotBlock.t * ChainState.SnapshotLog);
     ChainState.roundCache_InsertSnapshotBlock := fun sb log rc => rc ++ [(sb, log)] |}.

Definition emptyStateDB : @ChainState.StateDB collaborators :=
  @ChainState.mkStateDB collaborators
    (ChainDB.NewStore ∅)
    {| currentSnapshotHeight := 1; snapshotLogMap := ∅ |}
    [] ∅ true ∅.

(** A receive block of a contract with two send blocks, and the deltas its
    execution left in the provider. *)
Definition demoAddress : types.Address := replicate 21 x41.
Definition demoToken : types.TokenTypeId := replicate 10 x54.
Definition demoHash (b : byte) : types.Hash := replicate 32 b.

Definition demoSend (b : byte) : AccountBlock.t :=
  AccountBlock.mk x02 (demoHash b) 0 demoAddress [] None [] [].

Definition demoAccountBlock : AccountBlock.t :=
  AccountBlock.mk x04 (demoHash x42) 7 demoAddress (demoHash x46)
    (Some (demoHash x4c)) [demoSend x31; demoSend x32] [].

Definition demoVmDb : VmDb.t :=
  {| VmDb.CanWrite := true;
     VmDb.GetUnsavedStorage := [([x6b], [x76]); ([x6c], [])];
     VmDb.GetUnsavedBalanceMap := {[ demoToken := 100%Z ]};
     VmDb.GetUnsavedContractCode := Some [x60];
     VmDb.GetUnsavedContractMeta :=
       {[ replicate 21 x43 := ContractMeta.mk (replicate 10 x47) [] [x05] ]};
     VmDb.GetLogList := [([demoHash x74], [x64])];
     VmDb.GetCallDepth := fun _ => Ok 3%N |}.

Definition demoBlock : VmAccountBlock.t :=
  {| VmAccountBlock.AccountBlock := demoAccountBlock;
     VmAccountBlock.VmDb := demoVmDb |}.

(** What [Write] assembles for it on the empty state. *)
Definition demoWritten : result (Batch * ChainState.LogItem) * ChainState.Cache :=
  @ChainState.Write_body utils collaborators demoBlock emptyStateDB.

Definition demoBatch : Batch :=
  match demoWritten.1 with Ok r => r.1 | Err _ => [] end.

Definition demoRedoLog : ChainState.LogItem :=
  match demoWritten.1 with
  | Ok r => r.2
  | Err _ => ChainState.mkLogItem [] ∅ None ∅ ∅ ∅ 0
  end.

(** The same block when the provider cannot tell the call depth. *)
Definition demoBlockNoDepth : VmAccountBlock.t :=
  {| VmAccountBlock.AccountBlock := demoAccountBlock;
     VmAccountBlock.VmDb :=
       {| VmDb.CanWrite := true;
          VmDb.GetUnsavedStorage := [];
          VmDb.GetUnsavedBalanceMap := {[ demoToken := 100%Z ]};
          VmDb.GetUnsavedContractCode := None;
          VmDb.GetUnsavedContractMeta := ∅;
          VmDb.GetLogList := [];
          VmDb.GetCallDepth := fun _ => Err (errorNew "not found") |} |}.

(** A block whose provider holds an empty, non-nil contract code. *)
Definition demoBlockEmptyCode : VmAccountBlock.t :=
  {| VmAccountBlock.AccountBlock :=
       AccountBlock.mk x02 (demoHash x42) 7 demoAddress [] None [] [];
     VmAccountBlock.VmDb :=
       {| VmDb.CanWrite := true;
          VmDb.GetUnsavedStorage := [];
          VmDb.GetUnsavedBalanceMap := ∅;
          VmDb.GetUnsavedContractCode := Some [];
          VmDb.GetUnsavedContractMeta := ∅;
          VmDb.GetLogList := [];
          VmDb.GetCallDepth := fun _ => Ok 0%N |} |}.

Definition demoEmptyCodeWritten
  : result (Batch * ChainState.LogItem) * ChainState.Cache :=
  @ChainState.Write_body utils collaborators demoBlockEmptyCode emptyStateDB.

Definition demoEmptyCodeBatch : Batch :=
  match demoEmptyCodeWritten.1 with Ok r => r.1 | Err _ => [] end.

Definition demoEmptyCodeRedoLog : ChainState.LogItem :=
  match demoEmptyCodeWritten.1 with
  | Ok r => r.2
  | Err _ => ChainState.mkLogItem [] ∅ None ∅ ∅ ∅ 0
  end.

(** The redo items of two account blocks of one address that write the
    same storage key and the same token balance, and a state whose redo
    manager buffers them for height 5. *)
Definition demoItem1 : ChainState.LogItem :=
  {| ChainState.Storage := [([x6b], [x01])];
     ChainState.BalanceMap := {[ demoToken := 100%Z ]};
     ChainState.Code := None;
     ChainState.ContractMeta := ∅;
     ChainState.VmLogList := ∅;
     ChainState.CallDepth := ∅;
     ChainState.Height := 3 |}.

Definition demoItem2 : ChainState.LogItem :=
  {| ChainState.Storage := [([x6b], [x02])];
     ChainState.BalanceMap := {[ demoToken := 80%Z ]};
     ChainState.Code := None;
     ChainState.ContractMeta := ∅;
     ChainState.VmLogList := ∅;
     ChainState.CallDepth := ∅;
     ChainState.Height := 4 |}.

Definition demoSnapshotLog : ChainState.SnapshotLog :=
  {[ demoAddress := [demoItem1; demoItem2] ]}.

Definition demoSnapshotBlock : SnapshotBlock.t :=
  SnapshotBlock.mk (demoHash x53) 5 [].

Definition demoStateDB : @ChainState.StateDB collaborators :=
  @ChainState.mkStateDB collaborators
    (ChainDB.NewStore ∅)
    {| currentSnapshotHeight := 5;
       snapshotLogMap := {[ 5%N := demoSnapshotLog ]} |}
    [] ∅ false ∅.

(** A file manager that keeps the records in a list, one segment, the
    offset of a record being its index. *)
Definition fileManager : ChainBlock.FileManager :=
  {| ChainBlock.FM := list bytes;
     ChainBlock.fm_Write := fun buf records =>
       (Ok {| ChainBlock.FileId := 1;
              ChainBlock.Offset := Z.of_nat (length records) |},
        records ++ [buf]);
     ChainBlock.fm_Read := fun location records =>
       match records !! Z.to_nat (ChainBlock.Offset location) with
       | Some buf =>
           Ok (buf, {| ChainBlock.FileId := 1;
                       ChainBlock.Offset :=
                         Z.of_nat (S (Z.to_nat (ChainBlock.Offset location))) |})
       | None => Err (errorNew "EOF")
       end;
     ChainBlock.fm_LatestLocation := fun records =>
       {| ChainBlock.FileId := 1;
          ChainBlock.Offset := Z.of_nat (length records) |} |}.

(** A block codec for the blocks that carry nothing but their hash, with
    no compression. *)
Definition hashOnlyAccountBlock (hash : types.Hash) : AccountBlock.t :=
  AccountBlock.mk x02 hash 0 [] [] None [] [].

Definition hashOnlySnapshotBlock (hash : types.Hash) : SnapshotBlock.t :=
  SnapshotBlock.mk hash 0 [].

Definition blockCodec : ChainBlock.BlockCodec :=
  {| ChainBlock.AccountBlock_Serialize := fun ab =>
       match ab with
       | AccountBlock.mk blockType hash height addr from None [] [] =>
           if decide (blockType = x02 ∧ height = 0%N ∧ addr = [] ∧ from = [])
           then Ok hash
           else Err (errorNew "unsupported block")
       | _ => Err (errorNew "unsupported block")
       end;
     ChainBlock.AccountBlock_Deserialize := fun buf =>
       Ok (hashOnlyAccountBlock buf);
     ChainBlock.SnapshotBlock_Serialize := fun sb =>
       match sb with
       | SnapshotBlock.mk hash height [] =>
           if decide (height = 0%N) then Ok hash
           else Err (errorNew "unsupported block")
       | _ => Err (errorNew "unsupported block")
       end;
     ChainBlock.SnapshotBlock_Deserialize := fun buf =>
       Ok (hashOnlySnapshotBlock buf);
     ChainBlock.snappy_Encode := fun buf => buf;
     ChainBlock.snappy_Decode := fun buf => Ok buf;
     ChainBlock.BlockTypeAccountBlock := x01;
     ChainBlock.BlockTypeSnapshotBlock := x02 |}.

(** Two chunks of hash-only blocks, an empty block log, and what writing
    the first chunk returns. *)
Definition demoChunk1 : SnapshotChunk.t :=
  SnapshotChunk.mk (Some (hashOnlySnapshotBlock [x53; x31]))
    [hashOnlyAccountBlock [x61]; hashOnlyAccountBlock [x62]].

Definition demoChunk2 : SnapshotChunk.t :=
  SnapshotChunk.mk (Some (hashOnlySnapshotBlock [x53; x32]))
    [hashOnlyAccountBlock [x63]].

Definition demoBlockDB : @ChainBlock.BlockDB fileManager :=
  @ChainBlock.mkBlockDB fileManager [] (10 * 1024 * 1024).

Definition demoWrite
  : option (result (gmap types.Hash ChainBlock.Location * ChainBlock.Location)
            * @ChainBlock.BlockDB fileManager) :=
  @ChainBlock.Write fileManager blockCodec demoChunk1 demoBlockDB.

Definition demoWriteChunks
  : option (result (list (gmap types.Hash ChainBlock.Location
                          * ChainBlock.Location))
            * @ChainBlock.BlockDB fileManager) :=
  @ChainBlock.WriteChunks fileManager blockCodec [demoChunk1; demoChunk2]
    demoBlockDB.

(** What the iterator delivers for a log that ends in the middle of a
    chunk: a whole chunk, then one account block. *)
Definition demoScanned : list ChainBlock.parsedBuffer :=
  [ChainBlock.mkParsedBuffer x01 [x61];
   ChainBlock.mkParsedBuffer x02 [x53; x31]].

Definition demoTrailing : list ChainBlock.parsedBuffer :=
  [ChainBlock.mkParsedBuffer x01 [x63]; ChainBlock.mkParsedBuffer x01 [x64]].

(** The block log that holds the records of the first chunk. *)
Definition demoWrittenDB : @ChainBlock.BlockDB fileManager :=
  @ChainBlock.mkBlockDB fileManager
    [[x01; x61]; [x01; x62]; [x02; x53; x31]] (10 * 1024 * 1024).

(** An account block the codec has no encoding for, and a chunk that holds
    it between two blocks it can encode. *)
Definition demoBadBlock : AccountBlock.t :=
  AccountBlock.mk x02 [x62] 1 [] [] None [] [].

Definition demoBadChunk : SnapshotChunk.t :=
  SnapshotChunk.mk (Some (hashOnlySnapshotBlock [x53; x31]))
    [hashOnlyAccountBlock [x61]; demoBadBlock; hashOnlyAccountBlock [x63]].

(** The buffers of the records of the two chunks. *)
Definition demoBuffers : list ChainBlock.parsedBuffer :=
  [ChainBlock.mkParsedBuffer x01 [x61];
   ChainBlock.mkParsedBuffer x01 [x62];
   ChainBlock.mkParsedBuffer x02 [x53; x31];
   ChainBlock.mkParsedBuffer x01 [x63];
   ChainBlock.mkParsedBuffer x02 [x53; x32]].

(** Locations ordered by file, then by offset. *)
Definition locationOrder : ChainBlock.LocationOrder :=
  {| ChainBlock.Compare := fun a b =>
       match (ChainBlock.FileId a ?= ChainBlock.FileId b)%N with
       | Lt => (-1)%Z
       | Gt => 1%Z
       | Eq =>
           match (ChainBlock.Offset a ?= ChainBlock.Offset b)%Z with
           | Lt => (-1)%Z
           | Gt => 1%Z
           | Eq => 0%Z
           end
       end |}.

(** A redo item that records the meta of one contract: a group id on ten
    bytes, the hash of the creating block, one more byte. *)
Definition demoMetaItem : ChainState.LogItem :=
  {| ChainState.Storage := [];
     ChainState.BalanceMap := ∅;
     ChainState.Code := None;
     ChainState.ContractMeta :=
       {[ replicate 21 x43 := replicate 10 x47 ++ demoHash x42 ++ [x05] ]};
     ChainState.VmLogList := ∅;
     ChainState.CallDepth := ∅;
     ChainState.Height := 7 |}.

(** A state whose read cache holds a balance. *)
Definition demoCachedStateDB : @ChainState.StateDB collaborators :=
  @ChainState.mkStateDB collaborators
    (ChainDB.NewStore ∅)
    {| currentSnapshotHeight := 1; snapshotLogMap := ∅ |}
    [] {[ [x62; x6b] := [x07] ]} true ∅.

(** Collaborators whose redo manager cannot be queried. *)
Definition closedRedoCollaborators : ChainState.Collaborators :=
  {| ChainState.StoreT := ChainDB.Store;
     ChainState.store_WriteAccountBlock := fun batch _ => ChainDB.WriteDirectly batch;
     ChainState.store_WriteAccountBlockByHash := fun batch _ => ChainDB.WriteDirectly batch;
     ChainState.store_WriteSnapshot := fun batch _ => ChainDB.WriteDirectly batch;
     ChainState.RedoT := Redo;
     ChainState.redo_AddLog := Redo_AddLog;
     ChainState.redo_InsertSnapshotBlock := Redo_InsertSnapshotBlock;
     ChainState.redo_QueryLog := fun _ _ => Err (errorNew "leveldb: closed");
     ChainState.RoundCacheT := list (SnapshotBlock.t * ChainState.SnapshotLog);
     ChainState.roundCache_InsertSnapshotBlock := fun sb log rc => rc ++ [(sb, log)] |}.

Definition closedRedoStateDB : @ChainState.StateDB closedRedoCollaborators :=
  @ChainState.mkStateDB closedRedoCollaborators
    (ChainDB.NewStore ∅)
    {| currentSnapshotHeight := 5; snapshotLogMap := ∅ |}
    [] ∅ false ∅.

End Reference.

(** * Properties *)

(** ** The engine *)

Lemma applyBatch_app (b1 b2 : Batch) (db : Engine) :
  applyBatch (b1 ++ b2) db = applyBatch b2 (applyBatch b1 db).
Proof. unfold applyBatch. apply foldl_app. Qed.

Lemma applyBatch_nil (db : Engine) : applyBatch [] db = db.
Proof. reflexivity. Qed.

Lemma lastOn_app (k : bytes) (b1 b2 : Batch) :
  lastOn k (b1 ++ b2) =
  match lastOn k b2 with Some op => Some op | None => lastOn k b1 end.
Proof.
  unfold lastOn. rewrite filter_app.
  destruct (filter _ b2) as [|op l] eqn:Hf using rev_ind.
  - by rewrite app_nil_r.
  - clear IHl. by rewrite app_assoc, !last_snoc.
Qed.

Lemma lastOn_singleton (k : bytes) (op : BatchOp) :
  lastOn k [op] = if decide (opKey op = k) then Some op else None.
Proof.
  unfold lastOn. rewrite filter_cons, filter_nil. by case_decide.
Qed.

Lemma lastOn_Some (k : bytes) (b : Batch) (op : BatchOp) :
  lastOn k b = Some op → op ∈ b ∧ opKey op = k.
Proof.
  unfold lastOn. intros Hlast.
  assert (op ∈ filter (fun op => opKey op = k) b) as Hin.
  { destruct (filter _ b) as [|x l] using rev_ind; [done|].
    rewrite last_snoc in Hlast. injection Hlast as ->.
    apply elem_of_app. right. by left. }
  by apply list_elem_of_filter in Hin as [? ?].
Qed.

Lemma lastOn_None (k : bytes) (b : Batch) :
  lastOn k b = None → ∀ op, op ∈ b → opKey op ≠ k.
Proof.
  unfold lastOn. intros Hlast op Hin Hk.
  assert (op ∈ filter (fun op => opKey op = k) b) as Hf
    by (by apply list_elem_of_filter).
  destruct (filter _ b) as [|x l] using rev_ind.
  - by apply not_elem_of_nil in Hf.
  - by rewrite last_snoc in Hlast.
Qed.

(** Replaying a batch leaves, for each key, what its last operation on the
    key says, and what the engine held for the keys it does not touch. *)
Lemma applyBatch_lookup (b : Batch) (db : Engine) (k : bytes) :
  applyBatch b db !! k = opResult (lastOn k b) (db !! k).
Proof.
  induction b as [|op b IH] using rev_ind; [done|].
  rewrite applyBatch_app, lastOn_app, lastOn_singleton.
  unfold applyBatch at 1. simpl.
  destruct op as [k' v|k']; simpl; case_decide as Hk; simpl.
  - subst. by rewrite lookup_insert_eq.
  - by rewrite lookup_insert_ne.
  - subst. by rewrite lookup_delete_eq.
  - by rewrite lookup_delete_ne.
Qed.

(** Replaying a batch a second time changes nothing. *)
Lemma applyBatch_twice (pending b : Batch) (db : Engine) :
  applyBatch (pending ++ b ++ b) db = applyBatch (pending ++ b) db.
Proof.
  apply map_eq. intros k. rewrite !applyBatch_lookup, !lastOn_app.
  by destruct (lastOn k b).
Qed.

(** Two batches with the same operations, none of them in conflict, after
    a common prefix, bring the engine to the same state. *)
Lemma applyBatch_same_ops (prefix b1 b2 : Batch) (db : Engine) :
  (∀ op, op ∈ b1 ↔ op ∈ b2) → conflictFree b1 →
  applyBatch (prefix ++ b1) db = applyBatch (prefix ++ b2) db.
Proof.
  intros Hsame Hfree. apply map_eq. intros k.
  rewrite !applyBatch_lookup, !lastOn_app.
  assert (∀ o1 o2, o1 ∈ b1 → o2 ∈ b1 → opKey o1 = opKey o2 → o1 = o2) as Huniq.
  { intros o1 o2 H1 H2. unfold conflictFree in Hfree.
    rewrite Forall_forall in Hfree. specialize (Hfree o1 H1).
    rewrite Forall_forall in Hfree. by apply Hfree. }
  destruct (lastOn k b1) as [o1|] eqn:H1, (lastOn k b2) as [o2|] eqn:H2.
  - apply lastOn_Some in H1 as [Hin1 Hk1], H2 as [Hin2 Hk2].
    apply Hsame in Hin2. by rewrite (Huniq o1 o2 Hin1 Hin2) by congruence.
  - apply lastOn_Some in H1 as [Hin1 Hk1]. apply Hsame in Hin1.
    by destruct (lastOn_None _ _ H2 _ Hin1).
  - apply lastOn_Some in H2 as [Hin2 Hk2]. apply Hsame in Hin2.
    by destruct (lastOn_None _ _ H1 _ Hin2).
  - done.
Qed.

(** ** The record codec *)

Lemma to_N_byte_of_N (n : N) : (n < 256)%N → Byte.to_N (byte_of_N n) = n.
Proof.
  intros Hn. unfold byte_of_N.
  destruct (Byte.of_N n) as [b|] eqn:Hb.
  - simpl. by apply Byte.to_of_N.
  - apply Byte.of_N_None_iff in Hb. lia.
Qed.

Lemma getUvarint_putUvarint (fuel : nat) (n : N) (rest : bytes) :
  N.to_nat n ≤ fuel →
  ChainDB.getUvarint (ChainDB.putUvarint fuel n ++ rest) = Some (n, rest).
Proof.
  revert n. induction fuel as [|fuel IH]; intros n Hn; simpl.
  - assert (n = 0%N) as -> by lia. reflexivity.
  - destruct (n <? 128)%N eqn:Hlt.
    + apply N.ltb_lt in Hlt. simpl.
      rewrite to_N_byte_of_N by lia.
      apply N.ltb_lt in Hlt. by rewrite Hlt.
    + apply N.ltb_ge in Hlt. simpl.
      assert (n mod 128 < 128)%N as Hmod by (apply N.mod_lt; lia).
      rewrite to_N_byte_of_N by lia.
      assert ((n mod 128 + 128 <? 128)%N = false) as ->
        by (apply N.ltb_ge; apply N.le_add_l).
      assert (n / 128 < n)%N as Hdiv by (apply N.div_lt; lia).
      rewrite IH by lia.
      f_equal. f_equal.
      rewrite N.add_sub, N.add_comm. symmetry. by apply N.div_mod.
Qed.

Lemma getBytes_putBytes (bs rest : bytes) :
  ChainDB.getBytes (ChainDB.putBytes bs ++ rest) = Some (bs, rest).
Proof.
  unfold ChainDB.getBytes, ChainDB.putBytes.
  rewrite <- app_assoc, getUvarint_putUvarint by lia.
  rewrite Nat2N.id.
  rewrite decide_True by (rewrite length_app; lia).
  by rewrite take_app_length, drop_app_length.
Qed.

Lemma recordLoad_recordDump (fuel : nat) (b : Batch) :
  length b ≤ fuel → ChainDB.recordLoad fuel (ChainDB.recordDump b) = Some b.
Proof.
  revert b. induction fuel as [|fuel IH]; intros b Hlen.
  - destruct b; [reflexivity | simpl in Hlen; lia].
  - destruct b as [|op b]; [reflexivity|].
    simpl in Hlen. unfold ChainDB.recordDump. simpl.
    fold (ChainDB.recordDump b).
    destruct op as [k v | k]; simpl.
    + rewrite <- app_assoc, getBytes_putBytes, getBytes_putBytes.
      by rewrite IH by lia.
    + rewrite getBytes_putBytes. by rewrite IH by lia.
Qed.

Lemma recordDump_length (b : Batch) : length b ≤ length (ChainDB.recordDump b).
Proof.
  induction b as [|op b IH]; [simpl; lia|].
  unfold ChainDB.recordDump in *. simpl. rewrite length_app.
  destruct op; simpl; lia.
Qed.

Lemma recordCodec_laws : ChainDB.BatchCodecLaws ChainDB.recordCodec.
Proof.
  constructor. intros b. simpl.
  apply recordLoad_recordDump, recordDump_length.
Qed.

(** ** The staged store *)

Section StagedStore.
Import ChainDB.
Context {C : BatchCodec}.

Lemma WriteAll_snapshotBatch (batches : list Batch) (s : Store) :
  WriteAll batches s =
  {| db := db s;
     snapshotBatch := snapshotBatch s ++ concat batches;
     flushingBatch := flushingBatch s |}.
Proof.
  revert s. induction batches as [|b bs IH]; intros s; simpl.
  - rewrite app_nil_r. by destruct s.
  - unfold WriteAll in *. simpl. rewrite IH. simpl. by rewrite app_assoc.
Qed.

(** C1. The bytes [RedoLog] returns for a store whose flushing buffer was
    prepared, replayed by [PatchRedoLog] on any store holding a copy of the
    engine state from before the commit, succeed and leave the engine in
    the state [Commit] leaves it in on the original store. *)
Theorem redo_log_replay_equals_commit (L : BatchCodecLaws C)
  (s fresh : Store) :
  db fresh = db s →
  ∃ fresh',
    PatchRedoLog (RedoLog s).1 fresh = (None, fresh')
    ∧ (Commit s).1 = None
    ∧ db fresh' = db (Commit s).2.
Proof.
  intros Hdb. unfold PatchRedoLog, RedoLog. simpl.
  rewrite Load_Dump. eexists. split; [reflexivity|].
  split; [reflexivity|]. simpl. by rewrite Hdb.
Qed.

(** C2. After any writes, [Prepare] followed by [CancelPrepare] (with any
    further writes in between, and no commit) leaves the store as the same
    writes leave it without [Prepare]: the flushing buffer is empty, the
    pending buffer holds all the buffered operations in order, and a
    following [Prepare] and [Commit] bring the engine to the state reached
    by preparing and committing one buffer with all the writes. *)
Theorem cancel_prepare_undoes_prepare (s : Store)
  (before between : list Batch) :
  flushingBatch s = [] →
  let cancelled :=
    CancelPrepare (WriteAll between (Prepare (WriteAll before s))) in
  cancelled = WriteAll (before ++ between) s
  ∧ flushingBatch cancelled = []
  ∧ snapshotBatch cancelled = snapshotBatch s ++ concat (before ++ between)
  ∧ db (Commit (Prepare cancelled)).2 =
    db (Commit (Prepare (WriteDirectly (concat (before ++ between)) s))).2
  ∧ db (Commit (Prepare cancelled)).2 =
    applyBatch (snapshotBatch s ++ concat (before ++ between)) (db s).
Proof.
  intros Hidle cancelled. subst cancelled.
  rewrite !WriteAll_snapshotBatch. unfold CancelPrepare, Prepare. simpl.
  rewrite Hidle, concat_app, !app_assoc. done.
Qed.

End StagedStore.

Lemma redo_log_replay_equals_commit_witness :
  let s := ChainDB.Prepare
             (ChainDB.WriteDirectly [OpPut [x6b] [x76]; OpDelete [x6c]]
                (ChainDB.NewStore {[ [x6c] := [x01] ]})) in
  let fresh := ChainDB.NewStore {[ [x6c] := [x01] ]} in
  ∃ fresh',
    @ChainDB.PatchRedoLog ChainDB.recordCodec
      (@ChainDB.RedoLog ChainDB.recordCodec s).1 fresh = (None, fresh')
    ∧ (ChainDB.Commit s).1 = None
    ∧ ChainDB.db fresh' = ChainDB.db (ChainDB.Commit s).2.
Proof.
  intros s fresh.
  apply (@redo_log_replay_equals_commit ChainDB.recordCodec recordCodec_laws
           s fresh).
  reflexivity.
Defined.

Lemma cancel_prepare_undoes_prepare_witness :
  let s := ChainDB.NewStore ∅ in
  let before := [[OpPut [x6b] [x76]]; [OpDelete [x6c]]] in
  let between := [[OpPut [x6c] [x01]]] in
  let cancelled :=
    ChainDB.CancelPrepare
      (ChainDB.WriteAll between (ChainDB.Prepare (ChainDB.WriteAll before s))) in
  cancelled = ChainDB.WriteAll (before ++ between) s
  ∧ ChainDB.flushingBatch cancelled = []
  ∧ ChainDB.snapshotBatch cancelled =
    ChainDB.snapshotBatch s ++ concat (before ++ between)
  ∧ ChainDB.db (ChainDB.Commit (ChainDB.Prepare cancelled)).2 =
    ChainDB.db (ChainDB.Commit (ChainDB.Prepare
      (ChainDB.WriteDirectly (concat (before ++ between)) s))).2
  ∧ ChainDB.db (ChainDB.Commit (ChainDB.Prepare cancelled)).2 =
    applyBatch (ChainDB.snapshotBatch s ++ concat (before ++ between))
      (ChainDB.db s).
Proof.
  intros s before between.
  apply (cancel_prepare_undoes_prepare s before between).
  reflexivity.
Defined.

(** ** The state writer *)

Section StateWriter.
Import ChainState.
Context {U : ChainUtils} {K : Collaborators}.

Lemma StateDB_eta (sDB : StateDB) :
  {| store := store sDB; redo := redo sDB; roundCache := roundCache sDB;
     cache := cache sDB; vmLogAll := vmLogAll sDB;
     vmLogWhiteListSet := vmLogWhiteListSet sDB |} = sDB.
Proof. by destruct sDB. Qed.

(** The logging policy: the global flag, or membership in the white list. *)
Lemma canWriteVmLog_spec (sDB : StateDB) (addr : types.Address) :
  canWriteVmLog sDB addr = true ↔
  vmLogAll sDB = true ∨ addr ∈ vmLogWhiteListSet sDB.
Proof.
  unfold canWriteVmLog. destruct (vmLogAll sDB).
  - split; [by left | done].
  - rewrite bool_decide_eq_true. split; [by right | by intros [?|?]].
Qed.

Lemma foldl_writeSendCallDepth (d : N) (sends : list AccountBlock.t)
  (b : Batch) (m : gmap types.Hash N) :
  foldl (writeSendCallDepth d (PutUint16 d)) (b, m) sends =
  (b ++ callDepthOps d sends, callDepthMap d sends m).
Proof.
  revert b m. induction sends as [|sb sends IH]; intros b m; simpl.
  - by rewrite app_nil_r.
  - unfold writeSendCallDepth at 2. simpl. rewrite IH. unfold Put.
    by rewrite <- app_assoc.
Qed.

Lemma callDepthMap_lookup (d : N) (sends : list AccountBlock.t)
  (m : gmap types.Hash N) (h : types.Hash) :
  callDepthMap d sends m !! h =
  if decide (h ∈ AccountBlock.Hash <$> sends) then Some d else m !! h.
Proof.
  revert m. induction sends as [|sb sends IH]; intros m; simpl.
  - reflexivity.
  - unfold callDepthMap in *. simpl. rewrite IH.
    destruct (decide (h ∈ AccountBlock.Hash <$> sends)) as [Hin|Hnin].
    + rewrite decide_True; [done | by right].
    + destruct (decide (h = AccountBlock.Hash sb)) as [->|Hne].
      * rewrite decide_True by (by left). by rewrite lookup_insert_eq.
      * rewrite decide_False.
        -- by rewrite lookup_insert_ne.
        -- intros Hin. apply elem_of_cons in Hin as [?|?]; done.
Qed.

(** What the call-depth step does to a batch. *)
Lemma writeCallDepth_inv (vmDb : VmDb.t) (ab : AccountBlock.t)
  (b b' : Batch) (m : gmap types.Hash N) :
  writeCallDepth vmDb ab b = Ok (b', m) →
  (IsReceiveBlock ab = true ∧ AccountBlock.SendBlockList ab ≠ []
   ∧ ∃ parent,
       VmDb.GetCallDepth vmDb (AccountBlock.FromBlockHash ab) = Ok parent
       ∧ b' = b ++ callDepthOps (uint16_add parent 1)
                     (AccountBlock.SendBlockList ab)
       ∧ m = callDepthMap (uint16_add parent 1)
               (AccountBlock.SendBlockList ab) ∅)
  ∨ ((IsReceiveBlock ab = false ∨ AccountBlock.SendBlockList ab = [])
     ∧ b' = b ∧ m = ∅).
Proof.
  unfold writeCallDepth.
  destruct (IsReceiveBlock ab) eqn:Hrecv; simpl.
  - case_bool_decide as Hlen.
    + destruct (VmDb.GetCallDepth vmDb _) as [parent|e] eqn:Hdepth;
        simpl; [|done].
      rewrite foldl_writeSendCallDepth. intros [= <- <-].
      left. split; [done|]. split.
      * intros Hnil. rewrite Hnil in Hlen. simpl in Hlen. lia.
      * eauto.
    + intros [= <- <-]. right. split; [|done]. right.
      destruct (AccountBlock.SendBlockList ab); [done | simpl in Hlen; lia].
  - intros [= <- <-]. right. eauto.
Qed.

(** What the vm-log step does to a batch. *)
Lemma writeVmLog_inv (sDB : StateDB) (vmDb : VmDb.t) (ab : AccountBlock.t)
  (b b' : Batch) (m : gmap types.Hash bytes) :
  writeVmLog sDB vmDb ab b = Ok (b', m) →
  (∃ logHash bytes,
      AccountBlock.LogHash ab = Some logHash
      ∧ canWriteVmLog sDB (AccountBlock.AccountAddress ab) = true
      ∧ VmLogListSerialize (VmDb.GetLogList vmDb) = Ok bytes
      ∧ b' = b ++ [OpPut (CreateVmLogListKey logHash) bytes]
      ∧ m = {[ logHash := bytes ]})
  ∨ ((AccountBlock.LogHash ab = None
      ∨ canWriteVmLog sDB (AccountBlock.AccountAddress ab) = false)
     ∧ b' = b ∧ m = ∅).
Proof.
  unfold writeVmLog.
  destruct (AccountBlock.LogHash ab) as [logHash|] eqn:Hlog.
  - destruct (canWriteVmLog sDB _) eqn:Hcan.
    + destruct (VmLogListSerialize _) as [bytes|e] eqn:Hser; simpl; [|done].
      intros [= <- <-]. left. exists logHash, bytes. eauto.
    + intros [= <- <-]. right. eauto.
  - intros [= <- <-]. right. eauto.
Qed.

(** [Write_body] on a writable provider, step by step. *)
Lemma Write_body_inv (block : VmAccountBlock.t) (sDB : StateDB)
  (batch : Batch) (redoLog : LogItem) (cache' : Cache) :
  Write_body block sDB = (Ok (batch, redoLog), cache') →
  let vmDb := VmAccountBlock.VmDb block in
  let ab := VmAccountBlock.AccountBlock block in
  ∃ pre logged,
    VmDb.CanWrite vmDb = true
    ∧ Write_deltas block sDB =
      (pre, cache', BalanceMap redoLog, Code redoLog, ContractMeta redoLog)
    ∧ writeVmLog sDB vmDb ab pre = Ok (logged, VmLogList redoLog)
    ∧ writeCallDepth vmDb ab logged = Ok (batch, CallDepth redoLog)
    ∧ Storage redoLog = VmDb.GetUnsavedStorage vmDb
    ∧ Height redoLog = AccountBlock.Height ab.
Proof.
  unfold Write_body.
  destruct (VmDb.CanWrite (VmAccountBlock.VmDb block)) eqn:Hcan; simpl; [|done].
  destruct (Write_deltas block sDB) as [[[[pre c] rb] rc] rm] eqn:Hd. simpl.
  destruct (writeVmLog sDB _ _ pre) as [[logged rl]|e] eqn:Hlog; simpl; [|done].
  destruct (writeCallDepth _ _ logged) as [[b rd]|e] eqn:Hcd; simpl; [|done].
  intros [= <- <- <-]. simpl. exists pre, logged. done.
Qed.

(** A [Write] that returns no error has handed the batch and the redo
    item it assembled to the store and to the redo manager. *)
Lemma Write_ok_inv (block : VmAccountBlock.t) (sDB sDB' : StateDB) :
  Write block sDB = (None, sDB') →
  ∃ batch redoLog cache',
    Write_body block sDB = (Ok (batch, redoLog), cache')
    ∧ sDB' =
      {| store := store_WriteAccountBlock batch
                    (VmAccountBlock.AccountBlock block) (store sDB);
         redo := redo_AddLog
                   (AccountBlock.AccountAddress
                      (VmAccountBlock.AccountBlock block))
                   redoLog (redo sDB);
         roundCache := roundCache sDB;
         cache := cache'; vmLogAll := vmLogAll sDB;
         vmLogWhiteListSet := vmLogWhiteListSet sDB |}.
Proof.
  unfold Write.
  destruct (Write_body block sDB) as [[[batch redoLog]|e] cache']; [|done].
  intros [= <-]. by exists batch, redoLog, cache'.
Qed.

Lemma writeCallDepth_app (vmDb : VmDb.t) (ab : AccountBlock.t) (b : Batch) :
  writeCallDepth vmDb ab b =
  match writeCallDepth vmDb ab [] with
  | Ok (ops, m) => Ok (b ++ ops, m)
  | Err e => Err e
  end.
Proof.
  unfold writeCallDepth.
  destruct (IsReceiveBlock ab && bool_decide _).
  - destruct (VmDb.GetCallDepth vmDb _); simpl; [|done].
    by rewrite !foldl_writeSendCallDepth.
  - by rewrite app_nil_r.
Qed.

(** The call-depth step fails only when the provider has no depth for the
    block a receive block answers. *)
Lemma writeCallDepth_err (vmDb : VmDb.t) (ab : AccountBlock.t) (b : Batch)
  (e : error) :
  writeCallDepth vmDb ab b = Err e →
  IsReceiveBlock ab = true
  ∧ AccountBlock.SendBlockList ab ≠ []
  ∧ VmDb.GetCallDepth vmDb (AccountBlock.FromBlockHash ab) = Err e.
Proof.
  unfold writeCallDepth.
  destruct (IsReceiveBlock ab); simpl; [|done].
  case_bool_decide as Hlen; [|done].
  destruct (VmDb.GetCallDepth vmDb _); simpl; [done|].
  intros [= <-]. split; [done|]. split; [|done].
  intros Hnil. rewrite Hnil in Hlen. simpl in Hlen. lia.
Qed.

(** C3, as the code has it.  A provider that is not writable makes [Write]
    return the invalid-state error with the whole [StateDB] unchanged.
    Whenever [Write] returns an error, the error is one of three (provider
    not writable, log list not serialisable, call depth not available), no
    batch has been handed to the staged store and no redo item to the redo
    log manager; every field of the [StateDB] other than the read cache is
    unchanged. *)
Theorem write_error_hands_nothing_over (block : VmAccountBlock.t)
  (sDB : StateDB) :
  let vmDb := VmAccountBlock.VmDb block in
  let ab := VmAccountBlock.AccountBlock block in
  (VmDb.CanWrite vmDb = false →
   Write block sDB = (Some (errorNew "vmDb.CanWrite() is false"), sDB))
  ∧ (∀ err sDB', Write block sDB = (Some err, sDB') →
       store sDB' = store sDB
       ∧ redo sDB' = redo sDB
       ∧ roundCache sDB' = roundCache sDB
       ∧ vmLogAll sDB' = vmLogAll sDB
       ∧ vmLogWhiteListSet sDB' = vmLogWhiteListSet sDB
       ∧ (VmDb.CanWrite vmDb = false
          ∨ (AccountBlock.LogHash ab ≠ None
             ∧ canWriteVmLog sDB (AccountBlock.AccountAddress ab) = true
             ∧ VmLogListSerialize (VmDb.GetLogList vmDb) = Err err)
          ∨ (IsReceiveBlock ab = true
             ∧ AccountBlock.SendBlockList ab ≠ []
             ∧ VmDb.GetCallDepth vmDb (AccountBlock.FromBlockHash ab)
               = Err err))).
Proof.
  intros vmDb ab. split.
  - intros Hcan. unfold Write, Write_body. fold vmDb. rewrite Hcan. simpl.
    by rewrite StateDB_eta.
  - intros err sDB'. unfold Write.
    destruct (Write_body block sDB) as [[[b r]|e] c] eqn:Hbody; [done|].
    intros [= <- <-]. simpl. do 5 (split; [done|]).
    revert Hbody. unfold Write_body. fold vmDb ab.
    destruct (VmDb.CanWrite vmDb) eqn:Hcan; simpl; [|by left].
    destruct (Write_deltas block sDB) as [[[[pre c0] rb] rc] rm]. simpl.
    destruct (writeVmLog sDB vmDb ab pre) as [[logged rl]|e'] eqn:Hlog; simpl.
    + destruct (writeCallDepth vmDb ab logged) as [[b' m]|e'] eqn:Hcd;
        simpl; [done|].
      intros [= <- <-]. right. right. by eapply writeCallDepth_err.
    + intros [= <- <-]. right. left. revert Hlog. unfold writeVmLog.
      destruct (AccountBlock.LogHash ab); [|done].
      destruct (canWriteVmLog sDB _); [|done].
      destruct (VmLogListSerialize _); simpl; [done|].
      by intros [= <-].
Qed.

(** C8.  When [Write] returns no error, the batch it has handed to the
    store and the redo item it has handed to the redo manager are these:
    the serialised log list is put under the key of the block's log hash,
    right after the puts of the earlier steps, and recorded in the redo
    item, if and only if the block has a log hash and the policy allows
    its address: the global [vmLogAll] flag is set or the address is in
    the white list.  Otherwise the batch holds the operations of the other
    steps only and the redo item records no log. *)
Theorem vm_log_written_iff_policy_allows (block : VmAccountBlock.t)
  (sDB sDB' : StateDB) :
  Write block sDB = (None, sDB') →
  let vmDb := VmAccountBlock.VmDb block in
  let ab := VmAccountBlock.AccountBlock block in
  let allowed :=
    AccountBlock.LogHash ab ≠ None
    ∧ (vmLogAll sDB = true
       ∨ AccountBlock.AccountAddress ab ∈ vmLogWhiteListSet sDB) in
  ∃ batch redoLog pre cache0 balances code metas callDepthPuts depths,
    store sDB' = store_WriteAccountBlock batch ab (store sDB)
    ∧ redo sDB' =
      redo_AddLog (AccountBlock.AccountAddress ab) redoLog (redo sDB)
    ∧ Write_deltas block sDB = (pre, cache0, balances, code, metas)
    ∧ writeCallDepth vmDb ab [] = Ok (callDepthPuts, depths)
    ∧ (allowed →
       ∃ logHash bytes,
         AccountBlock.LogHash ab = Some logHash
         ∧ VmLogListSerialize (VmDb.GetLogList vmDb) = Ok bytes
         ∧ batch = pre ++ [OpPut (CreateVmLogListKey logHash) bytes]
                       ++ callDepthPuts
         ∧ VmLogList redoLog = {[ logHash := bytes ]})
    ∧ (¬ allowed →
       batch = pre ++ callDepthPuts ∧ VmLogList redoLog = ∅).
Proof.
  intros Hwrite vmDb ab allowed.
  apply Write_ok_inv in Hwrite as (batch & redoLog & cache' & Hbody & ->).
  apply Write_body_inv in Hbody as (pre & logged & _ & Hd & Hlog & Hcd & _).
  fold vmDb ab in Hlog, Hcd.
  rewrite writeCallDepth_app in Hcd.
  destruct (writeCallDepth vmDb ab []) as [[ops m]|e] eqn:Hops; [|done].
  injection Hcd as <- _.
  exists (logged ++ ops), redoLog, pre, cache', (BalanceMap redoLog),
    (Code redoLog), (ContractMeta redoLog), ops, m.
  split; [done|]. split; [done|]. split; [done|]. split; [done|].
  apply writeVmLog_inv in Hlog
    as [(logHash & bytes & Hh & Hpol & Hser & -> & Hm)|([Hno|Hno] & -> & Hm)].
  - split.
    + intros _. exists logHash, bytes. by rewrite <- app_assoc.
    + intros Hnot. exfalso. apply Hnot. split; [by rewrite Hh|].
      by apply canWriteVmLog_spec.
  - split; [|done]. intros [Hsome _]. done.
  - split; [|done]. intros [_ Hpol].
    apply canWriteVmLog_spec in Hpol. congruence.
Qed.

Lemma PutUint16_big_endian (v : N) :
  (v < 65536)%N →
  ∃ hi lo, PutUint16 v = [hi; lo]
           ∧ (256 * Byte.to_N hi + Byte.to_N lo = v)%N.
Proof.
  intros Hv. unfold PutUint16. eexists _, _. split; [reflexivity|].
  assert (v / 256 < 256)%N by (apply N.Div0.div_lt_upper_bound; lia).
  rewrite (N.mod_small (v / 256)) by done.
  rewrite !to_N_byte_of_N; [|by apply N.mod_lt|done].
  symmetry. by apply N.div_mod.
Qed.

(** C9.  When [Write] returns no error on a receive block with a non-empty
    send-block list, the call depth is the provider's depth for
    [FromBlockHash] plus one in 16-bit unsigned arithmetic and its two
    bytes are the big-endian encoding; the batch handed to the store ends
    with one put of these bytes under the call-depth key of every send
    block, and the map of the redo item handed to the redo manager holds
    that depth for exactly the hashes of the send blocks. *)
Theorem call_depth_written_for_send_blocks (block : VmAccountBlock.t)
  (sDB sDB' : StateDB) :
  let vmDb := VmAccountBlock.VmDb block in
  let ab := VmAccountBlock.AccountBlock block in
  Write block sDB = (None, sDB') →
  IsReceiveBlock ab = true →
  AccountBlock.SendBlockList ab ≠ [] →
  ∃ batch redoLog parent,
    store sDB' = store_WriteAccountBlock batch ab (store sDB)
    ∧ redo sDB' =
      redo_AddLog (AccountBlock.AccountAddress ab) redoLog (redo sDB)
    ∧ VmDb.GetCallDepth vmDb (AccountBlock.FromBlockHash ab) = Ok parent
    ∧ let callDepth := ((parent + 1) mod 65536)%N in
      ((parent < 65535)%N → callDepth = (parent + 1)%N)
      ∧ (∃ hi lo, PutUint16 callDepth = [hi; lo]
                  ∧ (256 * Byte.to_N hi + Byte.to_N lo = callDepth)%N)
      ∧ (∃ earlier,
            batch = earlier
                    ++ callDepthOps callDepth (AccountBlock.SendBlockList ab))
      ∧ (∀ sendBlock, sendBlock ∈ AccountBlock.SendBlockList ab →
           OpPut (CreateCallDepthKey (AccountBlock.Hash sendBlock))
             (PutUint16 callDepth) ∈ batch
           ∧ CallDepth redoLog !! AccountBlock.Hash sendBlock = Some callDepth)
      ∧ (∀ hash, is_Some (CallDepth redoLog !! hash) →
           hash ∈ AccountBlock.Hash <$> AccountBlock.SendBlockList ab).
Proof.
  intros vmDb ab Hwrite Hrecv Hsends.
  apply Write_ok_inv in Hwrite as (batch & redoLog & cache' & Hbody & ->).
  apply Write_body_inv in Hbody as (pre & logged & _ & _ & _ & Hcd & _).
  fold vmDb ab in Hcd.
  apply writeCallDepth_inv in Hcd
    as [(_ & _ & parent & Hdepth & -> & Hm)|([Hno|Hno] & _)]; [|congruence..].
  eexists _, redoLog, parent.
  split; [reflexivity|]. split; [reflexivity|].
  split; [done|]. unfold uint16_add in Hm. simpl.
  split; [intros Hlt; by apply N.mod_small; lia|].
  split; [apply PutUint16_big_endian; by apply N.mod_lt|].
  split; [by exists logged|].
  split.
  - intros sb Hin. split.
    + apply elem_of_app. right. unfold callDepthOps.
      apply (list_elem_of_fmap_2 (fun sendBlock =>
               OpPut (CreateCallDepthKey (AccountBlock.Hash sendBlock))
                 (PutUint16 ((parent + 1) mod 65536)%N))). done.
    + rewrite Hm, callDepthMap_lookup.
      rewrite decide_True; [done|]. by apply list_elem_of_fmap_2.
  - intros hash. rewrite Hm, callDepthMap_lookup.
    case_decide; [done|]. rewrite lookup_empty. by intros [? ?].
Qed.

(** *** The loops as lists of operations *)

Lemma foldl_writeStorage (addr : types.Address) (b : Batch)
  (l : list (bytes * bytes)) :
  foldl (writeStorage addr) b l = b ++ map (storageOp addr) l.
Proof.
  revert b. induction l as [|kv l IH]; intros b; simpl.
  - by rewrite app_nil_r.
  - rewrite IH. unfold writeStorage, storageOp, Put, Delete.
    case_decide; by rewrite <- app_assoc.
Qed.

Lemma foldl_insert_list_to_map {V} (l : list (bytes * V)) (m : gmap bytes V) :
  NoDup l.*1 →
  foldl (fun acc e => <[e.1 := e.2]> acc) m l = list_to_map l ∪ m.
Proof.
  revert m. induction l as [|[k v] l IH]; intros m Hnd; csimpl.
  - by rewrite (left_id_L ∅ (∪)).
  - rewrite fmap_cons in Hnd. apply NoDup_cons in Hnd as [Hk Hnd].
    rewrite IH by done.
    rewrite <- insert_union_l. symmetry. apply insert_union_r.
    by apply not_elem_of_list_to_map_1.
Qed.

Lemma foldl_insert_map_to_list {V} (m : gmap bytes V) :
  foldl (fun acc e => <[e.1 := e.2]> acc) ∅ (map_to_list m) = m.
Proof.
  rewrite foldl_insert_list_to_map by apply NoDup_fst_map_to_list.
  by rewrite (right_id_L ∅ (∪)), list_to_map_to_list.
Qed.

Lemma foldl_writeUnsavedBalance (addr : types.Address) (b : Batch) (c : Cache)
  (m : gmap types.TokenTypeId Z) (l : list (types.TokenTypeId * Z)) :
  foldl (writeUnsavedBalance addr) (b, c, m) l =
  (b ++ map (balanceOp addr) l,
   applyBatch (map (balanceCacheOp addr) l) c,
   foldl (fun acc e => <[e.1 := e.2]> acc) m l).
Proof.
  revert b c m. induction l as [|[tid bal] l IH]; intros b c m; simpl.
  - by rewrite app_nil_r.
  - unfold writeBalance, Put. simpl. rewrite IH.
    by rewrite <- app_assoc.
Qed.

Lemma foldl_writeUnsavedContractMeta (ab : AccountBlock.t) (b : Batch)
  (c : Cache) (m : gmap types.Address bytes)
  (l : list (types.Address * ContractMeta.t)) :
  foldl (writeUnsavedContractMeta ab) (b, c, m) l =
  (b ++ (l ≫= metaOpsWrite ab),
   applyBatch
     (map (fun e => metaCacheOp (e.1, stampedMetaBytes ab e.2)) l) c,
   foldl (fun acc e => <[e.1 := e.2]> acc) m
     (prod_map id (stampedMetaBytes ab) <$> l)).
Proof.
  revert b c m. induction l as [|[a meta] l IH]; intros b c m; simpl.
  - by rewrite app_nil_r.
  - unfold writeContractMeta, Put. simpl. rewrite IH.
    by rewrite <- !app_assoc.
Qed.

Lemma foldl_redoBalance (addr : types.Address) (b : Batch) (c : Cache)
  (l : list (types.TokenTypeId * Z)) :
  foldl (fun st '(tokenTypeId, balance) =>
           writeBalance (CreateBalanceKey addr tokenTypeId)
             (bigIntBytes balance) st) (b, c) l =
  (b ++ map (balanceOp addr) l, applyBatch (map (balanceCacheOp addr) l) c).
Proof.
  revert b c. induction l as [|[tid bal] l IH]; intros b c; simpl.
  - by rewrite app_nil_r.
  - unfold writeBalance, Put. simpl. rewrite IH.
    by rewrite <- app_assoc.
Qed.

Lemma slice_prefix {A} (n : nat) (s : list A) :
  n ≤ length s → slice 0 n s = Some (take n s).
Proof.
  intros Hn. unfold slice. rewrite decide_True by lia.
  by rewrite Nat.sub_0_r.
Qed.

Lemma foldl_redoContractMeta (b : Batch) (c : Cache)
  (l : list (types.Address * bytes)) :
  Forall (fun e => GidSize ≤ length e.2) l →
  foldl redoContractMeta (Some (b, c)) l =
  Some (b ++ (l ≫= metaOpsRedo), applyBatch (map metaCacheOp l) c).
Proof.
  revert b c. induction l as [|[a mb] l IH]; intros b c Hl; simpl.
  - by rewrite app_nil_r.
  - apply Forall_cons in Hl as [Hmb Hl]. simpl in Hmb.
    rewrite slice_prefix by done. simpl.
    unfold writeContractMeta, Put. simpl. rewrite IH by done.
    by rewrite <- !app_assoc.
Qed.

Lemma foldl_redoVmLog (b : Batch) (l : list (types.Hash * bytes)) :
  foldl (fun b '(logHash, vmLogListBytes) =>
           Put (CreateVmLogListKey logHash) vmLogListBytes b) b l =
  b ++ map (fun e => OpPut (CreateVmLogListKey e.1) e.2) l.
Proof.
  revert b. induction l as [|[h bs] l IH]; intros b; simpl.
  - by rewrite app_nil_r.
  - rewrite IH. unfold Put. by rewrite <- app_assoc.
Qed.

Lemma foldl_redoCallDepth (b : Batch) (l : list (types.Hash * N)) :
  foldl (fun b '(sendHash, callDepth) =>
           Put (CreateCallDepthKey sendHash) (PutUint16 callDepth) b) b l =
  b ++ map (fun e => OpPut (CreateCallDepthKey e.1) (PutUint16 e.2)) l.
Proof.
  revert b. induction l as [|[h d] l IH]; intros b; simpl.
  - by rewrite app_nil_r.
  - rewrite IH. unfold Put. by rewrite <- app_assoc.
Qed.

Lemma fst_prod_map_id {A B C} (f : B → C) (l : list (A * B)) :
  (prod_map id f <$> l).*1 = l.*1.
Proof. induction l as [|[a b] l IH]; csimpl; [done | by rewrite IH]. Qed.

(** The infallible steps of [Write] as lists of operations. *)
Lemma Write_deltas_spec (block : VmAccountBlock.t) (sDB : StateDB) :
  let vmDb := VmAccountBlock.VmDb block in
  let ab := VmAccountBlock.AccountBlock block in
  let addr := AccountBlock.AccountAddress ab in
  let balances := map_to_list (VmDb.GetUnsavedBalanceMap vmDb) in
  let metas := map_to_list (VmDb.GetUnsavedContractMeta vmDb) in
  Write_deltas block sDB =
  (map (storageOp addr) (VmDb.GetUnsavedStorage vmDb)
   ++ map (balanceOp addr) balances
   ++ match VmDb.GetUnsavedContractCode vmDb with
      | Some code => [OpPut (CreateCodeKey addr) code]
      | None => []
      end
   ++ (metas ≫= metaOpsWrite ab),
   applyBatch (map (fun e => metaCacheOp (e.1, stampedMetaBytes ab e.2)) metas)
     (applyBatch (map (balanceCacheOp addr) balances) (cache sDB)),
   VmDb.GetUnsavedBalanceMap vmDb,
   VmDb.GetUnsavedContractCode vmDb,
   stampedMetaBytes ab <$> VmDb.GetUnsavedContractMeta vmDb).
Proof.
  intros vmDb ab addr balances metas. unfold Write_deltas.
  fold vmDb ab addr balances metas.
  rewrite foldl_writeStorage, foldl_writeUnsavedBalance.
  assert (foldl (fun acc e => <[e.1 := e.2]> acc) (∅ : gmap bytes Z) balances
          = VmDb.GetUnsavedBalanceMap vmDb) as ->
    by apply foldl_insert_map_to_list.
  unfold NewBatch. simpl.
  assert (foldl (fun acc e => <[e.1 := e.2]> acc) (∅ : gmap bytes bytes)
            (prod_map id (stampedMetaBytes ab) <$> metas)
          = stampedMetaBytes ab <$> VmDb.GetUnsavedContractMeta vmDb) as Hmeta.
  { rewrite foldl_insert_list_to_map.
    - rewrite (right_id_L ∅ (∪)), list_to_map_fmap.
      unfold metas. by rewrite list_to_map_to_list.
    - rewrite fst_prod_map_id. apply NoDup_fst_map_to_list. }
  assert (0 < size (VmDb.GetUnsavedContractMeta vmDb) ∨ metas = []) as Hsize.
  { destruct (decide (0 < size (VmDb.GetUnsavedContractMeta vmDb)));
      [by left|right].
    assert (VmDb.GetUnsavedContractMeta vmDb = ∅) as Hempty
      by (apply map_size_empty_iff; lia).
    unfold metas. rewrite Hempty. apply map_to_list_empty. }
  destruct (VmDb.GetUnsavedContractCode vmDb) as [code|]; simpl;
    case_decide as Hdec.
  1, 3: rewrite foldl_writeUnsavedContractMeta, Hmeta; simpl; unfold Put;
    by rewrite <- ?app_assoc.
  all: destruct Hsize as [?|Hnil]; [lia|];
    assert (VmDb.GetUnsavedContractMeta vmDb = ∅) as Hempty
      by (apply map_size_empty_iff; lia);
    rewrite Hnil, Hempty, fmap_empty; simpl; unfold Put;
    by rewrite ?app_nil_r, <- ?app_assoc.
Qed.

(** [WriteByRedo_body] as lists of operations, when no recorded meta is
    shorter than a group id. *)
Lemma WriteByRedo_body_spec (addr : types.Address) (redoLog : LogItem)
  (sDB : StateDB) :
  let balances := map_to_list (BalanceMap redoLog) in
  let metas := map_to_list (ContractMeta redoLog) in
  let code := default [] (Code redoLog) in
  Forall (fun e => GidSize ≤ length e.2) metas →
  WriteByRedo_body addr redoLog sDB =
  Some (map (storageOp addr) (Storage redoLog)
        ++ map (balanceOp addr) balances
        ++ (if decide (0 < length code)
            then [OpPut (CreateCodeKey addr) code] else [])
        ++ (metas ≫= metaOpsRedo)
        ++ map (fun e => OpPut (CreateVmLogListKey e.1) e.2)
             (map_to_list (VmLogList redoLog))
        ++ map (fun e => OpPut (CreateCallDepthKey e.1) (PutUint16 e.2))
             (map_to_list (CallDepth redoLog)),
        applyBatch (map metaCacheOp metas)
          (applyBatch (map (balanceCacheOp addr) balances) (cache sDB))).
Proof.
  intros balances metas code Hmetas. unfold WriteByRedo_body.
  fold balances metas code.
  rewrite foldl_writeStorage, foldl_redoBalance. unfold NewBatch. simpl.
  case_decide; simpl;
    rewrite (foldl_redoContractMeta _ _ metas Hmetas); simpl;
    rewrite foldl_redoCallDepth, foldl_redoVmLog; unfold Put;
    by rewrite <- ?app_assoc, ?app_nil_r.
Qed.

Lemma elem_of_map {A B} (f : A → B) (l : list A) (x : B) :
  x ∈ map f l ↔ ∃ y, x = f y ∧ y ∈ l.
Proof. apply (list_elem_of_fmap f l x). Qed.

(** *** Snapshot confirmation *)

Lemma foldl_insert_keep {V} (l : list (bytes * V)) (k : bytes)
  (m : gmap bytes V) :
  k ∉ l.*1 → foldl (fun acc e => <[e.1 := e.2]> acc) m l !! k = m !! k.
Proof.
  revert m. induction l as [|[k' v'] l IH]; intros m Hk; [done|].
  rewrite fmap_cons in Hk. apply not_elem_of_cons in Hk as [Hne Hk].
  simpl. rewrite IH by done. by rewrite lookup_insert_ne.
Qed.

(** Inserting pairs in order keeps, for a key, the value of its last pair. *)
Lemma foldl_insert_last {V} (l1 l2 : list (bytes * V)) (k : bytes) (v : V)
  (m : gmap bytes V) :
  k ∉ l2.*1 →
  foldl (fun acc e => <[e.1 := e.2]> acc) m (l1 ++ (k, v) :: l2) !! k = Some v.
Proof.
  intros Hk. rewrite foldl_app. simpl. rewrite foldl_insert_keep by done.
  by rewrite lookup_insert_eq.
Qed.

Lemma foldl_bind {A B C} (g : C → B → C) (f : A → list B) (l : list A)
  (c : C) :
  foldl (fun c a => foldl g c (f a)) c l = foldl g c (l ≫= f).
Proof.
  revert c. induction l as [|a l IH]; intros c; csimpl; [done|].
  by rewrite foldl_app, IH.
Qed.

Lemma foldl_insert_pat {V} (l : list (bytes * V)) (m : gmap bytes V) :
  foldl (fun acc '(k, v) => <[k := v]> acc) m l =
  foldl (fun acc e => <[e.1 := e.2]> acc) m l.
Proof.
  revert m. induction l as [|[k v] l IH]; intros m; simpl; [done|].
  by rewrite IH.
Qed.

Lemma parseStorage_spec (items : list LogItem) :
  parseStorage items =
  foldl (fun acc e => <[e.1 := e.2]> acc) ∅ (items ≫= Storage).
Proof. unfold parseStorage. apply (foldl_bind _ Storage). Qed.

Lemma parseBalance_spec (items : list LogItem) :
  parseBalance items =
  foldl (fun acc e => <[e.1 := e.2]> acc) ∅
    (items ≫= fun redoLog => map_to_list (BalanceMap redoLog)).
Proof.
  unfold parseBalance.
  rewrite <- (foldl_bind _ (fun redoLog => map_to_list (BalanceMap redoLog))).
  generalize (∅ : gmap types.TokenTypeId Z).
  induction items as [|item items IH]; intros m; simpl; [done|].
  by rewrite IH, foldl_insert_pat.
Qed.

Lemma writeHistoryKey_ok (L : HistoryKeyLayout U)
  (key : HistoryStorageValueKey) (value : bytes) (b : Batch) (c : Cache) :
  ∃ c', writeHistoryKey (HistoryStorageValueKeyBytes key) value (b, c)
        = Some (b ++ [OpPut (HistoryStorageValueKeyBytes key) value], c').
Proof.
  unfold writeHistoryKey.
  destruct (history_key_address key) as (addrBytes & addr & -> & Haddr).
  simpl. rewrite Haddr. destruct (shouldCacheContractData addr); eauto.
Qed.

Lemma foldl_putHistoryStorage (L : HistoryKeyLayout U)
  (l : list (bytes * bytes)) (b : Batch) (c : Cache)
  (t : HistoryStorageValueKey) :
  ∃ c' t',
    foldl putHistoryStorage (Some (b, c, t)) l =
    Some (b ++ map (historyStorageOp (hsv_Address t) (hsv_Height t)) l, c', t')
    ∧ hsv_Address t' = hsv_Address t ∧ hsv_Height t' = hsv_Height t.
Proof.
  revert b c t. induction l as [|[k v] l IH]; intros b c t; simpl.
  - exists c, t. by rewrite app_nil_r.
  - destruct (writeHistoryKey_ok L
                (hsv_KeyRefill (StorageRealKeyConstruct k) t) v b c)
      as [c1 ->]. simpl.
    destruct (IH (b ++ [OpPut (HistoryStorageValueKeyBytes
                                 (hsv_KeyRefill (StorageRealKeyConstruct k) t)) v])
                c1 (hsv_KeyRefill (StorageRealKeyConstruct k) t))
      as (c' & t' & -> & Ha & Hh).
    exists c', t'. simpl in *. by rewrite <- app_assoc.
Qed.

Lemma foldl_putHistoryStorageOf (L : HistoryKeyLayout U)
  (maps : list (types.Address * gmap bytes bytes)) (b : Batch) (c : Cache)
  (t : HistoryStorageValueKey) :
  ∃ c' t',
    foldl putHistoryStorageOf (Some (b, c, t)) maps =
    Some (b ++ (maps ≫= fun e =>
                  map (historyStorageOp e.1 (hsv_Height t)) (map_to_list e.2)),
          c', t')
    ∧ hsv_Height t' = hsv_Height t.
Proof.
  revert b c t. induction maps as [|[addr kvMap] maps IH]; intros b c t; csimpl.
  - exists c, t. by rewrite app_nil_r.
  - destruct (foldl_putHistoryStorage L (map_to_list kvMap) b c
                (hsv_AddressRefill addr t)) as (c1 & t1 & -> & Ha & Hh).
    simpl in *.
    destruct (IH (b ++ map (historyStorageOp addr (hsv_Height t))
                         (map_to_list kvMap)) c1 t1)
      as (c' & t' & -> & Hh').
    exists c', t'. rewrite Hh in *. by rewrite <- app_assoc.
Qed.

Lemma foldl_putHistoryBalance (l : list (types.TokenTypeId * Z)) (b : Batch)
  (t : HistoryBalanceKey) :
  ∃ t',
    foldl putHistoryBalance (b, t) l =
    (b ++ map (historyBalanceOp (hb_Address t) (hb_Height t)) l, t')
    ∧ hb_Address t' = hb_Address t ∧ hb_Height t' = hb_Height t.
Proof.
  revert b t. induction l as [|[tid bal] l IH]; intros b t; simpl.
  - exists t. by rewrite app_nil_r.
  - unfold Put.
    destruct (IH (b ++ [OpPut (HistoryBalanceKeyBytes (hb_TokenIdRefill tid t))
                          (bigIntBytes bal)]) (hb_TokenIdRefill tid t))
      as (t' & -> & Ha & Hh).
    exists t'. simpl in *. by rewrite <- app_assoc.
Qed.

Lemma foldl_putHistoryBalanceOf
  (maps : list (types.Address * gmap types.TokenTypeId Z)) (b : Batch)
  (t : HistoryBalanceKey) :
  ∃ t',
    foldl putHistoryBalanceOf (b, t) maps =
    (b ++ (maps ≫= fun e =>
             map (historyBalanceOp e.1 (hb_Height t)) (map_to_list e.2)), t')
    ∧ hb_Height t' = hb_Height t.
Proof.
  revert b t. induction maps as [|[addr balanceMap] maps IH]; intros b t; csimpl.
  - exists t. by rewrite app_nil_r.
  - destruct (foldl_putHistoryBalance (map_to_list balanceMap) b
                (hb_AddressRefill addr t)) as (t1 & -> & Ha & Hh).
    simpl in *.
    destruct (IH (b ++ map (historyBalanceOp addr (hb_Height t))
                         (map_to_list balanceMap)) t1) as (t' & -> & Hh').
    exists t'. rewrite Hh in *. by rewrite <- app_assoc.
Qed.

(** The history batch: the storage rows of every address, then the balance
    rows. *)
Lemma InsertSnapshotBlock_body_spec (L : HistoryKeyLayout U) (height : N)
  (snapshotRedoLog : SnapshotLog) (sDB : StateDB) :
  0 < size snapshotRedoLog →
  ∃ cache',
    InsertSnapshotBlock_body height snapshotRedoLog sDB =
    Some (Ok ((map_to_list (parseStorage <$> snapshotRedoLog) ≫= fun e =>
                 map (historyStorageOp e.1 height) (map_to_list e.2))
              ++ (map_to_list (parseBalance <$> snapshotRedoLog) ≫= fun e =>
                    map (historyBalanceOp e.1 height) (map_to_list e.2))),
          cache').
Proof.
  intros Hsize. unfold InsertSnapshotBlock_body.
  rewrite decide_True by done. simpl.
  destruct (foldl_putHistoryStorageOf L
              (map_to_list (parseStorage <$> snapshotRedoLog)) NewBatch
              (cache sDB)
              (CreateHistoryStorageValueKey (replicate AddressSize x00) []
                 height)) as (c' & t' & -> & _).
  simpl.
  match goal with
  | |- context [foldl putHistoryBalanceOf (?b, ?t) ?l] =>
      destruct (foldl_putHistoryBalanceOf l b t) as (t'' & -> & _)
  end.
  simpl. by exists c'.
Qed.

(** C5, as the code has it.  When the redo manager returns a non-empty set
    of items for the height [h] of the confirmed snapshot block,
    [InsertSnapshotBlock] succeeds and hands the store one batch that
    holds, for every address and every storage key of its items, a put of
    the row keyed (address, key, [h]) with the last value the items record
    for the key, and for every address and every token id of its items a
    put of the row keyed (address, token id, [h]) with the last balance the
    items record for it. *)
Theorem insert_snapshot_block_writes_history (L : HistoryKeyLayout U)
  (snapshotBlock : SnapshotBlock.t) (confirmedBlocks : list AccountBlock.t)
  (sDB : StateDB) (snapshotRedoLog : SnapshotLog) (found : bool) :
  let h := SnapshotBlock.Height snapshotBlock in
  let redo' :=
    redo_InsertSnapshotBlock snapshotBlock confirmedBlocks (redo sDB) in
  redo_QueryLog h redo' = Ok (snapshotRedoLog, found) →
  0 < size snapshotRedoLog →
  ∃ batch cache',
    InsertSnapshotBlock snapshotBlock confirmedBlocks sDB =
    Some (None,
          {| store := store_WriteSnapshot batch confirmedBlocks (store sDB);
             redo := redo';
             roundCache :=
               roundCache_InsertSnapshotBlock snapshotBlock snapshotRedoLog
                 (roundCache sDB);
             cache := cache'; vmLogAll := vmLogAll sDB;
             vmLogWhiteListSet := vmLogWhiteListSet sDB |})
    ∧ (∀ addr items before key value after,
         snapshotRedoLog !! addr = Some items →
         items ≫= Storage = before ++ (key, value) :: after →
         key ∉ after.*1 →
         OpPut (HistoryStorageValueKeyBytes
                  (CreateHistoryStorageValueKey addr key h)) value ∈ batch)
    ∧ (∀ addr items before tokenTypeId balance after,
         snapshotRedoLog !! addr = Some items →
         (items ≫= fun redoLog => map_to_list (BalanceMap redoLog))
         = before ++ (tokenTypeId, balance) :: after →
         tokenTypeId ∉ after.*1 →
         OpPut (HistoryBalanceKeyBytes
                  (CreateHistoryBalanceKey addr tokenTypeId h))
           (bigIntBytes balance) ∈ batch).
Proof.
  intros h redo' Hquery Hsize.
  destruct (InsertSnapshotBlock_body_spec L h snapshotRedoLog sDB Hsize)
    as [cache' Hbody].
  eexists _, cache'. split; [|split].
  - unfold InsertSnapshotBlock. fold h redo'. rewrite Hquery, Hbody. done.
  - intros addr items before key value after Hitems Hpairs Hlast.
    apply elem_of_app. left. apply list_elem_of_bind.
    exists (addr, parseStorage items). split.
    + simpl. apply elem_of_map.
      exists (key, value). split; [done|]. apply elem_of_map_to_list.
      rewrite parseStorage_spec, Hpairs. by apply foldl_insert_last.
    + apply elem_of_map_to_list. by rewrite lookup_fmap, Hitems.
  - intros addr items before tid bal after Hitems Hpairs Hlast.
    apply elem_of_app. right. apply list_elem_of_bind.
    exists (addr, parseBalance items). split.
    + simpl. apply elem_of_map.
      exists (tid, bal). split; [done|]. apply elem_of_map_to_list.
      rewrite parseBalance_spec, Hpairs. by apply foldl_insert_last.
    + apply elem_of_map_to_list. by rewrite lookup_fmap, Hitems.
Qed.

End StateWriter.

(** ** The reference instances satisfy the laws *)

Lemma fixWidth_length (n : nat) (bs : bytes) :
  length (Reference.fixWidth n bs) = n.
Proof.
  unfold Reference.fixWidth.
  rewrite length_take, length_app, length_replicate. lia.
Qed.

Lemma take_fixWidth_app (n : nat) (bs rest : bytes) :
  take n (Reference.fixWidth n bs ++ rest) = Reference.fixWidth n bs.
Proof.
  rewrite take_app_le by (rewrite fixWidth_length; lia).
  apply take_ge. rewrite fixWidth_length. lia.
Qed.

Lemma reference_history_key_layout :
  ChainState.HistoryKeyLayout Reference.utils.
Proof.
  constructor. intros key. simpl.
  exists (Reference.fixWidth 21 (ChainState.hsv_Address key)), 
    (Reference.fixWidth 21 (ChainState.hsv_Address key)).
  split.
  - unfold slice. rewrite decide_True.
    + change (22 - 1) with 21. cbn [drop]. rewrite drop_0.
      by rewrite take_fixWidth_app.
    + rewrite length_cons, length_app, fixWidth_length. lia.
  - rewrite decide_True; [done | apply fixWidth_length].
Qed.

(** ** The state writer on the reference instances *)

Lemma result_pair_eta {A B} (r : result (A * B)) (a : A) (b : B) :
  isOk r = true →
  r = Ok (match r with Ok x => x.1 | Err _ => a end,
          match r with Ok x => x.2 | Err _ => b end).
Proof. by destruct r as [[? ?]|?]. Qed.

Lemma demoWritten_eq :
  @ChainState.Write_body Reference.utils Reference.collaborators
    Reference.demoBlock Reference.emptyStateDB
  = (Ok (Reference.demoBatch, Reference.demoRedoLog), Reference.demoWritten.2).
Proof.
  assert (isOk Reference.demoWritten.1 = true) as Hok
    by (vm_compute; reflexivity).
  unfold Reference.demoBatch, Reference.demoRedoLog.
  fold Reference.demoWritten.
  rewrite <- (result_pair_eta _ _ _ Hok). by destruct Reference.demoWritten.
Qed.

Lemma demoEmptyCodeWritten_eq :
  @ChainState.Write_body Reference.utils Reference.collaborators
    Reference.demoBlockEmptyCode Reference.emptyStateDB
  = (Ok (Reference.demoEmptyCodeBatch, Reference.demoEmptyCodeRedoLog),
     Reference.demoEmptyCodeWritten.2).
Proof.
  assert (isOk Reference.demoEmptyCodeWritten.1 = true) as Hok
    by (vm_compute; reflexivity).
  unfold Reference.demoEmptyCodeBatch, Reference.demoEmptyCodeRedoLog.
  fold Reference.demoEmptyCodeWritten.
  rewrite <- (result_pair_eta _ _ _ Hok).
  by destruct Reference.demoEmptyCodeWritten.
Qed.

(** C3 as stated fails: on a receive block whose provider cannot tell the
    call depth, [Write] returns the error after [writeBalance] has already
    set the block's balance in the read cache. *)
Lemma write_error_after_cache_update :
  let key := [x62] ++ x02 :: Reference.demoAddress ++ Reference.demoToken in
  let r := @ChainState.Write Reference.utils Reference.collaborators
             Reference.demoBlockNoDepth Reference.emptyStateDB in
  r.1 = Some (errorNew "not found")
  ∧ ChainState.store r.2 = ChainState.store Reference.emptyStateDB
  ∧ ChainState.redo r.2 = ChainState.redo Reference.emptyStateDB
  ∧ ChainState.cache Reference.emptyStateDB !! key = None
  ∧ ChainState.cache r.2 !! key = Some (bigIntBytes 100).
Proof.
  split; [vm_compute; reflexivity|].
  split; [vm_compute; reflexivity|].
  split; [vm_compute; reflexivity|].
  split; vm_compute; reflexivity.
Qed.

Lemma demoBlock_Write_eq :
  @ChainState.Write Reference.utils Reference.collaborators
    Reference.demoBlock Reference.emptyStateDB
  = (None,
     (@ChainState.Write Reference.utils Reference.collaborators
        Reference.demoBlock Reference.emptyStateDB).2).
Proof. unfold ChainState.Write. by rewrite demoWritten_eq. Qed.

(** C4.  On a block whose provider holds an empty, non-nil contract code,
    [Write] returns no error, hands the store a batch that puts the code
    key, with the empty value, and hands the redo manager an item that
    records the code.  [WriteByRedo] on that item, for the same address,
    returns and hands the store the empty batch.  An engine that receives
    the batch of the direct write holds the code key; one that receives
    the batch of the replay does not. *)
Lemma write_by_redo_skips_empty_code :
  let block := Reference.demoBlockEmptyCode in
  let ab := VmAccountBlock.AccountBlock block in
  let addr := AccountBlock.AccountAddress ab in
  let sDB := Reference.emptyStateDB in
  let codeKey := x03 :: Reference.demoAddress in
  let batch := Reference.demoEmptyCodeBatch in
  let redoLog := Reference.demoEmptyCodeRedoLog in
  VmDb.GetUnsavedContractCode (VmAccountBlock.VmDb block) = Some []
  ∧ (∃ cache',
       @ChainState.Write Reference.utils Reference.collaborators block sDB =
       (None,
        @ChainState.mkStateDB Reference.collaborators
          (@ChainState.store_WriteAccountBlock Reference.collaborators
             batch ab (ChainState.store sDB))
          (@ChainState.redo_AddLog Reference.collaborators addr redoLog
             (ChainState.redo sDB))
          (ChainState.roundCache sDB) cache' (ChainState.vmLogAll sDB)
          (ChainState.vmLogWhiteListSet sDB)))
  ∧ batch = [OpPut codeKey []]
  ∧ ChainState.Code redoLog = Some []
  ∧ (∃ cache',
       @ChainState.WriteByRedo Reference.utils Reference.collaborators
         (AccountBlock.Hash ab) addr redoLog sDB =
       Some (@ChainState.mkStateDB Reference.collaborators
               (@ChainState.store_WriteAccountBlockByHash
                  Reference.collaborators [] (AccountBlock.Hash ab)
                  (ChainState.store sDB))
               (ChainState.redo sDB) (ChainState.roundCache sDB) cache'
               (ChainState.vmLogAll sDB) (ChainState.vmLogWhiteListSet sDB)))
  ∧ applyBatch batch ∅ !! codeKey = Some []
  ∧ applyBatch [] (∅ : Engine) !! codeKey = None.
Proof.
  intros block ab addr sDB codeKey batch redoLog.
  split; [reflexivity|].
  split.
  { eexists. unfold block, sDB, ChainState.Write.
    rewrite demoEmptyCodeWritten_eq. reflexivity. }
  split; [vm_compute; reflexivity|].
  split; [vm_compute; reflexivity|].
  split.
  { assert (fst <$> @ChainState.WriteByRedo_body Reference.utils
                      Reference.collaborators addr redoLog sDB
            = Some []) as Hfst by (vm_compute; reflexivity).
    unfold ChainState.WriteByRedo.
    destruct (ChainState.WriteByRedo_body addr redoLog sDB)
      as [[redoBatch cache']|]; [|done].
    injection Hfst as ->. by eexists. }
  split; vm_compute; reflexivity.
Qed.

Lemma vm_log_written_iff_policy_allows_witness :
  let block := Reference.demoBlock in
  let sDB := Reference.emptyStateDB in
  let sDB' :=
    (@ChainState.Write Reference.utils Reference.collaborators block sDB).2 in
  let vmDb := VmAccountBlock.VmDb block in
  let ab := VmAccountBlock.AccountBlock block in
  let allowed :=
    AccountBlock.LogHash ab ≠ None
    ∧ (ChainState.vmLogAll sDB = true
       ∨ AccountBlock.AccountAddress ab ∈ ChainState.vmLogWhiteListSet sDB) in
  @ChainState.Write Reference.utils Reference.collaborators block sDB
  = (None, sDB')
  ∧ ∃ batch redoLog pre cache0 balances code metas callDepthPuts depths,
      ChainState.store sDB' =
      @ChainState.store_WriteAccountBlock Reference.collaborators
        batch ab (ChainState.store sDB)
      ∧ ChainState.redo sDB' =
        @ChainState.redo_AddLog Reference.collaborators
          (AccountBlock.AccountAddress ab) redoLog (ChainState.redo sDB)
      ∧ @ChainState.Write_deltas Reference.utils Reference.collaborators
          block sDB = (pre, cache0, balances, code, metas)
      ∧ @ChainState.writeCallDepth Reference.utils vmDb ab []
        = Ok (callDepthPuts, depths)
      ∧ (allowed →
         ∃ logHash bytes,
           AccountBlock.LogHash ab = Some logHash
           ∧ @ChainState.VmLogListSerialize Reference.utils
               (VmDb.GetLogList vmDb) = Ok bytes
           ∧ batch = pre ++ [OpPut (@ChainState.CreateVmLogListKey
                                      Reference.utils logHash) bytes]
                         ++ callDepthPuts
           ∧ ChainState.VmLogList redoLog = {[ logHash := bytes ]})
      ∧ (¬ allowed →
         batch = pre ++ callDepthPuts ∧ ChainState.VmLogList redoLog = ∅).
Proof.
  intros block sDB sDB' vmDb ab allowed.
  split; [exact demoBlock_Write_eq|].
  exact (@vm_log_written_iff_policy_allows Reference.utils
           Reference.collaborators block sDB sDB' demoBlock_Write_eq).
Defined.

Lemma call_depth_written_for_send_blocks_witness :
  let block := Reference.demoBlock in
  let sDB := Reference.emptyStateDB in
  let sDB' :=
    (@ChainState.Write Reference.utils Reference.collaborators block sDB).2 in
  let vmDb := VmAccountBlock.VmDb block in
  let ab := VmAccountBlock.AccountBlock block in
  @ChainState.Write Reference.utils Reference.collaborators block sDB
  = (None, sDB')
  ∧ @ChainState.IsReceiveBlock Reference.utils ab = true
  ∧ AccountBlock.SendBlockList ab ≠ []
  ∧ ∃ batch redoLog parent,
      ChainState.store sDB' =
      @ChainState.store_WriteAccountBlock Reference.collaborators
        batch ab (ChainState.store sDB)
      ∧ ChainState.redo sDB' =
        @ChainState.redo_AddLog Reference.collaborators
          (AccountBlock.AccountAddress ab) redoLog (ChainState.redo sDB)
      ∧ VmDb.GetCallDepth vmDb (AccountBlock.FromBlockHash ab) = Ok parent
      ∧ let callDepth := ((parent + 1) mod 65536)%N in
        ((parent < 65535)%N → callDepth = (parent + 1)%N)
        ∧ (∃ hi lo, PutUint16 callDepth = [hi; lo]
                    ∧ (256 * Byte.to_N hi + Byte.to_N lo = callDepth)%N)
        ∧ (∃ earlier,
              batch = earlier
                      ++ @ChainState.callDepthOps Reference.utils callDepth
                           (AccountBlock.SendBlockList ab))
        ∧ (∀ sendBlock, sendBlock ∈ AccountBlock.SendBlockList ab →
             OpPut (@ChainState.CreateCallDepthKey Reference.utils
                      (AccountBlock.Hash sendBlock))
               (PutUint16 callDepth) ∈ batch
             ∧ ChainState.CallDepth redoLog !! AccountBlock.Hash sendBlock
               = Some callDepth)
        ∧ (∀ hash, is_Some (ChainState.CallDepth redoLog !! hash) →
             hash ∈ AccountBlock.Hash <$> AccountBlock.SendBlockList ab).
Proof.
  intros block sDB sDB' vmDb ab.
  split; [exact demoBlock_Write_eq|].
  split; [reflexivity|].
  split; [discriminate|].
  exact (@call_depth_written_for_send_blocks Reference.utils
           Reference.collaborators block sDB sDB' demoBlock_Write_eq eq_refl
           ltac:(discriminate)).
Defined.

Lemma demo_QueryLog :
  @ChainState.redo_QueryLog Reference.collaborators
    (SnapshotBlock.Height Reference.demoSnapshotBlock)
    (@ChainState.redo_InsertSnapshotBlock Reference.collaborators
       Reference.demoSnapshotBlock []
       (ChainState.redo Reference.demoStateDB))
  = Ok (Reference.demoSnapshotLog, true).
Proof.
  cbn [ChainState.redo_QueryLog ChainState.redo_InsertSnapshotBlock
       Reference.collaborators].
  unfold Reference.Redo_QueryLog, Reference.Redo_InsertSnapshotBlock.
  cbn [Reference.snapshotLogMap ChainState.redo Reference.demoStateDB
       SnapshotBlock.Height Reference.demoSnapshotBlock].
  rewrite lookup_singleton_eq. reflexivity.
Qed.

Lemma demoSnapshotLog_size : 0 < size Reference.demoSnapshotLog.
Proof. unfold Reference.demoSnapshotLog. rewrite map_size_singleton. lia. Qed.

(** C5 as stated fails: when two items of an address record a pair for
    the same storage key, the history row holds the later value; no row
    holds the earlier one. *)
Lemma history_row_holds_last_value :
  let h := SnapshotBlock.Height Reference.demoSnapshotBlock in
  let rowKey :=
    @ChainState.HistoryStorageValueKeyBytes Reference.utils
      (@ChainState.CreateHistoryStorageValueKey Reference.utils
         Reference.demoAddress [x6b] h) in
  let batch :=
    default []
      (r ← @ChainState.InsertSnapshotBlock_body Reference.utils
             Reference.collaborators h Reference.demoSnapshotLog
             Reference.demoStateDB;
       match r.1 with Ok batch => Some batch | Err _ => None end) in
  Reference.demoSnapshotLog !! Reference.demoAddress
  = Some [Reference.demoItem1; Reference.demoItem2]
  ∧ ([x6b], [x01]) ∈ ChainState.Storage Reference.demoItem1
  ∧ ([x6b], [x02]) ∈ ChainState.Storage Reference.demoItem2
  ∧ (isOk <$> (fst <$> @ChainState.InsertSnapshotBlock_body Reference.utils
                 Reference.collaborators h Reference.demoSnapshotLog
                 Reference.demoStateDB)) = Some true
  ∧ batch = [OpPut rowKey [x02];
             OpPut (@ChainState.HistoryBalanceKeyBytes Reference.utils
                      (ChainState.CreateHistoryBalanceKey
                         Reference.demoAddress Reference.demoToken h))
               (bigIntBytes 80)]
  ∧ OpPut rowKey [x01] ∉ batch.
Proof.
  intros h rowKey batch.
  split; [apply lookup_singleton_eq|].
  split; [by left|]. split; [by left|].
  split; [vm_compute; reflexivity|].
  assert (batch = [OpPut rowKey [x02];
             OpPut (@ChainState.HistoryBalanceKeyBytes Reference.utils
                      (ChainState.CreateHistoryBalanceKey
                         Reference.demoAddress Reference.demoToken h))
               (bigIntBytes 80)]) as Hbatch by (vm_compute; reflexivity).
  split; [exact Hbatch|].
  rewrite Hbatch. apply (bool_decide_unpack _). vm_compute. exact I.
Qed.

Lemma insert_snapshot_block_writes_history_witness :
  let snapshotBlock := Reference.demoSnapshotBlock in
  let sDB := Reference.demoStateDB in
  let snapshotRedoLog := Reference.demoSnapshotLog in
  let h := SnapshotBlock.Height snapshotBlock in
  let redo' :=
    @ChainState.redo_InsertSnapshotBlock Reference.collaborators
      snapshotBlock [] (ChainState.redo sDB) in
  @ChainState.redo_QueryLog Reference.collaborators h redo'
  = Ok (snapshotRedoLog, true)
  ∧ 0 < size snapshotRedoLog
  ∧ ∃ batch cache',
      @ChainState.InsertSnapshotBlock Reference.utils Reference.collaborators
        snapshotBlock [] sDB =
      Some (None,
            @ChainState.mkStateDB Reference.collaborators
              (@ChainState.store_WriteSnapshot Reference.collaborators
                 batch [] (ChainState.store sDB))
              redo'
              (@ChainState.roundCache_InsertSnapshotBlock
                 Reference.collaborators snapshotBlock snapshotRedoLog
                 (ChainState.roundCache sDB))
              cache' (ChainState.vmLogAll sDB)
              (ChainState.vmLogWhiteListSet sDB))
      ∧ (∀ addr items before key value after,
           snapshotRedoLog !! addr = Some items →
           items ≫= ChainState.Storage = before ++ (key, value) :: after →
           key ∉ after.*1 →
           OpPut (@ChainState.HistoryStorageValueKeyBytes Reference.utils
                    (@ChainState.CreateHistoryStorageValueKey Reference.utils
                       addr key h)) value ∈ batch)
      ∧ (∀ addr items before tokenTypeId balance after,
           snapshotRedoLog !! addr = Some items →
           (items ≫= fun redoLog =>
              map_to_list (ChainState.BalanceMap redoLog))
           = before ++ (tokenTypeId, balance) :: after →
           tokenTypeId ∉ after.*1 →
           OpPut (@ChainState.HistoryBalanceKeyBytes Reference.utils
                    (ChainState.CreateHistoryBalanceKey addr tokenTypeId h))
             (bigIntBytes balance) ∈ batch).
Proof.
  intros snapshotBlock sDB snapshotRedoLog h redo'.
  split; [exact demo_QueryLog|].
  split; [exact demoSnapshotLog_size|].
  exact (@insert_snapshot_block_writes_history Reference.utils
           Reference.collaborators reference_history_key_layout
           Reference.demoSnapshotBlock [] Reference.demoStateDB
           Reference.demoSnapshotLog true demo_QueryLog
           demoSnapshotLog_size).
Defined.

(** ** The block log *)

Section BlockLog.
Import ChainBlock.
Context {F : FileManager} {C : BlockCodec}.

Lemma fm_WriteAll_app (bufs1 bufs2 : list bytes) (fm0 : FM) :
  fm_WriteAll (bufs1 ++ bufs2) fm0 =
  match fm_WriteAll bufs1 fm0 with
  | (Err err, fm1) => (Err err, fm1)
  | (Ok locs1, fm1) =>
      match fm_WriteAll bufs2 fm1 with
      | (Err err, fm2) => (Err err, fm2)
      | (Ok locs2, fm2) => (Ok (locs1 ++ locs2), fm2)
      end
  end.
Proof.
  revert fm0. induction bufs1 as [|buf bufs1 IH]; intros fm0; simpl.
  - by destruct (fm_WriteAll bufs2 fm0) as [[?|?] ?].
  - destruct (fm_Write buf fm0) as [[loc|e] fm']; [|done].
    rewrite IH. destruct (fm_WriteAll bufs1 fm') as [[l1|e] fm1]; [|done].
    by destruct (fm_WriteAll bufs2 fm1) as [[?|?] ?].
Qed.

(** The loop over the account blocks appends one record per block, in
    order, and stores the location of each under the hash of its block. *)
Lemma writeAccountBlocks_inv (accountBlocks : list AccountBlock.t)
  (locs locs' : gmap types.Hash Location) (fm0 fm1 : FM) :
  writeAccountBlocks accountBlocks locs fm0 = (Ok locs', fm1) →
  ∃ records alocs,
    Forall2 (fun ab record => unitRecord (None, Some ab) record)
      accountBlocks records
    ∧ fm_WriteAll records fm0 = (Ok alocs, fm1)
    ∧ length alocs = length accountBlocks
    ∧ locs' = foldl (fun acc e => <[e.1 := e.2]> acc) locs
                (zip (AccountBlock.Hash <$> accountBlocks) alocs).
Proof.
  revert locs fm0.
  induction accountBlocks as [|ab abs IH]; intros locs fm0; simpl.
  - intros [= <- <-]. exists [], []. by repeat split; [constructor|..].
  - destruct (AccountBlock_Serialize ab) as [buf|e] eqn:Hser; [|done].
    destruct (fm_Write _ fm0) as [[loc|e] fm'] eqn:Hw; [|done].
    intros Hrest.
    apply IH in Hrest as (records & alocs & Hrec & Hall & Hlen & ->).
    exists (makeWriteBytes BlockTypeAccountBlock buf :: records), (loc :: alocs).
    split; [constructor; [by exists buf | done]|].
    split; [simpl; by rewrite Hw, Hall|].
    split; [simpl; by rewrite Hlen | done].
Qed.

Lemma foldl_insert_zip_dom {V} (ks : list bytes) (vs : list V)
  (m : gmap bytes V) (k : bytes) :
  length vs = length ks →
  is_Some (foldl (fun acc e => <[e.1 := e.2]> acc) m (zip ks vs) !! k) ↔
  k ∈ ks ∨ is_Some (m !! k).
Proof.
  revert vs m. induction ks as [|k0 ks IH]; intros [|v0 vs] m Hlen;
    simpl in *; try lia.
  - split; [by right | intros [H|H]; [by apply not_elem_of_nil in H | done]].
  - rewrite IH by lia. rewrite elem_of_cons.
    destruct (decide (k = k0)) as [->|Hne].
    + rewrite lookup_insert_eq. split; [by left; left | by right].
    + rewrite lookup_insert_ne by done.
      split; [intros [?|?]; [left; by right | by right]|].
      intros [[?|?]|?]; [done | by left | by right].
Qed.

Lemma foldl_insert_zip_lookup {V} (ks : list bytes) (vs : list V)
  (m : gmap bytes V) (i : nat) (k : bytes) :
  length vs = length ks →
  ks !! i = Some k →
  (∀ j, i < j → ks !! j ≠ Some k) →
  foldl (fun acc e => <[e.1 := e.2]> acc) m (zip ks vs) !! k = vs !! i.
Proof.
  revert vs m i. induction ks as [|k0 ks IH]; intros [|v0 vs] m i Hlen Hi Hlast;
    simpl in *; try done; try lia.
  destruct i as [|i]; simpl in *.
  - injection Hi as ->. rewrite foldl_insert_keep.
    + by rewrite lookup_insert_eq.
    + intros Hin. apply list_elem_of_fmap in Hin as [[k' v'] [-> Hin]].
      apply elem_of_zip_l in Hin. apply list_elem_of_lookup in Hin as [j Hj].
      apply (Hlast (S j)); [lia | done].
  - apply IH; [lia | done |]. intros j Hj. apply (Hlast (S j)). lia.
Qed.

(** What a successful [Write] has done: the appends, and the map as the
    loop builds it. *)
Lemma Write_inv (ss : SnapshotChunk.t) (bDB bDB' : BlockDB)
  (locs : gmap types.Hash Location) (sloc : Location) :
  Write ss bDB = Some (Ok (locs, sloc), bDB') →
  ∃ sb arecords srecord alocs,
    SnapshotChunk.SnapshotBlock ss = Some sb
    ∧ Forall2 (fun ab record => unitRecord (None, Some ab) record)
        (SnapshotChunk.AccountBlocks ss) arecords
    ∧ unitRecord (Some sb, None) srecord
    ∧ fm_WriteAll (arecords ++ [srecord]) (fm bDB)
      = (Ok (alocs ++ [sloc]), fm bDB')
    ∧ length alocs = length (SnapshotChunk.AccountBlocks ss)
    ∧ locs = foldl (fun acc e => <[e.1 := e.2]> acc) ∅
               (zip (AccountBlock.Hash <$> SnapshotChunk.AccountBlocks ss)
                  alocs).
Proof.
  unfold Write.
  destruct (writeAccountBlocks _ ∅ (fm bDB)) as [[locs0|e] fm1] eqn:Habs;
    [|done].
  destruct (SnapshotChunk.SnapshotBlock ss) as [sb|]; [|done]. simpl.
  destruct (SnapshotBlock_Serialize sb) as [buf|e] eqn:Hser; [|done].
  destruct (fm_Write _ fm1) as [[loc|e] fm2] eqn:Hw; [|done].
  intros [= <- <- <-].
  apply writeAccountBlocks_inv in Habs
    as (arecords & alocs & Hrec & Hall & Hlen & ->).
  exists sb, arecords, (makeWriteBytes BlockTypeSnapshotBlock buf), alocs.
  split; [done|]. split; [done|]. split; [by exists buf|].
  split; [|done].
  rewrite fm_WriteAll_app, Hall. simpl. by rewrite Hw.
Qed.

(** The map gives, for the hash of an account block that no later block
    of the chunk shares, the location of the block's record. *)
Lemma locations_lookup (accountBlocks : list AccountBlock.t)
  (alocs : list Location) (i : nat) (ab : AccountBlock.t) :
  length alocs = length accountBlocks →
  accountBlocks !! i = Some ab →
  (∀ j ab', i < j → accountBlocks !! j = Some ab' →
            AccountBlock.Hash ab' ≠ AccountBlock.Hash ab) →
  foldl (fun acc e => <[e.1 := e.2]> acc) (∅ : gmap types.Hash Location)
    (zip (AccountBlock.Hash <$> accountBlocks) alocs)
  !! AccountBlock.Hash ab = alocs !! i.
Proof.
  intros Hlen Hi Hlast. apply foldl_insert_zip_lookup.
  - by rewrite length_fmap.
  - by rewrite list_lookup_fmap, Hi.
  - intros j Hj Hjk. rewrite list_lookup_fmap in Hjk.
    destruct (accountBlocks !! j) as [ab'|] eqn:Hj'; [|done].
    injection Hjk as Hjk. by apply (Hlast j ab').
Qed.

(** C6.  A successful [Write] of a chunk has appended one record per
    account block, in order, and then the record of the snapshot block,
    which is therefore the last record of the chunk.  It returns the
    location of the snapshot record and a map whose keys are exactly the
    hashes of the account blocks; the map gives for a hash the location of
    the record of the block with that hash (of the last such block, if
    several share a hash). *)
Theorem write_appends_account_blocks_then_snapshot (ss : SnapshotChunk.t)
  (bDB bDB' : BlockDB) (locs : gmap types.Hash Location) (sloc : Location) :
  Write ss bDB = Some (Ok (locs, sloc), bDB') →
  ∃ sb arecords srecord alocs,
    SnapshotChunk.SnapshotBlock ss = Some sb
    ∧ Forall2 (fun ab record => unitRecord (None, Some ab) record)
        (SnapshotChunk.AccountBlocks ss) arecords
    ∧ unitRecord (Some sb, None) srecord
    ∧ fm_WriteAll (arecords ++ [srecord]) (fm bDB)
      = (Ok (alocs ++ [sloc]), fm bDB')
    ∧ length alocs = length (SnapshotChunk.AccountBlocks ss)
    ∧ (∀ hash, is_Some (locs !! hash) ↔
               hash ∈ AccountBlock.Hash <$> SnapshotChunk.AccountBlocks ss)
    ∧ (∀ i ab,
         SnapshotChunk.AccountBlocks ss !! i = Some ab →
         (∀ j ab', i < j → SnapshotChunk.AccountBlocks ss !! j = Some ab' →
                   AccountBlock.Hash ab' ≠ AccountBlock.Hash ab) →
         locs !! AccountBlock.Hash ab = alocs !! i).
Proof.
  intros Hw.
  apply Write_inv in Hw
    as (sb & arecords & srecord & alocs & Hsb & Harec & Hsrec & Hall & Hlen
        & ->).
  exists sb, arecords, srecord, alocs. do 5 (split; [done|]). split.
  - intros hash. rewrite foldl_insert_zip_dom by (by rewrite length_fmap).
    rewrite lookup_empty. split; [intros [H|[? H]]; done | by left].
  - intros i ab Hi Hlast. by apply locations_lookup.
Qed.

(** *** Reading back *)

Lemma readsFrom_write (L : FileManagerLaws F) (fm0 fm1 : FM)
  (location loc : Location) (bufs : list bytes) (buf : bytes) :
  readsFrom fm0 location bufs →
  fm_Write buf fm0 = (Ok loc, fm1) →
  readsFrom fm1 location (bufs ++ [buf]).
Proof.
  intros Hreads Hw. revert location Hreads.
  induction bufs as [|b bufs IH]; intros location Hreads; simpl in *.
  - subst location. exists (fm_LatestLocation fm1).
    split; [by eapply fm_read_head | done].
  - destruct Hreads as (next & Hread & Hrest). exists next.
    split; [by eapply fm_read_stable | by apply IH].
Qed.

Lemma readsFrom_writeAll (L : FileManagerLaws F) (bufs pre : list bytes)
  (fm0 fm1 : FM) (location : Location) (locs : list Location) :
  readsFrom fm0 location pre →
  fm_WriteAll bufs fm0 = (Ok locs, fm1) →
  readsFrom fm1 location (pre ++ bufs).
Proof.
  revert pre fm0 locs. induction bufs as [|buf bufs IH];
    intros pre fm0 locs Hreads; simpl.
  - intros [= <- <-]. by rewrite app_nil_r.
  - destruct (fm_Write buf fm0) as [[loc|e] fm'] eqn:Hw; [|done].
    destruct (fm_WriteAll bufs fm') as [[locs'|e] fm''] eqn:Hall; [|done].
    intros [= <- <-]. rewrite (cons_middle buf), app_assoc.
    eapply IH; [|done]. by eapply readsFrom_write.
Qed.

(** After a sequence of appends, the records are read back in order from
    the location the first append returned. *)
Lemma readsFrom_first (L : FileManagerLaws F) (buf : bytes)
  (bufs : list bytes) (fm0 fm1 : FM) (loc : Location) (locs : list Location) :
  fm_WriteAll (buf :: bufs) fm0 = (Ok (loc :: locs), fm1) →
  readsFrom fm1 loc (buf :: bufs).
Proof.
  simpl. destruct (fm_Write buf fm0) as [[loc'|e] fm'] eqn:Hw; [|done].
  destruct (fm_WriteAll bufs fm') as [[locs'|e] fm''] eqn:Hall; [|done].
  intros [= <- <- <-].
  apply (readsFrom_writeAll L bufs [buf] fm' fm'' loc' locs'); [|done].
  simpl. exists (fm_LatestLocation fm'). split; [by eapply fm_read_written|done].
Qed.

(** [ReadUnit] on a record written for a unit gives the unit back. *)
Lemma ReadUnit_record (L : BlockCodecLaws C) (bDB : BlockDB)
  (location next : Location) (record : bytes)
  (unit : option SnapshotBlock.t * option AccountBlock.t) :
  unitRecord unit record →
  fm_Read location (fm bDB) = Ok (record, next) →
  ReadUnit location bDB = Ok (unit.1, unit.2, next).
Proof.
  intros Hrec Hread. unfold ReadUnit. rewrite Hread. simpl.
  destruct unit as [[sb|] [ab|]]; simpl in Hrec; try done.
  - destruct Hrec as (buf & Hser & ->). unfold makeWriteBytes.
    rewrite snappy_Decode_Encode. simpl. rewrite decide_True by done.
    by rewrite (SnapshotBlock_Deserialize_Serialize sb buf).
  - destruct Hrec as (buf & Hser & ->). unfold makeWriteBytes.
    rewrite snappy_Decode_Encode. simpl.
    rewrite decide_False by apply BlockType_distinct.
    rewrite decide_True by done.
    by rewrite (AccountBlock_Deserialize_Serialize ab buf).
Qed.

Lemma ReadUnits_records (L : BlockCodecLaws C) (bDB : BlockDB)
  (units : list (option SnapshotBlock.t * option AccountBlock.t))
  (records : list bytes) (location : Location) :
  Forall2 unitRecord units records →
  readsFrom (fm bDB) location records →
  ReadUnits (length units) location bDB = Ok units.
Proof.
  intros Hrec. revert location.
  induction Hrec as [|unit record units records Hu Hrec IH];
    intros location Hreads; simpl in *; [done|].
  destruct Hreads as (next & Hread & Hrest).
  rewrite (ReadUnit_record L bDB location next record unit Hu Hread).
  rewrite (IH next Hrest). by destruct unit.
Qed.

(** The records of a chunk, as [Write] appends them. *)
Lemma Write_records (ss : SnapshotChunk.t) (bDB bDB' : BlockDB)
  (locations : gmap types.Hash Location * Location) :
  Write ss bDB = Some (Ok locations, bDB') →
  ∃ records locs,
    Forall2 unitRecord (chunkUnits ss) records
    ∧ fm_WriteAll records (fm bDB) = (Ok locs, fm bDB')
    ∧ (NoDup (AccountBlock.Hash <$> SnapshotChunk.AccountBlocks ss) →
       firstLocation ss locations = head locs).
Proof.
  destruct locations as [locs sloc]. intros Hw.
  apply Write_inv in Hw
    as (sb & arecords & srecord & alocs & Hsb & Harec & Hsrec & Hall & Hlen
        & ->).
  pose proof (locations_lookup (SnapshotChunk.AccountBlocks ss) alocs)
    as Hlookup.
  exists (arecords ++ [srecord]), (alocs ++ [sloc]).
  split; [|split; [done|]].
  - unfold chunkUnits. rewrite Hsb. apply Forall2_app.
    + clear -Harec. induction Harec; simpl; by constructor.
    + by constructor.
  - intros Hnd. unfold firstLocation.
    destruct (SnapshotChunk.AccountBlocks ss) as [|ab abs] eqn:Habs.
    + by destruct alocs.
    + etrans; [apply (Hlookup 0 ab Hlen eq_refl) | by destruct alocs].
      intros j ab' Hj Hab' Heq. destruct j as [|j]; [lia|]. simpl in Hab'.
        rewrite fmap_cons in Hnd. apply NoDup_cons in Hnd as [Hnin _].
        apply Hnin. rewrite <- Heq. apply list_elem_of_fmap_2.
        by eapply list_elem_of_lookup_2.
Qed.

Lemma WriteChunks_records (chunks : list SnapshotChunk.t) (bDB bDB' : BlockDB)
  (outs : list (gmap types.Hash Location * Location)) :
  WriteChunks chunks bDB = Some (Ok outs, bDB') →
  ∃ records locs,
    Forall2 unitRecord (chunks ≫= chunkUnits) records
    ∧ fm_WriteAll records (fm bDB) = (Ok locs, fm bDB')
    ∧ length outs = length chunks
    ∧ ∀ ss out,
        head chunks = Some ss → head outs = Some out →
        NoDup (AccountBlock.Hash <$> SnapshotChunk.AccountBlocks ss) →
        firstLocation ss out = head locs.
Proof.
  revert bDB outs. induction chunks as [|ss chunks IH]; intros bDB outs; simpl.
  - intros [= <- <-]. exists [], []. by repeat split; [constructor|..].
  - destruct (Write ss bDB) as [[[out|e] bDB1]|] eqn:Hw; [|done..].
    destruct (WriteChunks chunks bDB1) as [[[more|e] bDB2]|] eqn:Hws; [|done..].
    intros [= <- <-].
    apply Write_records in Hw as (r1 & l1 & Hr1 & Hw1 & Hfirst).
    destruct (IH bDB1 more Hws) as (r2 & l2 & Hr2 & Hw2 & Hlen & _).
    exists (r1 ++ r2), (l1 ++ l2).
    split; [by apply Forall2_app|].
    split; [by rewrite fm_WriteAll_app, Hw1, Hw2|].
    split; [simpl; by rewrite Hlen|].
    intros ss' out' [= <-] [= <-] Hnd. rewrite (Hfirst Hnd).
    destruct l1; [|done]. simpl.
    (* a chunk has at least one record *)
    exfalso. unfold chunkUnits in Hr1.
    apply Forall2_length in Hr1. rewrite length_app in Hr1.
    destruct r1; simpl in Hr1; [lia|]. simpl in Hw1.
    destruct (fm_Write _ _) as [[?|?] ?]; [|done].
    by destruct (fm_WriteAll r1 _) as [[?|?] ?].
Qed.

(** C7.  When the file manager keeps the contract of the segment store
    and decoding inverts encoding, the records of the chunks written one
    after the other by [Write] are read back by [ReadUnit], in sequence
    from the location of the first record, as the same blocks in the same
    order: every account block of a chunk, then its snapshot block. *)
Theorem written_records_read_back (LF : FileManagerLaws F)
  (LC : BlockCodecLaws C) (ss : SnapshotChunk.t)
  (chunks : list SnapshotChunk.t) (bDB bDB' : BlockDB)
  (out : gmap types.Hash Location * Location)
  (outs : list (gmap types.Hash Location * Location)) :
  WriteChunks (ss :: chunks) bDB = Some (Ok (out :: outs), bDB') →
  NoDup (AccountBlock.Hash <$> SnapshotChunk.AccountBlocks ss) →
  ∃ first,
    firstLocation ss out = Some first
    ∧ ReadUnits (length ((ss :: chunks) ≫= chunkUnits)) first bDB'
      = Ok ((ss :: chunks) ≫= chunkUnits).
Proof.
  intros Hw Hnd.
  apply WriteChunks_records in Hw as (records & locs & Hrec & Hall & _ & Hfirst).
  specialize (Hfirst ss out eq_refl eq_refl Hnd).
  destruct records as [|record records].
  { apply Forall2_length in Hrec. csimpl in Hrec. unfold chunkUnits in Hrec.
    rewrite !length_app in Hrec. simpl in Hrec. lia. }
  destruct locs as [|loc locs].
  { simpl in Hall. destruct (fm_Write record _) as [[?|?] ?]; [|done].
    by destruct (fm_WriteAll records _) as [[?|?] ?]. }
  exists loc. split; [done|].
  apply (ReadUnits_records LC bDB' _ (record :: records)); [done|].
  by eapply readsFrom_first.
Qed.

(** *** Range reads *)

Lemma collectChunks_app (scanned rest : list parsedBuffer)
  (segList : list SnapshotChunk.t) (seg : option SnapshotChunk.t) :
  collectChunks (scanned ++ rest) segList seg =
  match collectChunks scanned segList seg with
  | Ok (segList', seg') => collectChunks rest segList' seg'
  | Err err => Err err
  end.
Proof.
  revert segList seg.
  induction scanned as [|buf scanned IH]; intros segList seg; simpl; [done|].
  destruct (snappy_Decode (Buffer buf)); [|done].
  case_decide; [by destruct (SnapshotBlock_Deserialize _)|].
  case_decide; [by destruct (AccountBlock_Deserialize _)|done].
Qed.

(** A buffer tagged as a snapshot block closes the chunk being assembled. *)
Lemma collectChunks_closed (scanned : list parsedBuffer)
  (segList segList' : list SnapshotChunk.t)
  (seg seg' : option SnapshotChunk.t) :
  match last scanned with
  | Some buf => BlockType buf = BlockTypeSnapshotBlock
  | None => seg = None
  end →
  collectChunks scanned segList seg = Ok (segList', seg') →
  seg' = None.
Proof.
  destruct scanned as [|buf scanned _] using rev_ind.
  - simpl. by intros -> [= _ <-].
  - rewrite last_snoc, collectChunks_app. intros Htag.
    destruct (collectChunks scanned segList seg) as [[sl s]|e]; [|done].
    simpl. destruct (snappy_Decode (Buffer buf)); [|done].
    rewrite decide_True by done.
    destruct (SnapshotBlock_Deserialize _); [|done]. by intros [= _ <-].
Qed.

(** Account blocks that follow are gathered in the chunk being assembled. *)
Lemma collectChunks_accounts (Htags : BlockTypeAccountBlock ≠ BlockTypeSnapshotBlock)
  (trailing : list parsedBuffer) (abs : list AccountBlock.t)
  (segList : list SnapshotChunk.t) (seg : SnapshotChunk.t) :
  Forall2 accountBuffer trailing abs →
  collectChunks trailing segList (Some seg) =
  Ok (segList,
      Some (SnapshotChunk.mk (SnapshotChunk.SnapshotBlock seg)
              (SnapshotChunk.AccountBlocks seg ++ abs))).
Proof.
  intros Hall. revert seg.
  induction Hall as [|buf ab trailing abs [Htag (sBuf & Hdec & Hab)] Hall IH];
    intros seg; simpl.
  - rewrite app_nil_r. by destruct seg.
  - rewrite Hdec, Htag. rewrite decide_False by done.
    rewrite decide_True by done. rewrite Hab, IH. simpl.
    by rewrite <- app_assoc.
Qed.

(** C10.  When the buffers delivered to a range read end with one or more
    account blocks after the last snapshot block (or with no snapshot
    block before them), and the producer reports no error, [ReadRange] and
    [PrepareRollback] return the chunks of the buffers before them
    followed by one last chunk that holds these account blocks and no
    snapshot block, and no error. *)
Theorem trailing_account_blocks_form_last_chunk
  (Htags : BlockTypeAccountBlock ≠ BlockTypeSnapshotBlock)
  (scanned trailing : list parsedBuffer) (chunks : list SnapshotChunk.t)
  (abs : list AccountBlock.t) :
  ReadRange scanned None = Ok chunks →
  match last scanned with
  | Some buf => BlockType buf = BlockTypeSnapshotBlock
  | None => True
  end →
  trailing ≠ [] →
  Forall2 accountBuffer trailing abs →
  let lastChunk := SnapshotChunk.mk None abs in
  abs ≠ []
  ∧ ReadRange (scanned ++ trailing) None = Ok (chunks ++ [lastChunk])
  ∧ PrepareRollback (scanned ++ trailing) None = Ok (chunks ++ [lastChunk]).
Proof.
  intros Hscan Hlast Htrail Hall lastChunk.
  assert (collectChunks scanned [] None = Ok (chunks, None)) as Hpre.
  { revert Hscan. unfold ReadRange.
    destruct (collectChunks scanned [] None) as [[sl s]|e] eqn:Hc; [|done].
    simpl. assert (s = None) as ->.
    { eapply collectChunks_closed; [|exact Hc]. by destruct (last scanned). }
    by intros [= <-]. }
  assert (collectChunks (scanned ++ trailing) [] None
          = Ok (chunks, Some lastChunk)) as Hboth.
  { rewrite collectChunks_app, Hpre.
    destruct Hall as [|buf ab trailing abs [Htag (sBuf & Hdec & Hab)] Hall];
      [done|].
    simpl. rewrite Hdec, Htag. rewrite decide_False by done.
    rewrite decide_True by done. rewrite Hab. simpl.
    by rewrite (collectChunks_accounts Htags trailing abs). }
  split; [by destruct Hall|].
  unfold ReadRange, PrepareRollback. by rewrite Hboth.
Qed.

End BlockLog.

(** ** The block log on the reference instances *)

Lemma reference_fileManager_laws :
  ChainBlock.FileManagerLaws Reference.fileManager.
Proof.
  constructor; simpl.
  - intros buf records fm' loc [= <- <-]. simpl.
    rewrite Nat2Z.id, lookup_app_r, Nat.sub_diag by done. simpl.
    by rewrite length_app, Nat.add_1_r.
  - intros buf records fm' loc [= <- <-]. simpl.
    rewrite Nat2Z.id, lookup_app_r, Nat.sub_diag by done. simpl.
    by rewrite length_app, Nat.add_1_r.
  - intros buf records fm' loc l r [= <- <-].
    destruct (records !! Z.to_nat (ChainBlock.Offset l)) as [b|] eqn:Hb;
      [|done].
    intros [= <-]. by rewrite (lookup_app_l_Some _ _ _ _ Hb).
Qed.

Lemma reference_blockCodec_laws : ChainBlock.BlockCodecLaws Reference.blockCodec.
Proof.
  constructor; simpl.
  - done.
  - intros [bt hash height addr from [logHash|] [|sb sends] [|d data]] buf;
      try done.
    case_decide as H; [|done]. destruct H as (-> & -> & -> & ->).
    by intros [= <-].
  - intros [hash height [|d data]] buf; [|done].
    case_decide as H; [|done]. subst. by intros [= <-].
  - done.
Qed.

Lemma option_result_pair_eta {A B S} (r : option (result (A * B) * S))
  (a : A) (b : B) (s : S) :
  (r ≫= fun p => Some (isOk p.1)) = Some true →
  r = Some (Ok (match r with Some (Ok x, _) => x.1 | _ => a end,
                match r with Some (Ok x, _) => x.2 | _ => b end),
            match r with Some (_, s') => s' | None => s end).
Proof. by destruct r as [[[[? ?]|?] ?]|]. Qed.

Lemma write_appends_account_blocks_then_snapshot_witness :
  let ss := Reference.demoChunk1 in
  let bDB := Reference.demoBlockDB in
  let locs :=
    match Reference.demoWrite with Some (Ok x, _) => x.1 | _ => ∅ end in
  let sloc :=
    match Reference.demoWrite with
    | Some (Ok x, _) => x.2
    | _ => ChainBlock.mkLocation 0 0
    end in
  let bDB' :=
    match Reference.demoWrite with Some (_, s) => s | None => bDB end in
  @ChainBlock.Write Reference.fileManager Reference.blockCodec ss bDB
  = Some (Ok (locs, sloc), bDB')
  ∧ ∃ sb arecords srecord alocs,
      SnapshotChunk.SnapshotBlock ss = Some sb
      ∧ Forall2 (fun ab record =>
                   @ChainBlock.unitRecord Reference.blockCodec
                     (None, Some ab) record)
          (SnapshotChunk.AccountBlocks ss) arecords
      ∧ @ChainBlock.unitRecord Reference.blockCodec (Some sb, None) srecord
      ∧ @ChainBlock.fm_WriteAll Reference.fileManager
          (arecords ++ [srecord]) (ChainBlock.fm bDB)
        = (Ok (alocs ++ [sloc]), ChainBlock.fm bDB')
      ∧ length alocs = length (SnapshotChunk.AccountBlocks ss)
      ∧ (∀ hash, is_Some (locs !! hash) ↔
                 hash ∈ AccountBlock.Hash <$> SnapshotChunk.AccountBlocks ss)
      ∧ (∀ i ab,
           SnapshotChunk.AccountBlocks ss !! i = Some ab →
           (∀ j ab', i < j → SnapshotChunk.AccountBlocks ss !! j = Some ab' →
                     AccountBlock.Hash ab' ≠ AccountBlock.Hash ab) →
           locs !! AccountBlock.Hash ab = alocs !! i).
Proof.
  intros ss bDB locs sloc bDB'.
  assert (@ChainBlock.Write Reference.fileManager Reference.blockCodec ss bDB
          = Some (Ok (locs, sloc), bDB')) as Hw.
  { apply (option_result_pair_eta Reference.demoWrite ∅
             (ChainBlock.mkLocation 0 0) bDB).
    vm_compute. reflexivity. }
  split; [exact Hw|].
  exact (@write_appends_account_blocks_then_snapshot Reference.fileManager
           Reference.blockCodec ss bDB bDB' locs sloc Hw).
Defined.

Lemma written_records_read_back_witness :
  let ss := Reference.demoChunk1 in
  let chunks := [Reference.demoChunk2] in
  let bDB := Reference.demoBlockDB in
  let written :=
    match Reference.demoWriteChunks with Some (Ok x, _) => x | _ => [] end in
  let out := default (∅, ChainBlock.mkLocation 0 0) (head written) in
  let outs := tail written in
  let bDB' :=
    match Reference.demoWriteChunks with Some (_, s) => s | None => bDB end in
  @ChainBlock.WriteChunks Reference.fileManager Reference.blockCodec
    (ss :: chunks) bDB = Some (Ok (out :: outs), bDB')
  ∧ NoDup (AccountBlock.Hash <$> SnapshotChunk.AccountBlocks ss)
  ∧ ∃ first,
      ChainBlock.firstLocation ss out = Some first
      ∧ @ChainBlock.ReadUnits Reference.fileManager Reference.blockCodec
          (length ((ss :: chunks) ≫= ChainBlock.chunkUnits)) first bDB'
        = Ok ((ss :: chunks) ≫= ChainBlock.chunkUnits).
Proof.
  intros ss chunks bDB written out outs bDB'.
  assert (@ChainBlock.WriteChunks Reference.fileManager Reference.blockCodec
            (ss :: chunks) bDB = Some (Ok (out :: outs), bDB')) as Hw.
  { reflexivity. }
  assert (NoDup (AccountBlock.Hash <$> SnapshotChunk.AccountBlocks ss)) as Hnd.
  { apply (bool_decide_unpack _). vm_compute. exact I. }
  split; [exact Hw|]. split; [exact Hnd|].
  exact (@written_records_read_back Reference.fileManager Reference.blockCodec
           reference_fileManager_laws reference_blockCodec_laws
           ss chunks bDB bDB' out outs Hw Hnd).
Defined.

Lemma trailing_account_blocks_form_last_chunk_witness :
  let scanned := Reference.demoScanned in
  let trailing := Reference.demoTrailing in
  let chunks :=
    [SnapshotChunk.mk (Some (Reference.hashOnlySnapshotBlock [x53; x31]))
       [Reference.hashOnlyAccountBlock [x61]]] in
  let abs :=
    [Reference.hashOnlyAccountBlock [x63];
     Reference.hashOnlyAccountBlock [x64]] in
  let lastChunk := SnapshotChunk.mk None abs in
  @ChainBlock.BlockTypeAccountBlock Reference.blockCodec
  ≠ @ChainBlock.BlockTypeSnapshotBlock Reference.blockCodec
  ∧ @ChainBlock.ReadRange Reference.blockCodec scanned None = Ok chunks
  ∧ match last scanned with
    | Some buf =>
        ChainBlock.BlockType buf
        = @ChainBlock.BlockTypeSnapshotBlock Reference.blockCodec
    | None => True
    end
  ∧ trailing ≠ []
  ∧ Forall2 (@ChainBlock.accountBuffer Reference.blockCodec) trailing abs
  ∧ abs ≠ []
  ∧ @ChainBlock.ReadRange Reference.blockCodec (scanned ++ trailing) None
    = Ok (chunks ++ [lastChunk])
  ∧ @ChainBlock.PrepareRollback Reference.blockCodec (scanned ++ trailing)
      None
    = Ok (chunks ++ [lastChunk]).
Proof.
  intros scanned trailing chunks abs lastChunk.
  assert (Forall2 (@ChainBlock.accountBuffer Reference.blockCodec)
            trailing abs) as Hall.
  { repeat constructor; by eexists. }
  split; [discriminate|]. split; [reflexivity|]. split; [reflexivity|].
  split; [discriminate|]. split; [exact Hall|].
  exact (@trailing_account_blocks_form_last_chunk Reference.blockCodec
           ltac:(discriminate) scanned trailing chunks abs eq_refl eq_refl
           ltac:(discriminate) Hall).
Defined.

(** ** The block log: single reads, chunk reads, failed writes *)

Section BlockReads.
Import ChainBlock.
Context {F : FileManager} {C : BlockCodec}.

(** [ReadUnit] never returns two blocks. *)
Lemma ReadUnit_exclusive (location next : Location) (bDB : BlockDB)
  (sb : option SnapshotBlock.t) (ab : option AccountBlock.t) :
  ReadUnit location bDB = Ok (sb, ab, next) → sb = None ∨ ab = None.
Proof.
  unfold ReadUnit.
  destruct (fm_Read location (fm bDB)) as [[buf nextLocation]|e]; simpl;
    [|done].
  destruct buf as [|blockType payload]; [intros [= <- <- <-]; by left|].
  destruct (snappy_Decode payload) as [sBuf|e]; simpl; [|done].
  case_decide.
  { destruct (SnapshotBlock_Deserialize sBuf); simpl; [|done].
    intros [= <- <- <-]. by right. }
  case_decide.
  { destruct (AccountBlock_Deserialize sBuf); simpl; [|done].
    intros [= <- <- <-]. by left. }
  intros [= <- <- <-]. by left.
Qed.

(** X1.  The three single-record readers agree.  [Read] returns the bytes
    [ReadUnitBytes] returns (and fails when it fails); when [ReadUnitBytes]
    fails [ReadUnit] fails with the same error; and what [ReadUnit] returns
    is at most one block, the one the bytes of [ReadUnitBytes] deserialise
    to, with the same next location. *)
Theorem single_record_readers_agree (location : Location) (bDB : BlockDB) :
  Read location bDB = (ReadUnitBytes location bDB ≫= fun r => Ok r.1)
  ∧ (∀ err, ReadUnitBytes location bDB = Err err →
            ReadUnit location bDB = Err err)
  ∧ (∀ sb ab next,
       ReadUnit location bDB = Ok (sb, ab, next) →
       (sb = None ∨ ab = None)
       ∧ ∃ sBuf,
           ReadUnitBytes location bDB = Ok (sBuf, next)
           ∧ (∀ b, sb = Some b → SnapshotBlock_Deserialize sBuf = Ok b)
           ∧ (∀ b, ab = Some b → AccountBlock_Deserialize sBuf = Ok b)).
Proof.
  split; [|split].
  - unfold Read, ReadUnitBytes.
    destruct (fm_Read location (fm bDB)) as [[buf next]|e]; simpl; [|done].
    destruct buf as [|blockType payload]; [done|].
    destruct (snappy_Decode payload); simpl; done.
  - intros err. unfold ReadUnitBytes, ReadUnit.
    destruct (fm_Read location (fm bDB)) as [[buf next]|e]; simpl;
      [|by intros [= ->]].
    destruct buf as [|blockType payload]; [done|].
    destruct (snappy_Decode payload); simpl; [done | by intros [= ->]].
  - intros sb ab next Hunit.
    split; [by eapply ReadUnit_exclusive|].
    revert Hunit. unfold ReadUnitBytes, ReadUnit.
    destruct (fm_Read location (fm bDB)) as [[buf nextLocation]|e]; simpl;
      [|done].
    destruct buf as [|blockType payload].
    { intros [= <- <- <-]. by exists []. }
    destruct (snappy_Decode payload) as [sBuf|e]; simpl; [|done].
    case_decide.
    { destruct (SnapshotBlock_Deserialize sBuf) as [b|e] eqn:Hb; simpl;
        [|done].
      intros [= <- <- <-]. exists sBuf.
      split; [done|]. split; [by intros ? [= <-] | done]. }
    case_decide.
    { destruct (AccountBlock_Deserialize sBuf) as [b|e] eqn:Hb; simpl;
        [|done].
      intros [= <- <- <-]. exists sBuf.
      split; [done|]. split; [done | by intros ? [= <-]]. }
    intros [= <- <- <-]. by exists sBuf.
Qed.

(** Appends keep what was readable. *)
Lemma fm_WriteAll_stable (L : FileManagerLaws F) (bufs : list bytes)
  (fm0 fm1 : FM) (locs : list Location) (l : Location)
  (r : bytes * Location) :
  fm_WriteAll bufs fm0 = (Ok locs, fm1) →
  fm_Read l fm0 = Ok r → fm_Read l fm1 = Ok r.
Proof.
  revert fm0 locs. induction bufs as [|buf bufs IH]; intros fm0 locs; simpl.
  - by intros [= <- <-].
  - destruct (fm_Write buf fm0) as [[loc|e] fm'] eqn:Hw; [|done].
    destruct (fm_WriteAll bufs fm') as [[locs'|e] fm''] eqn:Hall; [|done].
    intros [= <- <-] Hread. eapply IH; [done|]. by eapply fm_read_stable.
Qed.

(** Every location a sequence of appends returns reads back its record. *)
Lemma fm_WriteAll_read (L : FileManagerLaws F) (bufs : list bytes)
  (fm0 fm1 : FM) (locs : list Location) (i : nat) (loc : Location) :
  fm_WriteAll bufs fm0 = (Ok locs, fm1) →
  locs !! i = Some loc →
  ∃ buf next, bufs !! i = Some buf ∧ fm_Read loc fm1 = Ok (buf, next).
Proof.
  revert fm0 locs i. induction bufs as [|buf bufs IH]; intros fm0 locs i; simpl.
  - by intros [= <- <-].
  - destruct (fm_Write buf fm0) as [[loc0|e] fm'] eqn:Hw; [|done].
    destruct (fm_WriteAll bufs fm') as [[locs'|e] fm''] eqn:Hall; [|done].
    intros [= <- <-] Hi. destruct i as [|i]; simpl in *.
    + injection Hi as ->. exists buf, (fm_LatestLocation fm').
      split; [done|].
      eapply fm_WriteAll_stable; [done..|]. by eapply fm_read_written.
    + by eapply IH.
Qed.

(** X2.  When the file manager keeps the contract of the segment store and
    decoding inverts encoding, every location a successful [Write] returns
    gives random access to its block: [ReadUnit] at the location of the
    snapshot block returns that block and, as next location, the write
    head; [ReadUnit] at the location the map holds for the hash of an
    account block returns that account block (the last one, if several of
    the chunk share the hash). *)
Theorem write_locations_read_back (LF : FileManagerLaws F)
  (LC : BlockCodecLaws C) (ss : SnapshotChunk.t) (bDB bDB' : BlockDB)
  (locs : gmap types.Hash Location) (sloc : Location) :
  Write ss bDB = Some (Ok (locs, sloc), bDB') →
  (∃ sb,
     SnapshotChunk.SnapshotBlock ss = Some sb
     ∧ ReadUnit sloc bDB'
       = Ok (Some sb, None, fm_LatestLocation (fm bDB')))
  ∧ (∀ i ab,
       SnapshotChunk.AccountBlocks ss !! i = Some ab →
       (∀ j ab', i < j → SnapshotChunk.AccountBlocks ss !! j = Some ab' →
                 AccountBlock.Hash ab' ≠ AccountBlock.Hash ab) →
       ∃ loc next,
         locs !! AccountBlock.Hash ab = Some loc
         ∧ ReadUnit loc bDB' = Ok (None, Some ab, next)).
Proof.
  intros Hw.
  apply Write_inv in Hw
    as (sb & arecords & srecord & alocs & Hsb & Harec & Hsrec & Hall & Hlen
        & ->).
  split.
  - exists sb. split; [done|].
    apply (ReadUnit_record LC bDB' sloc _ srecord (Some sb, None) Hsrec).
    rewrite fm_WriteAll_app in Hall.
    destruct (fm_WriteAll arecords (fm bDB)) as [[locs1|e] fm1]; [|done].
    simpl in Hall.
    destruct (fm_Write srecord fm1) as [[loc|e] fm2] eqn:Hlast; [|done].
    injection Hall as Hlocs <-.
    apply app_inj_tail in Hlocs as [_ ->]. by eapply fm_read_written.
  - intros i ab Hi Hlastone.
    rewrite (locations_lookup _ alocs i ab Hlen Hi Hlastone).
    destruct (alocs !! i) as [loc|] eqn:Hloc.
    2:{ apply lookup_ge_None in Hloc. apply lookup_lt_Some in Hi. lia. }
    destruct (fm_WriteAll_read LF _ _ _ _ i loc Hall) as (buf & next & Hbuf & Hread).
    { by rewrite lookup_app_l by (by eapply lookup_lt_Some). }
    exists loc, next. split; [done|].
    destruct (Forall2_lookup_l _ _ _ i ab Harec Hi) as (record & Hrecord & Hu).
    rewrite lookup_app_l in Hbuf by (by eapply lookup_lt_Some).
    rewrite Hrecord in Hbuf. injection Hbuf as <-.
    by apply (ReadUnit_record LC bDB' loc next record (None, Some ab)).
Qed.

(** *** [ReadChunk] *)

(** On the records of a chunk, found in sequence from [location]: the loop
    returns the chunk and stops where the records that follow begin. *)
Lemma ReadChunk_loop_records (L : BlockCodecLaws C) (bDB : BlockDB)
  (sb : SnapshotBlock.t) (abs acc : list AccountBlock.t)
  (records more : list bytes) (location : Location) (fuel : nat) :
  Forall2 unitRecord
    (chunkUnits (SnapshotChunk.mk (Some sb) abs)) records →
  readsFrom (fm bDB) location (records ++ more) →
  length abs < fuel →
  ∃ next,
    ReadChunk_loop fuel location acc bDB =
    Some (Ok (SnapshotChunk.mk (Some sb) (acc ++ abs), next))
    ∧ readsFrom (fm bDB) next more.
Proof.
  unfold chunkUnits. simpl.
  revert acc records location fuel.
  induction abs as [|ab abs IH]; intros acc records location fuel Hrec Hreads
    Hfuel; simpl in *.
  - destruct fuel as [|fuel]; [lia|].
    apply Forall2_cons_inv_l in Hrec as (record & rest & Hu & Hrest & ->).
    apply Forall2_nil_inv_l in Hrest as ->.
    destruct Hreads as (next & Hread & Hmore). exists next. simpl.
    rewrite (ReadUnit_record L bDB location _ record (Some sb, None) Hu Hread).
    simpl. by rewrite app_nil_r.
  - destruct fuel as [|fuel]; [lia|].
    apply Forall2_cons_inv_l in Hrec as (record & rest & Hu & Hrest & ->).
    destruct Hreads as (next & Hread & Hreads). simpl.
    rewrite (ReadUnit_record L bDB location _ record (None, Some ab) Hu Hread).
    simpl.
    destruct (IH (acc ++ [ab]) rest next fuel Hrest Hreads) as (last & -> & ?);
      [lia|].
    exists last. by rewrite <- app_assoc.
Qed.

Lemma ReadChunks_records (L : BlockCodecLaws C) (bDB : BlockDB)
  (chunks : list SnapshotChunk.t) (records : list bytes)
  (location : Location) (fuel : nat) :
  Forall2 unitRecord (chunks ≫= chunkUnits) records →
  readsFrom (fm bDB) location records →
  Forall (fun chunk => length (SnapshotChunk.AccountBlocks chunk) < fuel)
    chunks →
  ReadChunks fuel (length chunks) location bDB =
  Some (Ok (chunks, fm_LatestLocation (fm bDB))).
Proof.
  revert records location.
  induction chunks as [|[sbo abs] chunks IH]; intros records location; csimpl.
  - intros Hrec. apply Forall2_nil_inv_l in Hrec as ->. simpl.
    by intros -> _.
  - intros Hrec Hreads Hfuel.
    apply Forall_cons in Hfuel as [Hfuel Hfuels]. simpl in Hfuel.
    apply Forall2_app_inv_l in Hrec as (r1 & r2 & Hone & Hrest & ->).
    destruct sbo as [sb|].
    2:{ exfalso. unfold chunkUnits in Hone. simpl in Hone.
        apply Forall2_app_inv_l in Hone as (? & ? & _ & Hlast & _).
        apply Forall2_cons_inv_l in Hlast as (? & ? & Hu & _). exact Hu. }
    destruct (ReadChunk_loop_records L bDB sb abs [] r1 r2 location fuel
                Hone Hreads Hfuel) as (next & Hchunk & Hmore).
    unfold ReadChunk. rewrite Hchunk. simpl.
    by rewrite (IH r2 next Hrest Hmore Hfuels).
Qed.

(** X3.  When the file manager keeps the contract of the segment store and
    decoding inverts encoding, the chunks written one after the other by
    [Write] are read back by [ReadChunk], chunk by chunk: starting at the
    location of the first record and continuing at the location each call
    returns, it returns the same chunks in the same order, each with its
    account blocks and its snapshot block, and ends at the write head.
    Each call ends after one read per record of its chunk. *)
Theorem written_chunks_read_back_chunk_by_chunk (LF : FileManagerLaws F)
  (LC : BlockCodecLaws C) (ss : SnapshotChunk.t)
  (chunks : list SnapshotChunk.t) (bDB bDB' : BlockDB)
  (out : gmap types.Hash Location * Location)
  (outs : list (gmap types.Hash Location * Location)) (fuel : nat) :
  WriteChunks (ss :: chunks) bDB = Some (Ok (out :: outs), bDB') →
  NoDup (AccountBlock.Hash <$> SnapshotChunk.AccountBlocks ss) →
  Forall (fun chunk => length (SnapshotChunk.AccountBlocks chunk) < fuel)
    (ss :: chunks) →
  ∃ first,
    firstLocation ss out = Some first
    ∧ ReadChunks fuel (length (ss :: chunks)) first bDB'
      = Some (Ok (ss :: chunks, fm_LatestLocation (fm bDB'))).
Proof.
  intros Hw Hnd Hfuel.
  apply WriteChunks_records in Hw as (records & locs & Hrec & Hall & _ & Hfirst).
  specialize (Hfirst ss out eq_refl eq_refl Hnd).
  destruct records as [|record records].
  { apply Forall2_length in Hrec. csimpl in Hrec. unfold chunkUnits in Hrec.
    rewrite !length_app in Hrec. simpl in Hrec. lia. }
  destruct locs as [|loc locs].
  { simpl in Hall. destruct (fm_Write record _) as [[?|?] ?]; [|done].
    by destruct (fm_WriteAll records _) as [[?|?] ?]. }
  exists loc. split; [done|].
  apply (ReadChunks_records LC bDB' _ (record :: records)); [done | | done].
  by eapply readsFrom_first.
Qed.

(** What a successful run of the loop of [ReadChunk] has read. *)
Lemma ReadChunk_loop_inv (bDB : BlockDB) (fuel : nat) (location next : Location)
  (acc : list AccountBlock.t) (chunk : SnapshotChunk.t) :
  ReadChunk_loop fuel location acc bDB = Some (Ok (chunk, next)) →
  ∃ sb abs,
    chunk = SnapshotChunk.mk (Some sb) (acc ++ abs)
    ∧ ReadUnits (S (length abs)) location bDB
      = Ok (map (fun ab => (None, Some ab)) abs ++ [(Some sb, None)])
    ∧ length abs < fuel
    ∧ ∀ fuel', fuel ≤ fuel' →
        ReadChunk_loop fuel' location acc bDB = Some (Ok (chunk, next)).
Proof.
  revert location acc.
  induction fuel as [|fuel IH]; intros location acc; simpl; [done|].
  destruct (ReadUnit location bDB) as [[[sb ab] nextLocation]|e] eqn:Hunit;
    [|done].
  destruct ab as [ab|].
  - intros Hloop.
    destruct (ReadUnit_exclusive _ _ _ _ _ Hunit) as [->|?]; [|done].
    apply IH in Hloop as (sb' & abs & -> & Hunits & Hlen & Hmore).
    exists sb', (ab :: abs). split; [by rewrite <- app_assoc|].
    split; [|split; [simpl; lia|]].
    + change (length (ab :: abs)) with (S (length abs)). by rewrite Hunits.
    + intros [|fuel'] Hle; [lia|]. simpl. rewrite Hunit. apply Hmore. lia.
  - destruct sb as [sb|]; [|done].
    intros [= <- <-]. exists sb, []. split; [by rewrite app_nil_r|].
    split; [done|]. split; [simpl; lia|].
    intros [|fuel'] Hle; [lia|]. simpl. by rewrite Hunit.
Qed.

(** X4.  A chunk [ReadChunk] returns always has its snapshot block, and is
    what [ReadUnit] reads in sequence from the same location: its account
    blocks, one record each, then the snapshot block.  The loop has read
    one record per block, and any larger bound on the number of reads
    gives the same result. *)
Theorem read_chunk_reads_whole_chunk (bDB : BlockDB) (fuel : nat)
  (location next : Location) (chunk : SnapshotChunk.t) :
  ReadChunk fuel location bDB = Some (Ok (chunk, next)) →
  is_Some (SnapshotChunk.SnapshotBlock chunk)
  ∧ ReadUnits (length (chunkUnits chunk)) location bDB = Ok (chunkUnits chunk)
  ∧ length (chunkUnits chunk) ≤ fuel
  ∧ ∀ fuel', fuel ≤ fuel' →
      ReadChunk fuel' location bDB = Some (Ok (chunk, next)).
Proof.
  intros Hloop.
  apply ReadChunk_loop_inv in Hloop as (sb & abs & -> & Hunits & Hlen & Hmore).
  simpl in *. unfold chunkUnits. simpl.
  rewrite length_app, length_map, Nat.add_1_r.
  split; [by eexists|]. split; [done|]. split; [lia | exact Hmore].
Qed.

(** What makes the loop of [ReadChunk] return an error. *)
Lemma ReadChunk_loop_err (bDB : BlockDB) (fuel : nat) (location : Location)
  (acc : list AccountBlock.t) (err : error) :
  ReadChunk_loop fuel location acc bDB = Some (Err err) →
  ∃ location',
    ReadUnit location' bDB = Err err
    ∨ (err = errorNew "not a chunk"
       ∧ ∃ next, ReadUnit location' bDB = Ok (None, None, next)).
Proof.
  revert location acc.
  induction fuel as [|fuel IH]; intros location acc; simpl; [done|].
  destruct (ReadUnit location bDB) as [[[sb ab] nextLocation]|e] eqn:Hunit.
  - destruct ab as [ab|]; [by apply IH|].
    destruct sb as [sb|]; [done|].
    intros [= <-]. exists location. right. split; [done|]. by exists nextLocation.
  - intros [= <-]. exists location. by left.
Qed.

(** X5.  [ReadChunk] fails in two ways only: with the error of a
    [ReadUnit] of the sequence, or with "not a chunk" at a record that is
    neither an account block nor a snapshot block (an empty record, or one
    with an unknown tag); a record of that kind at the start location
    gives "not a chunk" at once. *)
Theorem read_chunk_errors (bDB : BlockDB) (location : Location) :
  (∀ fuel err,
     ReadChunk fuel location bDB = Some (Err err) →
     ∃ location',
       ReadUnit location' bDB = Err err
       ∨ (err = errorNew "not a chunk"
          ∧ ∃ next, ReadUnit location' bDB = Ok (None, None, next)))
  ∧ (∀ fuel next,
       ReadUnit location bDB = Ok (None, None, next) →
       ReadChunk (S fuel) location bDB = Some (Err (errorNew "not a chunk")))
  ∧ (∀ fuel err,
       ReadUnit location bDB = Err err →
       ReadChunk (S fuel) location bDB = Some (Err err)).
Proof.
  split; [|split].
  - intros fuel err. apply ReadChunk_loop_err.
  - intros fuel next Hunit. unfold ReadChunk. simpl. by rewrite Hunit.
  - intros fuel err Hunit. unfold ReadChunk. simpl. by rewrite Hunit.
Qed.

(** *** A [Write] that fails part-way *)

Lemma writeAccountBlocks_app (pre rest : list AccountBlock.t)
  (records : list bytes) (alocs : list Location)
  (locs : gmap types.Hash Location) (fm0 fm1 : FM) :
  Forall2 (fun ab record => unitRecord (None, Some ab) record) pre records →
  fm_WriteAll records fm0 = (Ok alocs, fm1) →
  ∃ locs1, writeAccountBlocks (pre ++ rest) locs fm0
           = writeAccountBlocks rest locs1 fm1.
Proof.
  intros Hrec. revert alocs locs fm0.
  induction Hrec as [|ab record pre records (buf & Hser & ->) Hrec IH];
    intros alocs locs fm0; simpl.
  - intros [= <- <-]. by exists locs.
  - rewrite Hser.
    destruct (fm_Write _ fm0) as [[loc|e] fm'] eqn:Hw; [|done].
    destruct (fm_WriteAll records fm') as [[locs'|e] fm''] eqn:Hall; [|done].
    intros [= <- <-]. by eapply IH.
Qed.

(** X6.  [Write] does not undo what it has appended.  When the account
    blocks before one of the chunk have been appended and that one does not
    serialise, or the file manager refuses its record, [Write] returns the
    error of that step, whatever follows in the chunk and whether or not
    the chunk has a snapshot block; the records of the earlier account
    blocks stay appended. *)
Theorem write_failure_keeps_earlier_records (ss : SnapshotChunk.t)
  (bDB : BlockDB) (pre rest : list AccountBlock.t) (bad : AccountBlock.t)
  (records : list bytes) (alocs : list Location) (fm1 : FM) :
  SnapshotChunk.AccountBlocks ss = pre ++ bad :: rest →
  Forall2 (fun ab record => unitRecord (None, Some ab) record) pre records →
  fm_WriteAll records (fm bDB) = (Ok alocs, fm1) →
  (∀ err,
     AccountBlock_Serialize bad = Err err →
     Write ss bDB =
     Some (Err (Errorf "ss.AccountBlocks.Serialize failed, error is %s, accountBlock is %+v" err),
           set_fm fm1 bDB))
  ∧ (∀ buf err fm2,
       AccountBlock_Serialize bad = Ok buf →
       fm_Write (makeWriteBytes BlockTypeAccountBlock buf) fm1 = (Err err, fm2) →
       Write ss bDB =
       Some (Err (Errorf "bDB.fm.Write failed, error is %s, accountBlock is %+v" err),
             set_fm fm2 bDB)).
Proof.
  intros Habs Hrec Hall.
  destruct (writeAccountBlocks_app pre (bad :: rest) records alocs ∅
              (fm bDB) fm1 Hrec Hall) as [locs1 Happ].
  split.
  - intros err Hser. unfold Write. rewrite Habs, Happ. simpl. by rewrite Hser.
  - intros buf err fm2 Hser Hw. unfold Write. rewrite Habs, Happ. simpl.
    by rewrite Hser, Hw.
Qed.

(** *** Range reads: errors and the shape of the result *)

(** X7.  [PrepareRollback] returns what [ReadRange] returns for the same
    buffers and the same producer error: that the one appends the pending
    chunk before it looks at the producer error, and the other after,
    makes no difference. *)
Theorem prepare_rollback_is_read_range (bufs : list parsedBuffer)
  (bfpError : option error) :
  PrepareRollback bufs bfpError = ReadRange bufs bfpError.
Proof.
  unfold PrepareRollback, ReadRange.
  destruct (collectChunks bufs [] None) as [[segList seg]|e]; simpl; [|done].
  by destruct bfpError, seg.
Qed.

(** Whether the loop gets through the buffers does not depend on the chunks
    assembled so far. *)
Lemma collectChunks_isOk (bufs : list parsedBuffer)
  (segList segList' : list SnapshotChunk.t)
  (seg seg' : option SnapshotChunk.t) :
  isOk (collectChunks bufs segList seg)
  = isOk (collectChunks bufs segList' seg').
Proof.
  revert segList segList' seg seg'.
  induction bufs as [|buf bufs IH]; intros segList segList' seg seg'; simpl;
    [done|].
  destruct (snappy_Decode (Buffer buf)); [|done].
  case_decide; [destruct (SnapshotBlock_Deserialize _); [apply IH|done]|].
  case_decide; [destruct (AccountBlock_Deserialize _); [apply IH|done]|].
  apply IH.
Qed.

Lemma ReadRange_isOk (bufs : list parsedBuffer) :
  isOk (ReadRange bufs None) = isOk (collectChunks bufs [] None).
Proof.
  unfold ReadRange.
  destruct (collectChunks bufs [] None) as [[segList seg]|e]; simpl; [|done].
  by destruct seg.
Qed.

Lemma collectChunks_fails (buf : parsedBuffer) (rest : list parsedBuffer)
  (segList : list SnapshotChunk.t) (seg : option SnapshotChunk.t)
  (err : error) :
  bufferFails buf err → collectChunks (buf :: rest) segList seg = Err err.
Proof.
  intros [Hdec|(sBuf & Hdec & [[Htag Hsb]|(Hntag & Htag & Hab)])]; simpl;
    rewrite Hdec; [done|..].
  - rewrite decide_True by done. by rewrite Hsb.
  - rewrite decide_False by done. rewrite decide_True by done. by rewrite Hab.
Qed.

Lemma collectChunks_err (bufs : list parsedBuffer)
  (segList : list SnapshotChunk.t) (seg : option SnapshotChunk.t)
  (err : error) :
  collectChunks bufs segList seg = Err err ↔
  ∃ scanned bad rest,
    bufs = scanned ++ bad :: rest
    ∧ isOk (collectChunks scanned [] None) = true
    ∧ bufferFails bad err.
Proof.
  split.
  - revert segList seg.
    induction bufs as [|buf bufs IH]; intros segList seg; simpl; [done|].
    assert (∀ sl s, collectChunks bufs sl s = Err err →
              (∃ sBuf, snappy_Decode (Buffer buf) = Ok sBuf) →
              isOk (collectChunks [buf] [] None) = true →
              ∃ scanned bad rest,
                buf :: bufs = scanned ++ bad :: rest
                ∧ isOk (collectChunks scanned [] None) = true
                ∧ bufferFails bad err) as Hnext.
    { intros sl s Herr _ Hok.
      apply IH in Herr as (scanned & bad & rest & -> & Hscanned & Hbad).
      exists (buf :: scanned), bad, rest. split; [done|]. split; [|done].
      change (buf :: scanned) with ([buf] ++ scanned).
      rewrite collectChunks_app.
      destruct (collectChunks [buf] [] None) as [[sl' s']|?]; [|done].
      by rewrite (collectChunks_isOk scanned sl' [] s' None). }
    destruct (snappy_Decode (Buffer buf)) as [sBuf|e] eqn:Hdec.
    2:{ intros [= <-]. exists [], buf, bufs. split; [done|]. split; [done|].
        by left. }
    case_decide as Htag.
    { destruct (SnapshotBlock_Deserialize sBuf) as [sb|e] eqn:Hsb.
      - intros Herr. eapply Hnext; [exact Herr | by eexists |].
        simpl. rewrite Hdec. rewrite decide_True by done. by rewrite Hsb.
      - intros [= <-]. exists [], buf, bufs. split; [done|]. split; [done|].
        right. exists sBuf. split; [done|]. by left. }
    case_decide as Htag'.
    { destruct (AccountBlock_Deserialize sBuf) as [ab|e] eqn:Hab.
      - intros Herr. eapply Hnext; [exact Herr | by eexists |].
        simpl. rewrite Hdec. rewrite decide_False by done.
        rewrite decide_True by done. by rewrite Hab.
      - intros [= <-]. exists [], buf, bufs. split; [done|]. split; [done|].
        right. exists sBuf. split; [done|]. by right. }
    intros Herr. eapply Hnext; [exact Herr | by eexists |].
    simpl. rewrite Hdec. rewrite decide_False by done.
    by rewrite decide_False by done.
  - intros (scanned & bad & rest & -> & Hok & Hbad).
    rewrite collectChunks_app.
    rewrite (collectChunks_isOk scanned [] segList None seg) in Hok.
    destruct (collectChunks scanned segList seg) as [[sl s]|?]; [|done].
    by apply collectChunks_fails.
Qed.

(** X8.  A range read fails in two ways only.  It returns the error of the
    first buffer that does not decompress or whose block does not
    deserialise, whatever buffers follow it and whatever the producer
    reports: a decode error anywhere aborts the whole read.  Otherwise it
    fails exactly when the producer reports an error, and returns that
    error, the chunks assembled being dropped. *)
Theorem range_read_errors (bufs : list parsedBuffer)
  (bfpError : option error) (err : error) :
  ReadRange bufs bfpError = Err err ↔
  (∃ scanned bad rest,
     bufs = scanned ++ bad :: rest
     ∧ isOk (ReadRange scanned None) = true
     ∧ bufferFails bad err)
  ∨ (isOk (ReadRange bufs None) = true ∧ bfpError = Some err).
Proof.
  split.
  - unfold ReadRange at 1.
    destruct (collectChunks bufs [] None) as [[segList seg]|e] eqn:Hc; simpl.
    + intros Herr. right. rewrite ReadRange_isOk, Hc. split; [done|].
      destruct bfpError as [e|]; [by injection Herr as -> | by destruct seg].
    + intros [= <-]. left.
      apply collectChunks_err in Hc as (scanned & bad & rest & ? & ? & ?).
      exists scanned, bad, rest. by rewrite ReadRange_isOk.
  - intros [(scanned & bad & rest & -> & Hok & Hbad)|[Hok ->]].
    + rewrite ReadRange_isOk in Hok. unfold ReadRange.
      assert (collectChunks (scanned ++ bad :: rest) [] None = Err err) as ->;
        [|done].
      apply collectChunks_err. by exists scanned, bad, rest.
    + rewrite ReadRange_isOk in Hok. unfold ReadRange.
      by destruct (collectChunks bufs [] None) as [[segList seg]|e].
Qed.

(** The loop keeps: every chunk of [segList] has its snapshot block, the
    pending chunk has none, and each buffer tagged as a snapshot block adds
    one chunk to [segList]. *)
Lemma collectChunks_shape (bufs : list parsedBuffer)
  (segList segList' : list SnapshotChunk.t)
  (seg seg' : option SnapshotChunk.t) :
  collectChunks bufs segList seg = Ok (segList', seg') →
  Forall (fun chunk => is_Some (SnapshotChunk.SnapshotBlock chunk)) segList →
  (∀ s, seg = Some s → SnapshotChunk.SnapshotBlock s = None) →
  Forall (fun chunk => is_Some (SnapshotChunk.SnapshotBlock chunk)) segList'
  ∧ (∀ s, seg' = Some s → SnapshotChunk.SnapshotBlock s = None)
  ∧ length segList' =
    length segList
    + length (filter (fun buf => BlockType buf = BlockTypeSnapshotBlock) bufs).
Proof.
  revert segList seg.
  induction bufs as [|buf bufs IH]; intros segList seg; simpl.
  - intros [= <- <-] Hall Hseg. split; [done|]. split; [done | lia].
  - destruct (snappy_Decode (Buffer buf)) as [sBuf|e]; [|done].
    intros Hc Hall Hseg.
    assert (SnapshotChunk.SnapshotBlock
              (default (SnapshotChunk.mk None []) seg) = None) as Hnone.
    { destruct seg as [s|]; [by apply Hseg | done]. }
    rewrite filter_cons. case_decide as Htag.
    + destruct (SnapshotBlock_Deserialize sBuf) as [sb|e]; [|done].
      apply IH in Hc as (Hall' & Hseg' & Hlen).
      * split; [done|]. split; [done|].
        rewrite Hlen, length_app. simpl. lia.
      * apply Forall_app. split; [done|]. constructor; [by eexists | done].
      * done.
    + case_decide as Htag'.
      * destruct (AccountBlock_Deserialize sBuf) as [ab|e]; [|done].
        apply IH in Hc as (Hall' & Hseg' & Hlen); [done | done |].
        intros s [= <-]. exact Hnone.
      * apply IH in Hc as (Hall' & Hseg' & Hlen); [done | done |].
        intros s [= <-]. exact Hnone.
Qed.

(** X9.  The chunks a range read returns are, in order, one chunk with its
    snapshot block for each buffer tagged as a snapshot block, followed by
    at most one further chunk, which has no snapshot block: only the last
    chunk of the result can be incomplete. *)
Theorem range_read_only_last_chunk_incomplete (bufs : list parsedBuffer)
  (bfpError : option error) (chunks : list SnapshotChunk.t) :
  ReadRange bufs bfpError = Ok chunks →
  ∃ complete,
    Forall (fun chunk => is_Some (SnapshotChunk.SnapshotBlock chunk)) complete
    ∧ length complete =
      length (filter (fun buf => BlockType buf = BlockTypeSnapshotBlock) bufs)
    ∧ (chunks = complete
       ∨ ∃ accountBlocks,
           chunks = complete ++ [SnapshotChunk.mk None accountBlocks]).
Proof.
  unfold ReadRange.
  destruct (collectChunks bufs [] None) as [[segList seg]|e] eqn:Hc; simpl;
    [|done].
  intros Hres.
  apply collectChunks_shape in Hc as (Hall & Hseg & Hlen); [|done..].
  destruct bfpError; [done|].
  exists segList. split; [done|]. split; [done|].
  destruct seg as [[sb abs]|]; injection Hres as <-; [right | by left].
  exists abs. by rewrite <- (Hseg _ eq_refl).
Qed.

(** The buffers of one chunk: its account blocks are gathered, its snapshot
    block closes it. *)
Lemma collectChunks_chunk (Htags : BlockTypeAccountBlock ≠ BlockTypeSnapshotBlock)
  (abufs : list parsedBuffer) (abs : list AccountBlock.t)
  (sbuf : parsedBuffer) (sb : SnapshotBlock.t)
  (segList : list SnapshotChunk.t) (seg : option SnapshotChunk.t) :
  Forall2 accountBuffer abufs abs →
  unitBuffer (Some sb, None) sbuf →
  collectChunks (abufs ++ [sbuf]) segList seg =
  Ok (segList
      ++ [SnapshotChunk.mk (Some sb)
            (SnapshotChunk.AccountBlocks
               (default (SnapshotChunk.mk None []) seg) ++ abs)],
      None).
Proof.
  intros Hall (Hstag & ssBuf & Hsdec & Hsb). revert seg.
  induction Hall as [|buf ab abufs abs [Htag (sBuf & Hdec & Hab)] Hall IH];
    intros seg; simpl.
  - rewrite Hsdec. rewrite decide_True by done. rewrite Hsb.
    by rewrite app_nil_r.
  - rewrite Hdec, Htag. rewrite decide_False by done.
    rewrite decide_True by done. rewrite Hab, IH. simpl.
    by rewrite <- app_assoc.
Qed.

Lemma Forall2_accountBuffer (abs : list AccountBlock.t)
  (bufs : list parsedBuffer) :
  Forall2 unitBuffer (map (fun ab => (None, Some ab)) abs) bufs →
  Forall2 accountBuffer bufs abs.
Proof.
  revert bufs. induction abs as [|ab abs IH]; intros bufs Hall; simpl in *.
  - apply Forall2_nil_inv_l in Hall as ->. constructor.
  - apply Forall2_cons_inv_l in Hall as (buf & rest & Hu & Hrest & ->).
    constructor; [exact Hu | by apply IH].
Qed.

Lemma collectChunks_chunks (Htags : BlockTypeAccountBlock ≠ BlockTypeSnapshotBlock)
  (chunks : list SnapshotChunk.t) (bufs : list parsedBuffer)
  (segList : list SnapshotChunk.t) :
  Forall2 unitBuffer (chunks ≫= chunkUnits) bufs →
  collectChunks bufs segList None = Ok (segList ++ chunks, None).
Proof.
  revert bufs segList.
  induction chunks as [|[sbo abs] chunks IH]; intros bufs segList; csimpl.
  - intros Hall. apply Forall2_nil_inv_l in Hall as ->. simpl.
    by rewrite app_nil_r.
  - unfold chunkUnits at 1. simpl. intros Hall.
    apply Forall2_app_inv_l in Hall as (b1 & brest & Hone & Hrest & ->).
    apply Forall2_app_inv_l in Hone as (abufs & sbufs & Habs & Hsb & ->).
    apply Forall2_cons_inv_l in Hsb as (sbuf & nil & Hsbuf & Hnil & ->).
    apply Forall2_nil_inv_l in Hnil as ->.
    destruct sbo as [sb|]; [|done].
    rewrite collectChunks_app.
    rewrite (collectChunks_chunk Htags abufs abs sbuf sb segList None
               (Forall2_accountBuffer _ _ Habs) Hsbuf).
    simpl. rewrite (IH brest _ Hrest). by rewrite <- app_assoc.
Qed.

(** X10.  Range reads invert the layout of [Write].  When the buffers
    delivered are those of the records of a list of chunks (for each
    chunk its account blocks in order, then its snapshot block) and the
    producer reports no error, [ReadRange] and [PrepareRollback] return
    exactly these chunks, in order. *)
Theorem range_read_regroups_chunks
  (Htags : BlockTypeAccountBlock ≠ BlockTypeSnapshotBlock)
  (chunks : list SnapshotChunk.t) (bufs : list parsedBuffer) :
  Forall2 unitBuffer (chunks ≫= chunkUnits) bufs →
  ReadRange bufs None = Ok chunks ∧ PrepareRollback bufs None = Ok chunks.
Proof.
  intros Hall. unfold ReadRange, PrepareRollback.
  by rewrite (collectChunks_chunks Htags chunks bufs [] Hall).
Qed.

End BlockReads.

(** *** The end of a range *)

Section RangeEnd.
Import ChainBlock.
Context {O : LocationOrder}.

(** X11.  [maxLocation] clamps the end of a range to the write head.  When
    the file manager has a latest location, the result is the requested
    location if there is one and it is not after the latest, and the latest
    location otherwise: it is never after the write head and never after
    the location asked for.  When the file manager has none, the request is
    returned as it is. *)
Theorem max_location_clamps_to_write_head (L : LocationOrderLaws O)
  (latest : Location) (location : option Location) :
  maxLocation None location = location
  ∧ ∃ r,
      maxLocation (Some latest) location = Some r
      ∧ (Compare r latest ≤ 0)%Z
      ∧ (r = latest ∨ location = Some r)
      ∧ (∀ loc, location = Some loc → (Compare r loc ≤ 0)%Z).
Proof.
  split; [by destruct location|].
  destruct location as [loc|]; simpl.
  - case_decide as Hcmp.
    + exists latest. split; [done|]. rewrite Compare_refl.
      split; [lia|]. split; [by left|].
      intros ? [= <-]. apply Compare_asym in Hcmp. lia.
    + exists loc. split; [done|]. split; [lia|]. split; [by right|].
      intros ? [= <-]. rewrite Compare_refl. lia.
  - exists latest. rewrite Compare_refl. split; [done|]. split; [lia|].
    split; [by left | done].
Qed.

End RangeEnd.

(** ** The state writer: success, deletions, panics, the read cache *)

Section StateWriterEdges.
Import ChainState.
Context {U : ChainUtils} {K : Collaborators}.

(** The vm-log step fails only when the log list is to be written and does
    not serialise. *)
Lemma writeVmLog_err (sDB : StateDB) (vmDb : VmDb.t) (ab : AccountBlock.t)
  (b : Batch) (e : error) :
  writeVmLog sDB vmDb ab b = Err e →
  AccountBlock.LogHash ab ≠ None
  ∧ canWriteVmLog sDB (AccountBlock.AccountAddress ab) = true
  ∧ VmLogListSerialize (VmDb.GetLogList vmDb) = Err e.
Proof.
  unfold writeVmLog.
  destruct (AccountBlock.LogHash ab) as [logHash|]; [|done].
  destruct (canWriteVmLog sDB _); [|done].
  destruct (VmLogListSerialize _); simpl; [done|].
  by intros [= <-].
Qed.

(** X12.  [Write] succeeds whenever the provider is writable, the log list
    serialises if it is to be written, and the provider knows the call
    depth if the block is a receive block with send blocks.  It then hands
    one batch to the store and one redo item to the redo manager under the
    address of the block; the item records the deltas of the provider as
    they are (storage pairs, balances, code), the contract metas as the
    stamped bytes the batch holds, and the height of the block. *)
Theorem write_succeeds_and_records_deltas (block : VmAccountBlock.t)
  (sDB : StateDB) :
  let vmDb := VmAccountBlock.VmDb block in
  let ab := VmAccountBlock.AccountBlock block in
  let addr := AccountBlock.AccountAddress ab in
  VmDb.CanWrite vmDb = true →
  (AccountBlock.LogHash ab ≠ None → canWriteVmLog sDB addr = true →
   isOk (VmLogListSerialize (VmDb.GetLogList vmDb)) = true) →
  (IsReceiveBlock ab = true → AccountBlock.SendBlockList ab ≠ [] →
   isOk (VmDb.GetCallDepth vmDb (AccountBlock.FromBlockHash ab)) = true) →
  ∃ batch redoLog cache',
    Write_body block sDB = (Ok (batch, redoLog), cache')
    ∧ Write block sDB =
      (None,
       {| store := store_WriteAccountBlock batch ab (store sDB);
          redo := redo_AddLog addr redoLog (redo sDB);
          roundCache := roundCache sDB;
          cache := cache'; vmLogAll := vmLogAll sDB;
          vmLogWhiteListSet := vmLogWhiteListSet sDB |})
    ∧ Storage redoLog = VmDb.GetUnsavedStorage vmDb
    ∧ BalanceMap redoLog = VmDb.GetUnsavedBalanceMap vmDb
    ∧ Code redoLog = VmDb.GetUnsavedContractCode vmDb
    ∧ ContractMeta redoLog
      = stampedMetaBytes ab <$> VmDb.GetUnsavedContractMeta vmDb
    ∧ Height redoLog = AccountBlock.Height ab.
Proof.
  intros vmDb ab addr Hcan Hlog Hdepth.
  assert (∃ batch redoLog cache',
            Write_body block sDB = (Ok (batch, redoLog), cache')
            ∧ Storage redoLog = VmDb.GetUnsavedStorage vmDb
            ∧ BalanceMap redoLog = VmDb.GetUnsavedBalanceMap vmDb
            ∧ Code redoLog = VmDb.GetUnsavedContractCode vmDb
            ∧ ContractMeta redoLog
              = stampedMetaBytes ab <$> VmDb.GetUnsavedContractMeta vmDb
            ∧ Height redoLog = AccountBlock.Height ab)
    as (batch & redoLog & cache' & Hbody & Hfields).
  { unfold Write_body. fold vmDb ab. rewrite Hcan. simpl.
    pose proof (Write_deltas_spec block sDB) as Hspec. cbv zeta in Hspec.
    fold vmDb ab addr in Hspec.
    destruct (Write_deltas block sDB) as [[[[pre c] rb] rc] rm].
    injection Hspec as _ _ -> -> ->. simpl.
    destruct (writeVmLog sDB vmDb ab pre) as [[logged rl]|e] eqn:Hl; simpl.
    2:{ apply writeVmLog_err in Hl as (Hhash & Hpolicy & Hser).
        specialize (Hlog Hhash Hpolicy). by rewrite Hser in Hlog. }
    destruct (writeCallDepth vmDb ab logged) as [[b rd]|e] eqn:Hd; simpl.
    2:{ apply writeCallDepth_err in Hd as (Hrecv & Hsends & Hd).
        specialize (Hdepth Hrecv Hsends). by rewrite Hd in Hdepth. }
    by eexists _, _, _. }
  exists batch, redoLog, cache'. split; [done|]. split; [|done].
  unfold Write. by rewrite Hbody.
Qed.



(** *** [WriteByRedo] and the recorded contract metas *)

Lemma foldl_redoContractMeta_None (l : list (types.Address * bytes)) :
  foldl redoContractMeta None l = None.
Proof. induction l as [|[a mb] l IH]; simpl; [done | exact IH]. Qed.

Lemma foldl_redoContractMeta_short (st : option (Batch * Cache))
  (l : list (types.Address * bytes)) :
  Exists (fun e => length e.2 < GidSize) l →
  foldl redoContractMeta st l = None.
Proof.
  intros Hex. revert st.
  induction Hex as [[a mb] l Hshort|[a mb] l Hex IH]; intros st; simpl in *.
  - destruct st as [st|]; simpl; [|apply foldl_redoContractMeta_None].
    unfold slice. rewrite decide_False by lia. simpl.
    apply foldl_redoContractMeta_None.
  - apply IH.
Qed.

(** X14.  [WriteByRedo] returns, without a panic, on every redo item whose
    contract metas have at least [GidSize] bytes.  It hands exactly one
    batch to the store, under the hash of the block, and leaves the redo
    manager and the round cache as they are.  For every contract meta of
    the item the batch puts the recorded bytes under the meta key of the
    contract, and the empty value under the group index key made of the
    prefix, the address and the first [GidSize] bytes of the recorded
    bytes. *)
Theorem write_by_redo_rebuilds_group_index (blockHash : types.Hash)
  (addr : types.Address) (redoLog : LogItem) (sDB : StateDB) :
  (∀ a metaBytes,
     ContractMeta redoLog !! a = Some metaBytes → GidSize ≤ length metaBytes) →
  ∃ batch cache',
    WriteByRedo blockHash addr redoLog sDB =
    Some {| store := store_WriteAccountBlockByHash batch blockHash (store sDB);
            redo := redo sDB; roundCache := roundCache sDB;
            cache := cache'; vmLogAll := vmLogAll sDB;
            vmLogWhiteListSet := vmLogWhiteListSet sDB |}
    ∧ ∀ a metaBytes,
        ContractMeta redoLog !! a = Some metaBytes →
        OpPut (CreateContractMetaKey a) metaBytes ∈ batch
        ∧ OpPut ([GidContractKeyPrefix] ++ a ++ take GidSize metaBytes) []
          ∈ batch.
Proof.
  intros Hlong.
  assert (Forall (fun e : types.Address * bytes => GidSize ≤ length e.2)
            (map_to_list (ContractMeta redoLog))) as Hall.
  { apply Forall_forall. intros [a mb] Hin.
    apply elem_of_map_to_list in Hin. by apply (Hlong a mb). }
  eexists _, _. split.
  - unfold WriteByRedo.
    rewrite (WriteByRedo_body_spec addr redoLog sDB Hall). done.
  - intros a mb Hin. apply elem_of_map_to_list in Hin.
    assert (∀ op, op ∈ metaOpsRedo (a, mb) →
              op ∈ map_to_list (ContractMeta redoLog) ≫= metaOpsRedo) as Hop.
    { intros op Hop. apply list_elem_of_bind. by exists (a, mb). }
    split.
    + do 3 (apply elem_of_app; right). apply elem_of_app. left.
      apply Hop. by left.
    + do 3 (apply elem_of_app; right). apply elem_of_app. left.
      apply Hop. right. by left.
Qed.

(** *** The read cache only grows *)

Lemma applyBatch_puts_keep (b : Batch) (c : Cache) (k : bytes) :
  Forall (fun op => ∃ key value, op = OpPut key value) b →
  is_Some (c !! k) → is_Some (applyBatch b c !! k).
Proof.
  intros Hputs. revert c.
  induction Hputs as [|op b (key & value & ->) Hputs IH]; intros c Hc;
    [done|].
  apply IH. simpl. destruct (decide (key = k)) as [->|Hne].
  - by rewrite lookup_insert_eq.
  - by rewrite lookup_insert_ne.
Qed.

Lemma Forall_map_put {A} (f : A → BatchOp) (l : list A) :
  (∀ a, ∃ key value, f a = OpPut key value) →
  Forall (fun op => ∃ key value, op = OpPut key value) (map f l).
Proof.
  intros Hf. induction l as [|a l IH]; simpl; constructor; [apply Hf | done].
Qed.

Lemma Write_deltas_cache_keeps (block : VmAccountBlock.t) (sDB : StateDB)
  (k : bytes) :
  is_Some (cache sDB !! k) →
  is_Some ((Write_deltas block sDB).1.1.1.2 !! k).
Proof.
  intros Hk. rewrite Write_deltas_spec. simpl.
  apply applyBatch_puts_keep; [|apply applyBatch_puts_keep; [|done]];
    apply Forall_map_put; intros e; by eexists _, _.
Qed.

Lemma writeHistoryKey_cache_keeps (key value : bytes) (st st' : Batch * Cache)
  (k : bytes) :
  writeHistoryKey key value st = Some st' →
  is_Some (st.2 !! k) → is_Some (st'.2 !! k).
Proof.
  unfold writeHistoryKey.
  destruct (slice 1 (1 + AddressSize) key) as [addrBytes|]; simpl; [|done].
  destruct (BytesToAddress addrBytes) as [a|e]; [|done].
  destruct (shouldCacheContractData a); intros [= <-]; simpl; [|done].
  intros Hk.
  destruct (decide (snapshotValuePrefix ++ addrBytes ++ parseStorageKey key = k))
    as [->|Hne].
  - by rewrite lookup_insert_eq.
  - by rewrite lookup_insert_ne.
Qed.

Lemma foldl_putHistoryStorage_None (l : list (bytes * bytes)) :
  foldl putHistoryStorage None l = None.
Proof. induction l as [|[key value] l IH]; simpl; [done | exact IH]. Qed.

Lemma foldl_putHistoryStorage_cache_keeps (l : list (bytes * bytes))
  (st st' : Batch * Cache * HistoryStorageValueKey) (k : bytes) :
  foldl putHistoryStorage (Some st) l = Some st' →
  is_Some (st.1.2 !! k) → is_Some (st'.1.2 !! k).
Proof.
  revert st. induction l as [|[key value] l IH]; intros [bc t]; simpl.
  - by intros [= <-].
  - destruct (writeHistoryKey _ value bc) as [bc'|] eqn:Hw; simpl.
    + intros Hfold Hk. apply (IH _ Hfold). simpl.
      by eapply writeHistoryKey_cache_keeps.
    + by rewrite foldl_putHistoryStorage_None.
Qed.

Lemma foldl_putHistoryStorageOf_None
  (maps : list (types.Address * gmap bytes bytes)) :
  foldl putHistoryStorageOf None maps = None.
Proof. induction maps as [|[a m] maps IH]; simpl; [done | exact IH]. Qed.

Lemma foldl_putHistoryStorageOf_cache_keeps
  (maps : list (types.Address * gmap bytes bytes))
  (st st' : Batch * Cache * HistoryStorageValueKey) (k : bytes) :
  foldl putHistoryStorageOf (Some st) maps = Some st' →
  is_Some (st.1.2 !! k) → is_Some (st'.1.2 !! k).
Proof.
  revert st. induction maps as [|[a m] maps IH]; intros [bc t]; simpl.
  - by intros [= <-].
  - destruct (foldl putHistoryStorage (Some (bc, hsv_AddressRefill a t))
                (map_to_list m)) as [st1|] eqn:Hinner.
    + intros Hfold Hk. apply (IH _ Hfold).
      by apply (foldl_putHistoryStorage_cache_keeps _ _ _ _ Hinner).
    + by rewrite foldl_putHistoryStorageOf_None.
Qed.

Lemma InsertSnapshotBlock_body_cache_keeps (height : N)
  (snapshotRedoLog : SnapshotLog) (sDB : StateDB) (r : result Batch)
  (cache' : Cache) (k : bytes) :
  InsertSnapshotBlock_body height snapshotRedoLog sDB = Some (r, cache') →
  is_Some (cache sDB !! k) → is_Some (cache' !! k).
Proof.
  unfold InsertSnapshotBlock_body. case_decide; [|by intros [= _ <-]].
  simpl.
  destruct (foldl putHistoryStorageOf _ _) as [[bc t]|] eqn:Hfold; simpl;
    [|done].
  destruct (foldl putHistoryBalanceOf _ _) as [b t'].
  intros [= _ <-] Hk.
  by apply (foldl_putHistoryStorageOf_cache_keeps _ _ _ _ Hfold).
Qed.

(** X15.  The state writer never removes an entry from the read cache: a
    key the cache holds before [Write], [WriteByRedo] or
    [InsertSnapshotBlock] is still held after it, whether the call
    succeeds or returns an error, and also when the call deletes storage
    keys from the store. *)
Theorem cache_entries_are_never_removed (sDB : StateDB) (k : bytes) :
  is_Some (cache sDB !! k) →
  (∀ block, is_Some (cache (Write block sDB).2 !! k))
  ∧ (∀ blockHash addr redoLog sDB',
       WriteByRedo blockHash addr redoLog sDB = Some sDB' →
       is_Some (cache sDB' !! k))
  ∧ (∀ snapshotBlock confirmedBlocks r sDB',
       InsertSnapshotBlock snapshotBlock confirmedBlocks sDB = Some (r, sDB') →
       is_Some (cache sDB' !! k)).
Proof.
  intros Hk. split; [|split].
  - intros block.
    assert (is_Some ((Write_body block sDB).2 !! k)) as Hbody.
    { unfold Write_body. destruct (VmDb.CanWrite _); simpl; [|done].
      pose proof (Write_deltas_cache_keeps block sDB k Hk) as Hd.
      by destruct (Write_deltas block sDB) as [[[[pre c] rb] rc] rm]. }
    unfold Write.
    by destruct (Write_body block sDB) as [[[batch redoLog]|e] cache'].
  - intros blockHash addr redoLog sDB'.
    destruct (decide (Forall (fun e : types.Address * bytes =>
                                GidSize ≤ length e.2)
                        (map_to_list (ContractMeta redoLog))))
      as [Hlong|Hshort].
    + unfold WriteByRedo.
      rewrite (WriteByRedo_body_spec addr redoLog sDB Hlong). simpl.
      intros [= <-]. simpl.
      apply applyBatch_puts_keep; [|apply applyBatch_puts_keep; [|done]];
        apply Forall_map_put; intros e; by eexists _, _.
    + apply not_Forall_Exists in Hshort; [|apply _].
      unfold WriteByRedo, WriteByRedo_body.
      rewrite foldl_redoContractMeta_short; [done|].
      eapply Exists_impl; [exact Hshort|]. simpl. intros e He. lia.
  - intros snapshotBlock confirmedBlocks r sDB'. unfold InsertSnapshotBlock.
    destruct (redo_QueryLog _ _) as [[snapshotRedoLog found]|e].
    2:{ by intros [= _ <-]. }
    destruct (InsertSnapshotBlock_body _ snapshotRedoLog sDB)
      as [[res cache']|] eqn:Hbody; simpl; [|done].
    pose proof (InsertSnapshotBlock_body_cache_keeps _ _ _ _ _ k Hbody Hk).
    by destruct res; intros [= _ <-].
Qed.

(** *** The history batch, row by row *)

(** Inserting pairs in order: the value a key ends with is that of its
    last pair. *)
Lemma foldl_insert_lookup_Some {V} (l : list (bytes * V)) (k : bytes) (v : V) :
  foldl (fun acc e => <[e.1 := e.2]> acc) (∅ : gmap bytes V) l !! k = Some v ↔
  ∃ before after, l = before ++ (k, v) :: after ∧ k ∉ after.*1.
Proof.
  split.
  - induction l as [|[k' v'] l IH] using rev_ind; [done|].
    rewrite foldl_app. simpl. destruct (decide (k' = k)) as [->|Hne].
    + rewrite lookup_insert_eq. intros [= ->]. exists l, [].
      split; [done|]. apply not_elem_of_nil.
    + rewrite lookup_insert_ne by done. intros Hl.
      destruct (IH Hl) as (before & after & -> & Hafter).
      exists before, (after ++ [(k', v')]).
      split; [by rewrite <- app_assoc|].
      rewrite fmap_app. intros Hin. apply elem_of_app in Hin as [Hin|Hin];
        [done|]. apply list_elem_of_singleton in Hin. simpl in Hin. done.
  - intros (before & after & -> & Hafter). by apply foldl_insert_last.
Qed.

(** X16.  Whenever the redo manager answers the query for the confirmed
    height, [InsertSnapshotBlock] succeeds and the batch it hands to the
    store holds history rows and nothing else: an operation is in the
    batch exactly when it is the put of the row of an address, a storage
    key of its items and the height, with the last value the items record
    for the key, or the put of the row of an address, a token id and the
    height, with the last balance recorded.  The batch never deletes: a
    storage key whose last value is empty gets a row with the empty
    value.  With no items, the batch is empty and the read cache is left
    as it is. *)
Theorem history_batch_holds_exactly_the_last_values (L : HistoryKeyLayout U)
  (snapshotBlock : SnapshotBlock.t) (confirmedBlocks : list AccountBlock.t)
  (sDB : StateDB) (snapshotRedoLog : SnapshotLog) (found : bool) :
  let h := SnapshotBlock.Height snapshotBlock in
  let redo' :=
    redo_InsertSnapshotBlock snapshotBlock confirmedBlocks (redo sDB) in
  redo_QueryLog h redo' = Ok (snapshotRedoLog, found) →
  ∃ batch cache',
    InsertSnapshotBlock snapshotBlock confirmedBlocks sDB =
    Some (None,
          {| store := store_WriteSnapshot batch confirmedBlocks (store sDB);
             redo := redo';
             roundCache :=
               roundCache_InsertSnapshotBlock snapshotBlock snapshotRedoLog
                 (roundCache sDB);
             cache := cache'; vmLogAll := vmLogAll sDB;
             vmLogWhiteListSet := vmLogWhiteListSet sDB |})
    ∧ (∀ op, op ∈ batch ↔
         (∃ addr items before key value after,
            snapshotRedoLog !! addr = Some items
            ∧ items ≫= Storage = before ++ (key, value) :: after
            ∧ (key ∉ after.*1)
            ∧ op = OpPut (HistoryStorageValueKeyBytes
                            (CreateHistoryStorageValueKey addr key h)) value)
         ∨ (∃ addr items before tokenTypeId balance after,
              snapshotRedoLog !! addr = Some items
              ∧ (items ≫= fun redoLog => map_to_list (BalanceMap redoLog))
                = before ++ (tokenTypeId, balance) :: after
              ∧ (tokenTypeId ∉ after.*1)
              ∧ op = OpPut (HistoryBalanceKeyBytes
                              (CreateHistoryBalanceKey addr tokenTypeId h))
                       (bigIntBytes balance)))
    ∧ (size snapshotRedoLog = 0 → batch = [] ∧ cache' = cache sDB).
Proof.
  intros h redo' Hquery.
  destruct (decide (0 < size snapshotRedoLog)) as [Hsize|Hsize].
  - destruct (InsertSnapshotBlock_body_spec L h snapshotRedoLog sDB Hsize)
      as [cache' Hbody].
    eexists _, cache'. split; [|split].
    + unfold InsertSnapshotBlock. fold h redo'. rewrite Hquery, Hbody. done.
    + intros op. rewrite elem_of_app, !list_elem_of_bind.
      split; (intros [H|H]; [left|right]; revert H).
      * intros ([addr kvMap] & Hop & Hin). simpl in Hop.
        apply elem_of_map_to_list in Hin. rewrite lookup_fmap in Hin.
        destruct (snapshotRedoLog !! addr) as [items|] eqn:Hitems; [|done].
        injection Hin as <-.
        apply elem_of_map in Hop as ([key value] & -> & Hkv).
        apply elem_of_map_to_list in Hkv.
        rewrite parseStorage_spec in Hkv.
        apply foldl_insert_lookup_Some in Hkv as (before & after & ? & ?).
        by exists addr, items, before, key, value, after.
      * intros ([addr balanceMap] & Hop & Hin). simpl in Hop.
        apply elem_of_map_to_list in Hin. rewrite lookup_fmap in Hin.
        destruct (snapshotRedoLog !! addr) as [items|] eqn:Hitems; [|done].
        injection Hin as <-.
        apply elem_of_map in Hop as ([tid bal] & -> & Hkv).
        apply elem_of_map_to_list in Hkv.
        rewrite parseBalance_spec in Hkv.
        apply foldl_insert_lookup_Some in Hkv as (before & after & ? & ?).
        by exists addr, items, before, tid, bal, after.
      * intros (addr & items & before & key & value & after & Hitems & Hpairs
                & Hlast & ->).
        exists (addr, parseStorage items). split.
        -- simpl. apply elem_of_map. exists (key, value). split; [done|].
           apply elem_of_map_to_list. rewrite parseStorage_spec.
           apply foldl_insert_lookup_Some. by exists before, after.
        -- apply elem_of_map_to_list. by rewrite lookup_fmap, Hitems.
      * intros (addr & items & before & tid & bal & after & Hitems & Hpairs
                & Hlast & ->).
        exists (addr, parseBalance items). split.
        -- simpl. apply elem_of_map. exists (tid, bal). split; [done|].
           apply elem_of_map_to_list. rewrite parseBalance_spec.
           apply foldl_insert_lookup_Some. by exists before, after.
        -- apply elem_of_map_to_list. by rewrite lookup_fmap, Hitems.
    + intros Hzero. lia.
  - exists [], (cache sDB). split; [|split].
    + unfold InsertSnapshotBlock. fold h redo'. rewrite Hquery.
      unfold InsertSnapshotBlock_body. rewrite decide_False by done. done.
    + assert (snapshotRedoLog = ∅) as ->
        by (apply map_size_empty_iff; lia).
      intros op. split; [by intros ?%not_elem_of_nil|].
      intros [(addr & items & ? & ? & ? & ? & Hitems & _)
             |(addr & items & ? & ? & ? & ? & Hitems & _)];
        by rewrite lookup_empty in Hitems.
    + done.
Qed.

(** X17.  When the redo manager cannot answer the query for the confirmed
    height, [InsertSnapshotBlock] returns its error after the redo manager
    has been told of the snapshot block: the manager has moved on, while
    the store has received no batch, the round cache has not been
    notified and the read cache is unchanged. *)
Theorem insert_snapshot_block_query_error (snapshotBlock : SnapshotBlock.t)
  (confirmedBlocks : list AccountBlock.t) (sDB : StateDB) (err : error) :
  let redo' :=
    redo_InsertSnapshotBlock snapshotBlock confirmedBlocks (redo sDB) in
  redo_QueryLog (SnapshotBlock.Height snapshotBlock) redo' = Err err →
  ∃ sDB',
    InsertSnapshotBlock snapshotBlock confirmedBlocks sDB = Some (Some err, sDB')
    ∧ redo sDB' = redo'
    ∧ store sDB' = store sDB
    ∧ roundCache sDB' = roundCache sDB
    ∧ cache sDB' = cache sDB.
Proof.
  intros redo' Hquery. unfold InsertSnapshotBlock. fold redo'.
  rewrite Hquery. by eexists.
Qed.

End StateWriterEdges.

(** ** The batch checker of the store tests *)

Section Checker.
Import ChainDB.

Lemma checker_Replay (b : Batch) (c : checker.t) :
  checker.Replay b c =
  {| checker.batch := checker.batch c; checker.data := checker.data c;
     checker.tmpData := checker.tmpData c ++ map checker.recorded b |}.
Proof.
  revert c. induction b as [|op b IH]; intros c; simpl.
  - rewrite app_nil_r. by destruct c.
  - unfold checker.Replay in *. simpl. rewrite IH.
    destruct op; simpl; by rewrite <- app_assoc.
Qed.

Lemma checker_recorded_inj : Inj (=) (=) checker.recorded.
Proof. intros [k v|k] [k' v'|k'] Heq; simpl in Heq; by simplify_eq. Qed.

Lemma checker_newChecker (b : Batch) :
  checker.newChecker b =
  {| checker.batch := b; checker.data := map checker.recorded b;
     checker.tmpData := [] |}.
Proof.
  unfold checker.newChecker, checker.batchToData, checker.fetchData.
  by rewrite checker_Replay.
Qed.

(** The loop compares the items with those of the checker from [index] on. *)
Lemma checker_checkItems (items cdata : list checker.item) (index : nat) :
  checker.checkItems index items cdata = Some tt ↔
  take (length items) (drop index cdata) = items.
Proof.
  revert index. induction items as [|it items IH]; intros index.
  - by rewrite take_0.
  - cbn [checker.checkItems length].
    destruct (cdata !! index) as [cItem|] eqn:Hc.
    + rewrite (drop_S _ _ _ Hc). cbn [take mbind option_bind].
      destruct (decide (it.1.1 ≠ cItem.1.1 ∨ it.1.2 ≠ cItem.1.2
                        ∨ it.2 ≠ cItem.2)) as [Hne|Heq].
      * split; [done|]. intros [= <- _]. destruct Hne as [?|[?|?]]; done.
      * assert (it = cItem) as ->.
        { destruct it as [[a b] c], cItem as [[a' b'] c']. simpl in Heq.
          destruct (decide (a = a')) as [->|?]; [|exfalso; apply Heq; by left].
          destruct (decide (b = b')) as [->|?];
            [|exfalso; apply Heq; right; by left].
          destruct (decide (c = c')) as [->|?];
            [done|exfalso; apply Heq; right; by right]. }
        rewrite IH. split; [by intros -> | by intros [= ->]].
    + apply lookup_ge_None in Hc. rewrite drop_ge by done.
      cbn [take mbind option_bind]. by split.
Qed.

(** X18.  The checker of the store tests accepts a batch exactly when the
    batch holds the same records, in the same order, as the batch the
    checker was made from: [CheckBatch] panics on any other batch (a put
    and a deletion of the same key differ by their flag), and on the same
    batch it returns with the checker unchanged, ready for the next
    check. *)
Theorem check_batch_accepts_the_same_records_only (b b' : Batch) :
  checker.CheckBatch b' (checker.newChecker b) =
  if decide (b' = b) then Some (checker.newChecker b) else None.
Proof.
  rewrite checker_newChecker.
  unfold checker.CheckBatch, checker.batchToData, checker.fetchData.
  rewrite checker_Replay.
  cbn [checker.tmpData checker.data checker.batch app].
  destruct (decide (length (map checker.recorded b')
                    ≠ length (map checker.recorded b))) as [Hlen|Hlen].
  - rewrite decide_False; [done|]. by intros ->.
  - assert (length (map checker.recorded b')
            = length (map checker.recorded b)) as Heq by lia.
    pose proof (checker_checkItems (map checker.recorded b')
                  (map checker.recorded b) 0) as Hcheck.
    rewrite drop_0, Heq, firstn_all in Hcheck.
    destruct (decide (b' = b)) as [->|Hne].
    + by rewrite (proj2 Hcheck eq_refl).
    + destruct (checker.checkItems 0 _ _) as [[]|]; [|done].
      exfalso. apply Hne. symmetry.
      pose proof (proj1 Hcheck eq_refl) as Hmap.
      revert Hmap. clear. revert b'.
      induction b as [|op b IH]; intros [|op' b']; simpl; try done.
      intros [= Hop Hrest]. apply checker_recorded_inj in Hop as ->.
      by rewrite (IH b' Hrest).
Qed.

End Checker.

(** ** Further instances on the reference block log *)

Lemma demoWrite_eq :
  @ChainBlock.Write Reference.fileManager Reference.blockCodec
    Reference.demoChunk1 Reference.demoBlockDB
  = Some (Ok (match Reference.demoWrite with
              | Some (Ok x, _) => x.1
              | _ => ∅
              end,
              match Reference.demoWrite with
              | Some (Ok x, _) => x.2
              | _ => ChainBlock.mkLocation 0 0
              end),
          match Reference.demoWrite with
          | Some (_, s) => s
          | None => Reference.demoBlockDB
          end).
Proof.
  apply (option_result_pair_eta Reference.demoWrite ∅
           (ChainBlock.mkLocation 0 0) Reference.demoBlockDB).
  vm_compute. reflexivity.
Qed.

Lemma write_locations_read_back_witness :
  let ss := Reference.demoChunk1 in
  let bDB := Reference.demoBlockDB in
  let locs :=
    match Reference.demoWrite with Some (Ok x, _) => x.1 | _ => ∅ end in
  let sloc :=
    match Reference.demoWrite with
    | Some (Ok x, _) => x.2
    | _ => ChainBlock.mkLocation 0 0
    end in
  let bDB' :=
    match Reference.demoWrite with Some (_, s) => s | None => bDB end in
  @ChainBlock.Write Reference.fileManager Reference.blockCodec ss bDB
  = Some (Ok (locs, sloc), bDB')
  ∧ (∃ sb,
       SnapshotChunk.SnapshotBlock ss = Some sb
       ∧ @ChainBlock.ReadUnit Reference.fileManager Reference.blockCodec
           sloc bDB'
         = Ok (Some sb, None,
               @ChainBlock.fm_LatestLocation Reference.fileManager
                 (ChainBlock.fm bDB')))
  ∧ (∀ i ab,
       SnapshotChunk.AccountBlocks ss !! i = Some ab →
       (∀ j ab', i < j → SnapshotChunk.AccountBlocks ss !! j = Some ab' →
                 AccountBlock.Hash ab' ≠ AccountBlock.Hash ab) →
       ∃ loc next,
         locs !! AccountBlock.Hash ab = Some loc
         ∧ @ChainBlock.ReadUnit Reference.fileManager Reference.blockCodec
             loc bDB' = Ok (None, Some ab, next)).
Proof.
  intros ss bDB locs sloc bDB'.
  split; [exact demoWrite_eq|].
  exact (@write_locations_read_back Reference.fileManager
           Reference.blockCodec reference_fileManager_laws
           reference_blockCodec_laws ss bDB bDB' locs sloc demoWrite_eq).
Defined.

Lemma written_chunks_read_back_chunk_by_chunk_witness :
  let ss := Reference.demoChunk1 in
  let chunks := [Reference.demoChunk2] in
  let bDB := Reference.demoBlockDB in
  let written :=
    match Reference.demoWriteChunks with Some (Ok x, _) => x | _ => [] end in
  let out := default (∅, ChainBlock.mkLocation 0 0) (head written) in
  let outs := tail written in
  let bDB' :=
    match Reference.demoWriteChunks with Some (_, s) => s | None => bDB end in
  let fuel := 3 in
  @ChainBlock.WriteChunks Reference.fileManager Reference.blockCodec
    (ss :: chunks) bDB = Some (Ok (out :: outs), bDB')
  ∧ NoDup (AccountBlock.Hash <$> SnapshotChunk.AccountBlocks ss)
  ∧ Forall (fun chunk => length (SnapshotChunk.AccountBlocks chunk) < fuel)
      (ss :: chunks)
  ∧ ∃ first,
      ChainBlock.firstLocation ss out = Some first
      ∧ @ChainBlock.ReadChunks Reference.fileManager Reference.blockCodec
          fuel (length (ss :: chunks)) first bDB'
        = Some (Ok (ss :: chunks,
                    @ChainBlock.fm_LatestLocation Reference.fileManager
                      (ChainBlock.fm bDB'))).
Proof.
  intros ss chunks bDB written out outs bDB' fuel.
  assert (@ChainBlock.WriteChunks Reference.fileManager Reference.blockCodec
            (ss :: chunks) bDB = Some (Ok (out :: outs), bDB')) as Hw.
  { reflexivity. }
  assert (NoDup (AccountBlock.Hash <$> SnapshotChunk.AccountBlocks ss)) as Hnd.
  { apply (bool_decide_unpack _). vm_compute. exact I. }
  assert (Forall (fun chunk =>
                    length (SnapshotChunk.AccountBlocks chunk) < fuel)
            (ss :: chunks)) as Hfuel.
  { repeat constructor. }
  split; [exact Hw|]. split; [exact Hnd|]. split; [exact Hfuel|].
  exact (@written_chunks_read_back_chunk_by_chunk Reference.fileManager
           Reference.blockCodec reference_fileManager_laws
           reference_blockCodec_laws ss chunks bDB bDB' out outs fuel
           Hw Hnd Hfuel).
Defined.

Lemma read_chunk_reads_whole_chunk_witness :
  let bDB := Reference.demoWrittenDB in
  let location := ChainBlock.mkLocation 1 0 in
  let next := ChainBlock.mkLocation 1 3 in
  let chunk := Reference.demoChunk1 in
  @ChainBlock.ReadChunk Reference.fileManager Reference.blockCodec
    3 location bDB = Some (Ok (chunk, next))
  ∧ is_Some (SnapshotChunk.SnapshotBlock chunk)
  ∧ @ChainBlock.ReadUnits Reference.fileManager Reference.blockCodec
      (length (ChainBlock.chunkUnits chunk)) location bDB
    = Ok (ChainBlock.chunkUnits chunk)
  ∧ length (ChainBlock.chunkUnits chunk) ≤ 3
  ∧ ∀ fuel', 3 ≤ fuel' →
      @ChainBlock.ReadChunk Reference.fileManager Reference.blockCodec
        fuel' location bDB = Some (Ok (chunk, next)).
Proof.
  intros bDB location next chunk.
  split; [reflexivity|].
  exact (@read_chunk_reads_whole_chunk Reference.fileManager
           Reference.blockCodec bDB 3 location next chunk eq_refl).
Defined.

Lemma write_failure_keeps_earlier_records_witness :
  let ss := Reference.demoBadChunk in
  let bDB := Reference.demoBlockDB in
  let pre := [Reference.hashOnlyAccountBlock [x61]] in
  let bad := Reference.demoBadBlock in
  let rest := [Reference.hashOnlyAccountBlock [x63]] in
  let records := [[x01; x61]] in
  let alocs := [ChainBlock.mkLocation 1 0] in
  let fm1 : @ChainBlock.FM Reference.fileManager := [[x01; x61]] in
  SnapshotChunk.AccountBlocks ss = pre ++ bad :: rest
  ∧ Forall2 (fun ab record =>
               @ChainBlock.unitRecord Reference.blockCodec
                 (None, Some ab) record) pre records
  ∧ @ChainBlock.fm_WriteAll Reference.fileManager records (ChainBlock.fm bDB)
    = (Ok alocs, fm1)
  ∧ (∀ err,
       @ChainBlock.AccountBlock_Serialize Reference.blockCodec bad = Err err →
       @ChainBlock.Write Reference.fileManager Reference.blockCodec ss bDB =
       Some (Err (Errorf "ss.AccountBlocks.Serialize failed, error is %s, accountBlock is %+v" err),
             ChainBlock.set_fm fm1 bDB))
  ∧ (∀ buf err fm2,
       @ChainBlock.AccountBlock_Serialize Reference.blockCodec bad = Ok buf →
       @ChainBlock.fm_Write Reference.fileManager
         (@ChainBlock.makeWriteBytes Reference.blockCodec
            (@ChainBlock.BlockTypeAccountBlock Reference.blockCodec) buf) fm1
       = (Err err, fm2) →
       @ChainBlock.Write Reference.fileManager Reference.blockCodec ss bDB =
       Some (Err (Errorf "bDB.fm.Write failed, error is %s, accountBlock is %+v" err),
             ChainBlock.set_fm fm2 bDB)).
Proof.
  intros ss bDB pre bad rest records alocs fm1.
  assert (Forall2 (fun ab record =>
                     @ChainBlock.unitRecord Reference.blockCodec
                       (None, Some ab) record) pre records) as Hrec.
  { repeat constructor. by exists [x61]. }
  split; [reflexivity|]. split; [exact Hrec|]. split; [reflexivity|].
  exact (@write_failure_keeps_earlier_records Reference.fileManager
           Reference.blockCodec ss bDB pre rest bad records alocs fm1
           eq_refl Hrec eq_refl).
Defined.

Lemma range_read_only_last_chunk_incomplete_witness :
  let bufs := Reference.demoScanned ++ Reference.demoTrailing in
  let chunks :=
    [SnapshotChunk.mk (Some (Reference.hashOnlySnapshotBlock [x53; x31]))
       [Reference.hashOnlyAccountBlock [x61]];
     SnapshotChunk.mk None
       [Reference.hashOnlyAccountBlock [x63];
        Reference.hashOnlyAccountBlock [x64]]] in
  @ChainBlock.ReadRange Reference.blockCodec bufs None = Ok chunks
  ∧ ∃ complete,
      Forall (fun chunk => is_Some (SnapshotChunk.SnapshotBlock chunk))
        complete
      ∧ length complete =
        length (filter
                  (fun buf =>
                     ChainBlock.BlockType buf
                     = @ChainBlock.BlockTypeSnapshotBlock Reference.blockCodec)
                  bufs)
      ∧ (chunks = complete
         ∨ ∃ accountBlocks,
             chunks = complete ++ [SnapshotChunk.mk None accountBlocks]).
Proof.
  intros bufs chunks.
  split; [reflexivity|].
  exact (@range_read_only_last_chunk_incomplete Reference.blockCodec
           bufs None chunks eq_refl).
Defined.

Lemma demoBuffers_units :
  Forall2 (@ChainBlock.unitBuffer Reference.blockCodec)
    ([Reference.demoChunk1; Reference.demoChunk2] ≫= ChainBlock.chunkUnits)
    Reference.demoBuffers.
Proof.
  assert ([Reference.demoChunk1; Reference.demoChunk2]
            ≫= ChainBlock.chunkUnits
          = [(None, Some (Reference.hashOnlyAccountBlock [x61]));
             (None, Some (Reference.hashOnlyAccountBlock [x62]));
             (Some (Reference.hashOnlySnapshotBlock [x53; x31]), None);
             (None, Some (Reference.hashOnlyAccountBlock [x63]));
             (Some (Reference.hashOnlySnapshotBlock [x53; x32]), None)]) as ->
    by reflexivity.
  unfold Reference.demoBuffers.
  repeat (constructor;
          [split; [reflexivity | eexists; split; reflexivity]|]).
  constructor.
Qed.

Lemma range_read_regroups_chunks_witness :
  let chunks := [Reference.demoChunk1; Reference.demoChunk2] in
  let bufs := Reference.demoBuffers in
  @ChainBlock.BlockTypeAccountBlock Reference.blockCodec
  ≠ @ChainBlock.BlockTypeSnapshotBlock Reference.blockCodec
  ∧ Forall2 (@ChainBlock.unitBuffer Reference.blockCodec)
      (chunks ≫= ChainBlock.chunkUnits) bufs
  ∧ @ChainBlock.ReadRange Reference.blockCodec bufs None = Ok chunks
  ∧ @ChainBlock.PrepareRollback Reference.blockCodec bufs None = Ok chunks.
Proof.
  intros chunks bufs.
  split; [discriminate|]. split; [exact demoBuffers_units|].
  exact (@range_read_regroups_chunks Reference.blockCodec
           ltac:(discriminate) chunks bufs demoBuffers_units).
Defined.

Lemma reference_locationOrder_laws :
  ChainBlock.LocationOrderLaws Reference.locationOrder.
Proof.
  constructor; simpl.
  - intros l. by rewrite N.compare_refl, Z.compare_refl.
  - intros a b.
    rewrite (N.compare_antisym (ChainBlock.FileId a) (ChainBlock.FileId b)).
    rewrite (Z.compare_antisym (ChainBlock.Offset a) (ChainBlock.Offset b)).
    destruct (ChainBlock.FileId a ?= ChainBlock.FileId b)%N;
      destruct (ChainBlock.Offset a ?= ChainBlock.Offset b)%Z; simpl; lia.
Qed.

Lemma max_location_clamps_to_write_head_witness :
  let latest := ChainBlock.mkLocation 1 3 in
  let location := Some (ChainBlock.mkLocation 2 0) in
  ChainBlock.LocationOrderLaws Reference.locationOrder
  ∧ @ChainBlock.maxLocation Reference.locationOrder None location = location
  ∧ ∃ r,
      @ChainBlock.maxLocation Reference.locationOrder (Some latest) location
      = Some r
      ∧ (@ChainBlock.Compare Reference.locationOrder r latest ≤ 0)%Z
      ∧ (r = latest ∨ location = Some r)
      ∧ (∀ loc, location = Some loc →
                (@ChainBlock.Compare Reference.locationOrder r loc ≤ 0)%Z).
Proof.
  intros latest location.
  split; [exact reference_locationOrder_laws|].
  exact (@max_location_clamps_to_write_head Reference.locationOrder
           reference_locationOrder_laws latest location).
Defined.

(** ** Further instances on the reference state writer *)

Lemma write_succeeds_and_records_deltas_witness :
  let block := Reference.demoBlock in
  let sDB := Reference.emptyStateDB in
  let vmDb := VmAccountBlock.VmDb block in
  let ab := VmAccountBlock.AccountBlock block in
  let addr := AccountBlock.AccountAddress ab in
  VmDb.CanWrite vmDb = true
  ∧ (AccountBlock.LogHash ab ≠ None →
     ChainState.canWriteVmLog sDB addr = true →
     isOk (@ChainState.VmLogListSerialize Reference.utils
             (VmDb.GetLogList vmDb)) = true)
  ∧ (@ChainState.IsReceiveBlock Reference.utils ab = true →
     AccountBlock.SendBlockList ab ≠ [] →
     isOk (VmDb.GetCallDepth vmDb (AccountBlock.FromBlockHash ab)) = true)
  ∧ ∃ batch redoLog cache',
      @ChainState.Write_body Reference.utils Reference.collaborators block sDB
      = (Ok (batch, redoLog), cache')
      ∧ @ChainState.Write Reference.utils Reference.collaborators block sDB =
        (None,
         @ChainState.mkStateDB Reference.collaborators
           (@ChainState.store_WriteAccountBlock Reference.collaborators
              batch ab (ChainState.store sDB))
           (@ChainState.redo_AddLog Reference.collaborators addr redoLog
              (ChainState.redo sDB))
           (ChainState.roundCache sDB) cache' (ChainState.vmLogAll sDB)
           (ChainState.vmLogWhiteListSet sDB))
      ∧ ChainState.Storage redoLog = VmDb.GetUnsavedStorage vmDb
      ∧ ChainState.BalanceMap redoLog = VmDb.GetUnsavedBalanceMap vmDb
      ∧ ChainState.Code redoLog = VmDb.GetUnsavedContractCode vmDb
      ∧ ChainState.ContractMeta redoLog
        = @ChainState.stampedMetaBytes Reference.utils ab
            <$> VmDb.GetUnsavedContractMeta vmDb
      ∧ ChainState.Height redoLog = AccountBlock.Height ab.
Proof.
  intros block sDB vmDb ab addr.
  split; [reflexivity|].
  split; [intros _ _; reflexivity|].
  split; [intros _ _; reflexivity|].
  exact (@write_succeeds_and_records_deltas Reference.utils
           Reference.collaborators block sDB eq_refl
           (fun _ _ => eq_refl) (fun _ _ => eq_refl)).
Defined.


Lemma demoMetaItem_long (a : types.Address) (metaBytes : bytes) :
  ChainState.ContractMeta Reference.demoMetaItem !! a = Some metaBytes →
  @ChainState.GidSize Reference.utils ≤ length metaBytes.
Proof.
  cbn [ChainState.ContractMeta Reference.demoMetaItem]. intros Hin.
  apply lookup_singleton_Some in Hin as [_ <-]. simpl. lia.
Qed.

Lemma write_by_redo_rebuilds_group_index_witness :
  let blockHash := Reference.demoHash x42 in
  let addr := Reference.demoAddress in
  let redoLog := Reference.demoMetaItem in
  let sDB := Reference.emptyStateDB in
  (∀ a metaBytes,
     ChainState.ContractMeta redoLog !! a = Some metaBytes →
     @ChainState.GidSize Reference.utils ≤ length metaBytes)
  ∧ ∃ batch cache',
      @ChainState.WriteByRedo Reference.utils Reference.collaborators
        blockHash addr redoLog sDB =
      Some (@ChainState.mkStateDB Reference.collaborators
              (@ChainState.store_WriteAccountBlockByHash
                 Reference.collaborators batch blockHash
                 (ChainState.store sDB))
              (ChainState.redo sDB) (ChainState.roundCache sDB) cache'
              (ChainState.vmLogAll sDB) (ChainState.vmLogWhiteListSet sDB))
      ∧ ∀ a metaBytes,
          ChainState.ContractMeta redoLog !! a = Some metaBytes →
          OpPut (@ChainState.CreateContractMetaKey Reference.utils a)
            metaBytes ∈ batch
          ∧ OpPut ([@ChainState.GidContractKeyPrefix Reference.utils] ++ a
                   ++ take (@ChainState.GidSize Reference.utils) metaBytes) []
            ∈ batch.
Proof.
  intros blockHash addr redoLog sDB.
  split; [exact demoMetaItem_long|].
  exact (@write_by_redo_rebuilds_group_index Reference.utils
           Reference.collaborators blockHash addr redoLog sDB
           demoMetaItem_long).
Defined.

Lemma demoCached_holds :
  is_Some (ChainState.cache Reference.demoCachedStateDB !! [x62; x6b]).
Proof. exists [x07]. apply lookup_singleton_eq. Qed.

Lemma cache_entries_are_never_removed_witness :
  let sDB := Reference.demoCachedStateDB in
  let k := [x62; x6b] in
  is_Some (ChainState.cache sDB !! k)
  ∧ (∀ block,
       is_Some (ChainState.cache
                  (@ChainState.Write Reference.utils Reference.collaborators
                     block sDB).2 !! k))
  ∧ (∀ blockHash addr redoLog sDB',
       @ChainState.WriteByRedo Reference.utils Reference.collaborators
         blockHash addr redoLog sDB = Some sDB' →
       is_Some (ChainState.cache sDB' !! k))
  ∧ (∀ snapshotBlock confirmedBlocks r sDB',
       @ChainState.InsertSnapshotBlock Reference.utils Reference.collaborators
         snapshotBlock confirmedBlocks sDB = Some (r, sDB') →
       is_Some (ChainState.cache sDB' !! k)).
Proof.
  intros sDB k.
  split; [exact demoCached_holds|].
  exact (@cache_entries_are_never_removed Reference.utils
           Reference.collaborators sDB k demoCached_holds).
Defined.

Lemma history_batch_holds_exactly_the_last_values_witness :
  let snapshotBlock := Reference.demoSnapshotBlock in
  let sDB := Reference.demoStateDB in
  let snapshotRedoLog := Reference.demoSnapshotLog in
  let h := SnapshotBlock.Height snapshotBlock in
  let redo' :=
    @ChainState.redo_InsertSnapshotBlock Reference.collaborators
      snapshotBlock [] (ChainState.redo sDB) in
  @ChainState.redo_QueryLog Reference.collaborators h redo'
  = Ok (snapshotRedoLog, true)
  ∧ ∃ batch cache',
      @ChainState.InsertSnapshotBlock Reference.utils Reference.collaborators
        snapshotBlock [] sDB =
      Some (None,
            @ChainState.mkStateDB Reference.collaborators
              (@ChainState.store_WriteSnapshot Reference.collaborators
                 batch [] (ChainState.store sDB))
              redo'
              (@ChainState.roundCache_InsertSnapshotBlock
                 Reference.collaborators snapshotBlock snapshotRedoLog
                 (ChainState.roundCache sDB))
              cache' (ChainState.vmLogAll sDB)
              (ChainState.vmLogWhiteListSet sDB))
      ∧ (∀ op, op ∈ batch ↔
           (∃ addr items before key value after,
              snapshotRedoLog !! addr = Some items
              ∧ items ≫= ChainState.Storage = before ++ (key, value) :: after
              ∧ (key ∉ after.*1)
              ∧ op = OpPut (@ChainState.HistoryStorageValueKeyBytes
                              Reference.utils
                              (@ChainState.CreateHistoryStorageValueKey
                                 Reference.utils addr key h)) value)
           ∨ (∃ addr items before tokenTypeId balance after,
                snapshotRedoLog !! addr = Some items
                ∧ (items ≫= fun redoLog =>
                     map_to_list (ChainState.BalanceMap redoLog))
                  = before ++ (tokenTypeId, balance) :: after
                ∧ (tokenTypeId ∉ after.*1)
                ∧ op = OpPut (@ChainState.HistoryBalanceKeyBytes
                                Reference.utils
                                (ChainState.CreateHistoryBalanceKey
                                   addr tokenTypeId h))
                         (bigIntBytes balance)))
      ∧ (size snapshotRedoLog = 0 →
         batch = [] ∧ cache' = ChainState.cache sDB).
Proof.
  intros snapshotBlock sDB snapshotRedoLog h redo'.
  split; [exact demo_QueryLog|].
  exact (@history_batch_holds_exactly_the_last_values Reference.utils
           Reference.collaborators reference_history_key_layout
           Reference.demoSnapshotBlock [] Reference.demoStateDB
           Reference.demoSnapshotLog true demo_QueryLog).
Defined.

Lemma insert_snapshot_block_query_error_witness :
  let snapshotBlock := Reference.demoSnapshotBlock in
  let sDB := Reference.closedRedoStateDB in
  let err := errorNew "leveldb: closed" in
  let redo' :=
    @ChainState.redo_InsertSnapshotBlock Reference.closedRedoCollaborators
      snapshotBlock [] (ChainState.redo sDB) in
  @ChainState.redo_QueryLog Reference.closedRedoCollaborators
    (SnapshotBlock.Height snapshotBlock) redo' = Err err
  ∧ ∃ sDB',
      @ChainState.InsertSnapshotBlock Reference.utils
        Reference.closedRedoCollaborators snapshotBlock [] sDB
      = Some (Some err, sDB')
      ∧ ChainState.redo sDB' = redo'
      ∧ ChainState.store sDB' = ChainState.store sDB
      ∧ ChainState.roundCache sDB' = ChainState.roundCache sDB
      ∧ ChainState.cache sDB' = ChainState.cache sDB.
Proof.
  intros snapshotBlock sDB err redo'.
  split; [reflexivity|].
  exact (@insert_snapshot_block_query_error Reference.utils
           Reference.closedRedoCollaborators snapshotBlock [] sDB err eq_refl).
Defined.
